(** * Poker-App: the new-game screen (app/newgame.tsx)

    A shallow embedding of the validation and settlement logic of the
    new-game screen: [hasDuplicateNames], [checkTotalBalance],
    [calculatePayments] and [saveGame].

    JavaScript numbers are IEEE 754 binary64 values; they are modelled by
    the Standard Library's [spec_float] at precision 53 and maximal
    exponent 1024, whose operations are executable.  JavaScript strings are
    modelled by [string], each [ascii] standing for one code unit in
    U+0000..U+00FF; strings of any UTF-16 code units, with [toLowerCase]
    and [trim] over all of Unicode, are modelled in [U16], and the two
    models agree on code units below U+0100. *)

From Stdlib Require Import ZArith List String Ascii Bool Lia PeanoNat.
From Stdlib Require Import SpecFloat.
From Stdlib Require Import Permutation Sorted.
Import ListNotations.

Local Open Scope Z_scope.

(** ** JavaScript numbers *)

Module JS.

Definition number : Type := spec_float.

Definition prec : Z := 53.
Definition emax : Z := 1024.

Definition NaN : number := S754_nan.
Definition zero : number := S754_zero false.

Definition add (x y : number) : number := SFadd prec emax x y.
Definition sub (x y : number) : number := SFsub prec emax x y.

(** [x < y], [x > y] and [x === y] on numbers. *)
Definition lt (x y : number) : bool := SFltb x y.
Definition gt (x y : number) : bool := SFltb y x.
Definition strict_eq (x y : number) : bool := SFeqb x y.

(** [Math.abs]. *)
Definition Math_abs (x : number) : number := SFabs x.

(** [Math.min] of two numbers: NaN when either is NaN, and -0 is smaller
    than +0. *)
Definition Math_min (x y : number) : number :=
  match x, y with
  | S754_nan, _ | _, S754_nan => S754_nan
  | S754_zero sx, S754_zero sy => S754_zero (sx || sy)
  | _, _ => if SFltb y x then y else x
  end.

(** ToBoolean on a number: NaN, +0 and -0 are falsy. *)
Definition truthy (x : number) : bool :=
  match x with
  | S754_nan | S754_zero _ => false
  | _ => true
  end.

(** [x || 0]. *)
Definition or_zero (x : number) : number := if truthy x then x else zero.

(** The number nearest to [m * 10^e] (ties to even), signed by [neg]: the
    value of a decimal literal. *)
Definition of_decimal (neg : bool) (m : Z) (e : Z) : number :=
  match m with
  | Zpos p =>
      match e with
      | Zneg k => SFdiv prec emax (S754_finite neg p 0)
                               (S754_finite false (Pos.pow 10 k) 0)
      | _ => binary_round prec emax neg (p * Z.to_pos (10 ^ e))%positive 0
      end
  | _ => S754_zero neg
  end.

Definition of_Z (n : Z) : number := of_decimal (n <? 0) (Z.abs n) 0.

(** The literal [0.01]. *)
Definition cent : number := Eval vm_compute in of_decimal false 1 (-2).

End JS.

(** ** JavaScript strings *)

Module Str.

Local Open Scope string_scope.
Local Open Scope Z_scope.

Definition code (c : ascii) : Z := Z.of_N (N_of_ascii c).

(** WhiteSpace and LineTerminator code units below U+0100: TAB, LF, VT,
    FF, CR, SP and NBSP. *)
Definition isWhiteSpace (c : ascii) : bool :=
  let n := code c in
  ((9 <=? n) && (n <=? 13)) || (n =? 32) || (n =? 160).

(** Lower-casing of one code unit below U+0100: A-Z and the Latin-1
    capitals U+00C0..U+00DE, the multiplication sign U+00D7 apart. *)
Definition lowerChar (c : ascii) : ascii :=
  let n := code c in
  if ((65 <=? n) && (n <=? 90))
     || ((192 <=? n) && (n <=? 222) && negb (n =? 215))
  then ascii_of_N (Z.to_N (n + 32))
  else c.

Fixpoint toLowerCase (s : string) : string :=
  match s with
  | EmptyString => EmptyString
  | String c r => String (lowerChar c) (toLowerCase r)
  end.

Fixpoint trimStart (s : string) : string :=
  match s with
  | EmptyString => EmptyString
  | String c r => if isWhiteSpace c then trimStart r else s
  end.

Fixpoint trimEnd (s : string) : string :=
  match s with
  | EmptyString => EmptyString
  | String c r =>
      match trimEnd r with
      | EmptyString => if isWhiteSpace c then EmptyString else String c EmptyString
      | r' => String c r'
      end
  end.

Definition trim (s : string) : string := trimEnd (trimStart s).

Definition isEmpty (s : string) : bool :=
  match s with EmptyString => true | _ => false end.

(** *** parseFloat *)

Definition digit_of (c : ascii) : option Z :=
  let n := code c in
  if (48 <=? n) && (n <=? 57) then Some (n - 48) else None.

(** The longest run of decimal digits at the head of [s]: its value on top
    of [acc], its length on top of [len], and what follows it. *)
Fixpoint scan_digits (s : string) (acc len : Z) : Z * Z * string :=
  match s with
  | String c r =>
      match digit_of c with
      | Some d => scan_digits r (10 * acc + d) (len + 1)
      | None => (acc, len, s)
      end
  | EmptyString => (acc, len, s)
  end.

Definition scan_sign (s : string) : bool * string :=
  match s with
  | String "+" r => (false, r)
  | String "-" r => (true, r)
  | _ => (false, s)
  end.

(** An ExponentPart at the head of [s] ([e] or [E], an optional sign, at
    least one digit); 0 when there is none. *)
Definition scan_exponent (s : string) : Z :=
  match s with
  | String c r =>
      if (code c =? 101) || (code c =? 69) then
        let '(neg, r') := scan_sign r in
        let '(v, n, _) := scan_digits r' 0 0 in
        if n =? 0 then 0 else if neg then - v else v
      else 0
  | EmptyString => 0
  end.

(** [parseFloat(s)]: leading white space is skipped, the longest prefix
    that is a StrDecimalLiteral is read, and NaN is returned when there is
    none. *)
Definition parseFloat (s : string) : JS.number :=
  let '(neg, s1) := scan_sign (trimStart s) in
  if prefix "Infinity" s1 then S754_infinity neg
  else
    let '(ip, ni, s2) := scan_digits s1 0 0 in
    let '(fp, nf, s3) :=
      match s2 with
      | String "." r => scan_digits r ip 0
      | _ => (ip, 0, s2)
      end in
    if (ni =? 0) && (nf =? 0) then JS.NaN
    else JS.of_decimal neg fp (scan_exponent s3 - nf).

End Str.

(** ** Unicode character data

    The properties of Unicode 14.0.0 that [toLowerCase] reads.  A table
    lists ranges of code points, both ends included. *)

Module Unicode.

Local Open Scope list_scope.

Definition inRanges (table : list (Z * Z)) (c : Z) : bool :=
  existsb (fun r => (fst r <=? c) && (c <=? snd r)) table.

(** DerivedCoreProperties.txt, Cased. *)
Definition casedRanges : list (Z * Z) :=
  [
    (0x41, 0x5A); (0x61, 0x7A); (0xAA, 0xAA); (0xB5, 0xB5); (0xBA, 0xBA);
    (0xC0, 0xD6); (0xD8, 0xF6); (0xF8, 0x1BA); (0x1BC, 0x1BF); (0x1C4, 0x293);
    (0x295, 0x2B8); (0x2C0, 0x2C1); (0x2E0, 0x2E4); (0x345, 0x345); (0x370, 0x373);
    (0x376, 0x377); (0x37A, 0x37D); (0x37F, 0x37F); (0x386, 0x386); (0x388, 0x38A);
    (0x38C, 0x38C); (0x38E, 0x3A1); (0x3A3, 0x3F5); (0x3F7, 0x481); (0x48A, 0x52F);
    (0x531, 0x556); (0x560, 0x588); (0x10A0, 0x10C5); (0x10C7, 0x10C7); (0x10CD, 0x10CD);
    (0x10D0, 0x10FA); (0x10FD, 0x10FF); (0x13A0, 0x13F5); (0x13F8, 0x13FD); (0x1C80, 0x1C88);
    (0x1C90, 0x1CBA); (0x1CBD, 0x1CBF); (0x1D00, 0x1DBF); (0x1E00, 0x1F15); (0x1F18, 0x1F1D);
    (0x1F20, 0x1F45); (0x1F48, 0x1F4D); (0x1F50, 0x1F57); (0x1F59, 0x1F59); (0x1F5B, 0x1F5B);
    (0x1F5D, 0x1F5D); (0x1F5F, 0x1F7D); (0x1F80, 0x1FB4); (0x1FB6, 0x1FBC); (0x1FBE, 0x1FBE);
    (0x1FC2, 0x1FC4); (0x1FC6, 0x1FCC); (0x1FD0, 0x1FD3); (0x1FD6, 0x1FDB); (0x1FE0, 0x1FEC);
    (0x1FF2, 0x1FF4); (0x1FF6, 0x1FFC); (0x2071, 0x2071); (0x207F, 0x207F); (0x2090, 0x209C);
    (0x2102, 0x2102); (0x2107, 0x2107); (0x210A, 0x2113); (0x2115, 0x2115); (0x2119, 0x211D);
    (0x2124, 0x2124); (0x2126, 0x2126); (0x2128, 0x2128); (0x212A, 0x212D); (0x212F, 0x2134);
    (0x2139, 0x2139); (0x213C, 0x213F); (0x2145, 0x2149); (0x214E, 0x214E); (0x2160, 0x217F);
    (0x2183, 0x2184); (0x24B6, 0x24E9); (0x2C00, 0x2CE4); (0x2CEB, 0x2CEE); (0x2CF2, 0x2CF3);
    (0x2D00, 0x2D25); (0x2D27, 0x2D27); (0x2D2D, 0x2D2D); (0xA640, 0xA66D); (0xA680, 0xA69D);
    (0xA722, 0xA787); (0xA78B, 0xA78E); (0xA790, 0xA7CA); (0xA7D0, 0xA7D1); (0xA7D3, 0xA7D3);
    (0xA7D5, 0xA7D9); (0xA7F5, 0xA7F6); (0xA7F8, 0xA7FA); (0xAB30, 0xAB5A); (0xAB5C, 0xAB68);
    (0xAB70, 0xABBF); (0xFB00, 0xFB06); (0xFB13, 0xFB17); (0xFF21, 0xFF3A); (0xFF41, 0xFF5A);
    (0x10400, 0x1044F); (0x104B0, 0x104D3); (0x104D8, 0x104FB); (0x10570, 0x1057A); (0x1057C, 0x1058A);
    (0x1058C, 0x10592); (0x10594, 0x10595); (0x10597, 0x105A1); (0x105A3, 0x105B1); (0x105B3, 0x105B9);
    (0x105BB, 0x105BC); (0x10780, 0x10780); (0x10783, 0x10785); (0x10787, 0x107B0); (0x107B2, 0x107BA);
    (0x10C80, 0x10CB2); (0x10CC0, 0x10CF2); (0x118A0, 0x118DF); (0x16E40, 0x16E7F); (0x1D400, 0x1D454);
    (0x1D456, 0x1D49C); (0x1D49E, 0x1D49F); (0x1D4A2, 0x1D4A2); (0x1D4A5, 0x1D4A6); (0x1D4A9, 0x1D4AC);
    (0x1D4AE, 0x1D4B9); (0x1D4BB, 0x1D4BB); (0x1D4BD, 0x1D4C3); (0x1D4C5, 0x1D505); (0x1D507, 0x1D50A);
    (0x1D50D, 0x1D514); (0x1D516, 0x1D51C); (0x1D51E, 0x1D539); (0x1D53B, 0x1D53E); (0x1D540, 0x1D544);
    (0x1D546, 0x1D546); (0x1D54A, 0x1D550); (0x1D552, 0x1D6A5); (0x1D6A8, 0x1D6C0); (0x1D6C2, 0x1D6DA);
    (0x1D6DC, 0x1D6FA); (0x1D6FC, 0x1D714); (0x1D716, 0x1D734); (0x1D736, 0x1D74E); (0x1D750, 0x1D76E);
    (0x1D770, 0x1D788); (0x1D78A, 0x1D7A8); (0x1D7AA, 0x1D7C2); (0x1D7C4, 0x1D7CB); (0x1DF00, 0x1DF09);
    (0x1DF0B, 0x1DF1E); (0x1E900, 0x1E943); (0x1F130, 0x1F149); (0x1F150, 0x1F169); (0x1F170, 0x1F189) ].

(** DerivedCoreProperties.txt, Case_Ignorable. *)
Definition caseIgnorableRanges : list (Z * Z) :=
  [
    (0x27, 0x27); (0x2E, 0x2E); (0x3A, 0x3A); (0x5E, 0x5E); (0x60, 0x60);
    (0xA8, 0xA8); (0xAD, 0xAD); (0xAF, 0xAF); (0xB4, 0xB4); (0xB7, 0xB8);
    (0x2B0, 0x36F); (0x374, 0x375); (0x37A, 0x37A); (0x384, 0x385); (0x387, 0x387);
    (0x483, 0x489); (0x559, 0x559); (0x55F, 0x55F); (0x591, 0x5BD); (0x5BF, 0x5BF);
    (0x5C1, 0x5C2); (0x5C4, 0x5C5); (0x5C7, 0x5C7); (0x5F4, 0x5F4); (0x600, 0x605);
    (0x610, 0x61A); (0x61C, 0x61C); (0x640, 0x640); (0x64B, 0x65F); (0x670, 0x670);
    (0x6D6, 0x6DD); (0x6DF, 0x6E8); (0x6EA, 0x6ED); (0x70F, 0x70F); (0x711, 0x711);
    (0x730, 0x74A); (0x7A6, 0x7B0); (0x7EB, 0x7F5); (0x7FA, 0x7FA); (0x7FD, 0x7FD);
    (0x816, 0x82D); (0x859, 0x85B); (0x888, 0x888); (0x890, 0x891); (0x898, 0x89F);
    (0x8C9, 0x902); (0x93A, 0x93A); (0x93C, 0x93C); (0x941, 0x948); (0x94D, 0x94D);
    (0x951, 0x957); (0x962, 0x963); (0x971, 0x971); (0x981, 0x981); (0x9BC, 0x9BC);
    (0x9C1, 0x9C4); (0x9CD, 0x9CD); (0x9E2, 0x9E3); (0x9FE, 0x9FE); (0xA01, 0xA02);
    (0xA3C, 0xA3C); (0xA41, 0xA42); (0xA47, 0xA48); (0xA4B, 0xA4D); (0xA51, 0xA51);
    (0xA70, 0xA71); (0xA75, 0xA75); (0xA81, 0xA82); (0xABC, 0xABC); (0xAC1, 0xAC5);
    (0xAC7, 0xAC8); (0xACD, 0xACD); (0xAE2, 0xAE3); (0xAFA, 0xAFF); (0xB01, 0xB01);
    (0xB3C, 0xB3C); (0xB3F, 0xB3F); (0xB41, 0xB44); (0xB4D, 0xB4D); (0xB55, 0xB56);
    (0xB62, 0xB63); (0xB82, 0xB82); (0xBC0, 0xBC0); (0xBCD, 0xBCD); (0xC00, 0xC00);
    (0xC04, 0xC04); (0xC3C, 0xC3C); (0xC3E, 0xC40); (0xC46, 0xC48); (0xC4A, 0xC4D);
    (0xC55, 0xC56); (0xC62, 0xC63); (0xC81, 0xC81); (0xCBC, 0xCBC); (0xCBF, 0xCBF);
    (0xCC6, 0xCC6); (0xCCC, 0xCCD); (0xCE2, 0xCE3); (0xD00, 0xD01); (0xD3B, 0xD3C);
    (0xD41, 0xD44); (0xD4D, 0xD4D); (0xD62, 0xD63); (0xD81, 0xD81); (0xDCA, 0xDCA);
    (0xDD2, 0xDD4); (0xDD6, 0xDD6); (0xE31, 0xE31); (0xE34, 0xE3A); (0xE46, 0xE4E);
    (0xEB1, 0xEB1); (0xEB4, 0xEBC); (0xEC6, 0xEC6); (0xEC8, 0xECD); (0xF18, 0xF19);
    (0xF35, 0xF35); (0xF37, 0xF37); (0xF39, 0xF39); (0xF71, 0xF7E); (0xF80, 0xF84);
    (0xF86, 0xF87); (0xF8D, 0xF97); (0xF99, 0xFBC); (0xFC6, 0xFC6); (0x102D, 0x1030);
    (0x1032, 0x1037); (0x1039, 0x103A); (0x103D, 0x103E); (0x1058, 0x1059); (0x105E, 0x1060);
    (0x1071, 0x1074); (0x1082, 0x1082); (0x1085, 0x1086); (0x108D, 0x108D); (0x109D, 0x109D);
    (0x10FC, 0x10FC); (0x135D, 0x135F); (0x1712, 0x1714); (0x1732, 0x1733); (0x1752, 0x1753);
    (0x1772, 0x1773); (0x17B4, 0x17B5); (0x17B7, 0x17BD); (0x17C6, 0x17C6); (0x17C9, 0x17D3);
    (0x17D7, 0x17D7); (0x17DD, 0x17DD); (0x180B, 0x180F); (0x1843, 0x1843); (0x1885, 0x1886);
    (0x18A9, 0x18A9); (0x1920, 0x1922); (0x1927, 0x1928); (0x1932, 0x1932); (0x1939, 0x193B);
    (0x1A17, 0x1A18); (0x1A1B, 0x1A1B); (0x1A56, 0x1A56); (0x1A58, 0x1A5E); (0x1A60, 0x1A60);
    (0x1A62, 0x1A62); (0x1A65, 0x1A6C); (0x1A73, 0x1A7C); (0x1A7F, 0x1A7F); (0x1AA7, 0x1AA7);
    (0x1AB0, 0x1ACE); (0x1B00, 0x1B03); (0x1B34, 0x1B34); (0x1B36, 0x1B3A); (0x1B3C, 0x1B3C);
    (0x1B42, 0x1B42); (0x1B6B, 0x1B73); (0x1B80, 0x1B81); (0x1BA2, 0x1BA5); (0x1BA8, 0x1BA9);
    (0x1BAB, 0x1BAD); (0x1BE6, 0x1BE6); (0x1BE8, 0x1BE9); (0x1BED, 0x1BED); (0x1BEF, 0x1BF1);
    (0x1C2C, 0x1C33); (0x1C36, 0x1C37); (0x1C78, 0x1C7D); (0x1CD0, 0x1CD2); (0x1CD4, 0x1CE0);
    (0x1CE2, 0x1CE8); (0x1CED, 0x1CED); (0x1CF4, 0x1CF4); (0x1CF8, 0x1CF9); (0x1D2C, 0x1D6A);
    (0x1D78, 0x1D78); (0x1D9B, 0x1DFF); (0x1FBD, 0x1FBD); (0x1FBF, 0x1FC1); (0x1FCD, 0x1FCF);
    (0x1FDD, 0x1FDF); (0x1FED, 0x1FEF); (0x1FFD, 0x1FFE); (0x200B, 0x200F); (0x2018, 0x2019);
    (0x2024, 0x2024); (0x2027, 0x2027); (0x202A, 0x202E); (0x2060, 0x2064); (0x2066, 0x206F);
    (0x2071, 0x2071); (0x207F, 0x207F); (0x2090, 0x209C); (0x20D0, 0x20F0); (0x2C7C, 0x2C7D);
    (0x2CEF, 0x2CF1); (0x2D6F, 0x2D6F); (0x2D7F, 0x2D7F); (0x2DE0, 0x2DFF); (0x2E2F, 0x2E2F);
    (0x3005, 0x3005); (0x302A, 0x302D); (0x3031, 0x3035); (0x303B, 0x303B); (0x3099, 0x309E);
    (0x30FC, 0x30FE); (0xA015, 0xA015); (0xA4F8, 0xA4FD); (0xA60C, 0xA60C); (0xA66F, 0xA672);
    (0xA674, 0xA67D); (0xA67F, 0xA67F); (0xA69C, 0xA69F); (0xA6F0, 0xA6F1); (0xA700, 0xA721);
    (0xA770, 0xA770); (0xA788, 0xA78A); (0xA7F2, 0xA7F4); (0xA7F8, 0xA7F9); (0xA802, 0xA802);
    (0xA806, 0xA806); (0xA80B, 0xA80B); (0xA825, 0xA826); (0xA82C, 0xA82C); (0xA8C4, 0xA8C5);
    (0xA8E0, 0xA8F1); (0xA8FF, 0xA8FF); (0xA926, 0xA92D); (0xA947, 0xA951); (0xA980, 0xA982);
    (0xA9B3, 0xA9B3); (0xA9B6, 0xA9B9); (0xA9BC, 0xA9BD); (0xA9CF, 0xA9CF); (0xA9E5, 0xA9E6);
    (0xAA29, 0xAA2E); (0xAA31, 0xAA32); (0xAA35, 0xAA36); (0xAA43, 0xAA43); (0xAA4C, 0xAA4C);
    (0xAA70, 0xAA70); (0xAA7C, 0xAA7C); (0xAAB0, 0xAAB0); (0xAAB2, 0xAAB4); (0xAAB7, 0xAAB8);
    (0xAABE, 0xAABF); (0xAAC1, 0xAAC1); (0xAADD, 0xAADD); (0xAAEC, 0xAAED); (0xAAF3, 0xAAF4);
    (0xAAF6, 0xAAF6); (0xAB5B, 0xAB5F); (0xAB69, 0xAB6B); (0xABE5, 0xABE5); (0xABE8, 0xABE8);
    (0xABED, 0xABED); (0xFB1E, 0xFB1E); (0xFBB2, 0xFBC2); (0xFE00, 0xFE0F); (0xFE13, 0xFE13);
    (0xFE20, 0xFE2F); (0xFE52, 0xFE52); (0xFE55, 0xFE55); (0xFEFF, 0xFEFF); (0xFF07, 0xFF07);
    (0xFF0E, 0xFF0E); (0xFF1A, 0xFF1A); (0xFF3E, 0xFF3E); (0xFF40, 0xFF40); (0xFF70, 0xFF70);
    (0xFF9E, 0xFF9F); (0xFFE3, 0xFFE3); (0xFFF9, 0xFFFB); (0x101FD, 0x101FD); (0x102E0, 0x102E0);
    (0x10376, 0x1037A); (0x10780, 0x10785); (0x10787, 0x107B0); (0x107B2, 0x107BA); (0x10A01, 0x10A03);
    (0x10A05, 0x10A06); (0x10A0C, 0x10A0F); (0x10A38, 0x10A3A); (0x10A3F, 0x10A3F); (0x10AE5, 0x10AE6);
    (0x10D24, 0x10D27); (0x10EAB, 0x10EAC); (0x10F46, 0x10F50); (0x10F82, 0x10F85); (0x11001, 0x11001);
    (0x11038, 0x11046); (0x11070, 0x11070); (0x11073, 0x11074); (0x1107F, 0x11081); (0x110B3, 0x110B6);
    (0x110B9, 0x110BA); (0x110BD, 0x110BD); (0x110C2, 0x110C2); (0x110CD, 0x110CD); (0x11100, 0x11102);
    (0x11127, 0x1112B); (0x1112D, 0x11134); (0x11173, 0x11173); (0x11180, 0x11181); (0x111B6, 0x111BE);
    (0x111C9, 0x111CC); (0x111CF, 0x111CF); (0x1122F, 0x11231); (0x11234, 0x11234); (0x11236, 0x11237);
    (0x1123E, 0x1123E); (0x112DF, 0x112DF); (0x112E3, 0x112EA); (0x11300, 0x11301); (0x1133B, 0x1133C);
    (0x11340, 0x11340); (0x11366, 0x1136C); (0x11370, 0x11374); (0x11438, 0x1143F); (0x11442, 0x11444);
    (0x11446, 0x11446); (0x1145E, 0x1145E); (0x114B3, 0x114B8); (0x114BA, 0x114BA); (0x114BF, 0x114C0);
    (0x114C2, 0x114C3); (0x115B2, 0x115B5); (0x115BC, 0x115BD); (0x115BF, 0x115C0); (0x115DC, 0x115DD);
    (0x11633, 0x1163A); (0x1163D, 0x1163D); (0x1163F, 0x11640); (0x116AB, 0x116AB); (0x116AD, 0x116AD);
    (0x116B0, 0x116B5); (0x116B7, 0x116B7); (0x1171D, 0x1171F); (0x11722, 0x11725); (0x11727, 0x1172B);
    (0x1182F, 0x11837); (0x11839, 0x1183A); (0x1193B, 0x1193C); (0x1193E, 0x1193E); (0x11943, 0x11943);
    (0x119D4, 0x119D7); (0x119DA, 0x119DB); (0x119E0, 0x119E0); (0x11A01, 0x11A0A); (0x11A33, 0x11A38);
    (0x11A3B, 0x11A3E); (0x11A47, 0x11A47); (0x11A51, 0x11A56); (0x11A59, 0x11A5B); (0x11A8A, 0x11A96);
    (0x11A98, 0x11A99); (0x11C30, 0x11C36); (0x11C38, 0x11C3D); (0x11C3F, 0x11C3F); (0x11C92, 0x11CA7);
    (0x11CAA, 0x11CB0); (0x11CB2, 0x11CB3); (0x11CB5, 0x11CB6); (0x11D31, 0x11D36); (0x11D3A, 0x11D3A);
    (0x11D3C, 0x11D3D); (0x11D3F, 0x11D45); (0x11D47, 0x11D47); (0x11D90, 0x11D91); (0x11D95, 0x11D95);
    (0x11D97, 0x11D97); (0x11EF3, 0x11EF4); (0x13430, 0x13438); (0x16AF0, 0x16AF4); (0x16B30, 0x16B36);
    (0x16B40, 0x16B43); (0x16F4F, 0x16F4F); (0x16F8F, 0x16F9F); (0x16FE0, 0x16FE1); (0x16FE3, 0x16FE4);
    (0x1AFF0, 0x1AFF3); (0x1AFF5, 0x1AFFB); (0x1AFFD, 0x1AFFE); (0x1BC9D, 0x1BC9E); (0x1BCA0, 0x1BCA3);
    (0x1CF00, 0x1CF2D); (0x1CF30, 0x1CF46); (0x1D167, 0x1D169); (0x1D173, 0x1D182); (0x1D185, 0x1D18B);
    (0x1D1AA, 0x1D1AD); (0x1D242, 0x1D244); (0x1DA00, 0x1DA36); (0x1DA3B, 0x1DA6C); (0x1DA75, 0x1DA75);
    (0x1DA84, 0x1DA84); (0x1DA9B, 0x1DA9F); (0x1DAA1, 0x1DAAF); (0x1E000, 0x1E006); (0x1E008, 0x1E018);
    (0x1E01B, 0x1E021); (0x1E023, 0x1E024); (0x1E026, 0x1E02A); (0x1E130, 0x1E13D); (0x1E2AE, 0x1E2AE);
    (0x1E2EC, 0x1E2EF); (0x1E8D0, 0x1E8D6); (0x1E944, 0x1E94B); (0x1F3FB, 0x1F3FF); (0xE0001, 0xE0001);
    (0xE0020, 0xE007F); (0xE0100, 0xE01EF) ].

Definition Cased (c : Z) : bool := inRanges casedRanges c.

Definition Case_Ignorable (c : Z) : bool := inRanges caseIgnorableRanges c.

(** UnicodeData.txt, Simple_Lowercase_Mapping, in runs
    [(first, last, step, offset)]: the code points [first], [first + step],
    ..., up to [last], map to themselves plus [offset]. *)
Definition lowercaseRuns : list (Z * Z * Z * Z) :=
  [
    (0x41, 0x5A, 1, 32); (0xC0, 0xD6, 1, 32); (0xD8, 0xDE, 1, 32);
    (0x100, 0x12E, 2, 1); (0x130, 0x130, 1, (-199)); (0x132, 0x136, 2, 1);
    (0x139, 0x147, 2, 1); (0x14A, 0x176, 2, 1); (0x178, 0x178, 1, (-121));
    (0x179, 0x17D, 2, 1); (0x181, 0x181, 1, 210); (0x182, 0x184, 2, 1);
    (0x186, 0x186, 1, 206); (0x187, 0x187, 1, 1); (0x189, 0x18A, 1, 205);
    (0x18B, 0x18B, 1, 1); (0x18E, 0x18E, 1, 79); (0x18F, 0x18F, 1, 202);
    (0x190, 0x190, 1, 203); (0x191, 0x191, 1, 1); (0x193, 0x193, 1, 205);
    (0x194, 0x194, 1, 207); (0x196, 0x196, 1, 211); (0x197, 0x197, 1, 209);
    (0x198, 0x198, 1, 1); (0x19C, 0x19C, 1, 211); (0x19D, 0x19D, 1, 213);
    (0x19F, 0x19F, 1, 214); (0x1A0, 0x1A4, 2, 1); (0x1A6, 0x1A6, 1, 218);
    (0x1A7, 0x1A7, 1, 1); (0x1A9, 0x1A9, 1, 218); (0x1AC, 0x1AC, 1, 1);
    (0x1AE, 0x1AE, 1, 218); (0x1AF, 0x1AF, 1, 1); (0x1B1, 0x1B2, 1, 217);
    (0x1B3, 0x1B5, 2, 1); (0x1B7, 0x1B7, 1, 219); (0x1B8, 0x1B8, 1, 1);
    (0x1BC, 0x1BC, 1, 1); (0x1C4, 0x1C4, 1, 2); (0x1C5, 0x1C5, 1, 1);
    (0x1C7, 0x1C7, 1, 2); (0x1C8, 0x1C8, 1, 1); (0x1CA, 0x1CA, 1, 2);
    (0x1CB, 0x1DB, 2, 1); (0x1DE, 0x1EE, 2, 1); (0x1F1, 0x1F1, 1, 2);
    (0x1F2, 0x1F4, 2, 1); (0x1F6, 0x1F6, 1, (-97)); (0x1F7, 0x1F7, 1, (-56));
    (0x1F8, 0x21E, 2, 1); (0x220, 0x220, 1, (-130)); (0x222, 0x232, 2, 1);
    (0x23A, 0x23A, 1, 10795); (0x23B, 0x23B, 1, 1); (0x23D, 0x23D, 1, (-163));
    (0x23E, 0x23E, 1, 10792); (0x241, 0x241, 1, 1); (0x243, 0x243, 1, (-195));
    (0x244, 0x244, 1, 69); (0x245, 0x245, 1, 71); (0x246, 0x24E, 2, 1);
    (0x370, 0x372, 2, 1); (0x376, 0x376, 1, 1); (0x37F, 0x37F, 1, 116);
    (0x386, 0x386, 1, 38); (0x388, 0x38A, 1, 37); (0x38C, 0x38C, 1, 64);
    (0x38E, 0x38F, 1, 63); (0x391, 0x3A1, 1, 32); (0x3A3, 0x3AB, 1, 32);
    (0x3CF, 0x3CF, 1, 8); (0x3D8, 0x3EE, 2, 1); (0x3F4, 0x3F4, 1, (-60));
    (0x3F7, 0x3F7, 1, 1); (0x3F9, 0x3F9, 1, (-7)); (0x3FA, 0x3FA, 1, 1);
    (0x3FD, 0x3FF, 1, (-130)); (0x400, 0x40F, 1, 80); (0x410, 0x42F, 1, 32);
    (0x460, 0x480, 2, 1); (0x48A, 0x4BE, 2, 1); (0x4C0, 0x4C0, 1, 15);
    (0x4C1, 0x4CD, 2, 1); (0x4D0, 0x52E, 2, 1); (0x531, 0x556, 1, 48);
    (0x10A0, 0x10C5, 1, 7264); (0x10C7, 0x10C7, 1, 7264); (0x10CD, 0x10CD, 1, 7264);
    (0x13A0, 0x13EF, 1, 38864); (0x13F0, 0x13F5, 1, 8); (0x1C90, 0x1CBA, 1, (-3008));
    (0x1CBD, 0x1CBF, 1, (-3008)); (0x1E00, 0x1E94, 2, 1); (0x1E9E, 0x1E9E, 1, (-7615));
    (0x1EA0, 0x1EFE, 2, 1); (0x1F08, 0x1F0F, 1, (-8)); (0x1F18, 0x1F1D, 1, (-8));
    (0x1F28, 0x1F2F, 1, (-8)); (0x1F38, 0x1F3F, 1, (-8)); (0x1F48, 0x1F4D, 1, (-8));
    (0x1F59, 0x1F5F, 2, (-8)); (0x1F68, 0x1F6F, 1, (-8)); (0x1F88, 0x1F8F, 1, (-8));
    (0x1F98, 0x1F9F, 1, (-8)); (0x1FA8, 0x1FAF, 1, (-8)); (0x1FB8, 0x1FB9, 1, (-8));
    (0x1FBA, 0x1FBB, 1, (-74)); (0x1FBC, 0x1FBC, 1, (-9)); (0x1FC8, 0x1FCB, 1, (-86));
    (0x1FCC, 0x1FCC, 1, (-9)); (0x1FD8, 0x1FD9, 1, (-8)); (0x1FDA, 0x1FDB, 1, (-100));
    (0x1FE8, 0x1FE9, 1, (-8)); (0x1FEA, 0x1FEB, 1, (-112)); (0x1FEC, 0x1FEC, 1, (-7));
    (0x1FF8, 0x1FF9, 1, (-128)); (0x1FFA, 0x1FFB, 1, (-126)); (0x1FFC, 0x1FFC, 1, (-9));
    (0x2126, 0x2126, 1, (-7517)); (0x212A, 0x212A, 1, (-8383)); (0x212B, 0x212B, 1, (-8262));
    (0x2132, 0x2132, 1, 28); (0x2160, 0x216F, 1, 16); (0x2183, 0x2183, 1, 1);
    (0x24B6, 0x24CF, 1, 26); (0x2C00, 0x2C2F, 1, 48); (0x2C60, 0x2C60, 1, 1);
    (0x2C62, 0x2C62, 1, (-10743)); (0x2C63, 0x2C63, 1, (-3814)); (0x2C64, 0x2C64, 1, (-10727));
    (0x2C67, 0x2C6B, 2, 1); (0x2C6D, 0x2C6D, 1, (-10780)); (0x2C6E, 0x2C6E, 1, (-10749));
    (0x2C6F, 0x2C6F, 1, (-10783)); (0x2C70, 0x2C70, 1, (-10782)); (0x2C72, 0x2C72, 1, 1);
    (0x2C75, 0x2C75, 1, 1); (0x2C7E, 0x2C7F, 1, (-10815)); (0x2C80, 0x2CE2, 2, 1);
    (0x2CEB, 0x2CED, 2, 1); (0x2CF2, 0x2CF2, 1, 1); (0xA640, 0xA66C, 2, 1);
    (0xA680, 0xA69A, 2, 1); (0xA722, 0xA72E, 2, 1); (0xA732, 0xA76E, 2, 1);
    (0xA779, 0xA77B, 2, 1); (0xA77D, 0xA77D, 1, (-35332)); (0xA77E, 0xA786, 2, 1);
    (0xA78B, 0xA78B, 1, 1); (0xA78D, 0xA78D, 1, (-42280)); (0xA790, 0xA792, 2, 1);
    (0xA796, 0xA7A8, 2, 1); (0xA7AA, 0xA7AA, 1, (-42308)); (0xA7AB, 0xA7AB, 1, (-42319));
    (0xA7AC, 0xA7AC, 1, (-42315)); (0xA7AD, 0xA7AD, 1, (-42305)); (0xA7AE, 0xA7AE, 1, (-42308));
    (0xA7B0, 0xA7B0, 1, (-42258)); (0xA7B1, 0xA7B1, 1, (-42282)); (0xA7B2, 0xA7B2, 1, (-42261));
    (0xA7B3, 0xA7B3, 1, 928); (0xA7B4, 0xA7C2, 2, 1); (0xA7C4, 0xA7C4, 1, (-48));
    (0xA7C5, 0xA7C5, 1, (-42307)); (0xA7C6, 0xA7C6, 1, (-35384)); (0xA7C7, 0xA7C9, 2, 1);
    (0xA7D0, 0xA7D0, 1, 1); (0xA7D6, 0xA7D8, 2, 1); (0xA7F5, 0xA7F5, 1, 1);
    (0xFF21, 0xFF3A, 1, 32); (0x10400, 0x10427, 1, 40); (0x104B0, 0x104D3, 1, 40);
    (0x10570, 0x1057A, 1, 39); (0x1057C, 0x1058A, 1, 39); (0x1058C, 0x10592, 1, 39);
    (0x10594, 0x10595, 1, 39); (0x10C80, 0x10CB2, 1, 64); (0x118A0, 0x118BF, 1, 32);
    (0x16E40, 0x16E5F, 1, 32); (0x1E900, 0x1E921, 1, 34) ].

Definition inRun (c : Z) (run : Z * Z * Z * Z) : bool :=
  let '(first, last, step, _) := run in
  (first <=? c) && (c <=? last) && ((c - first) mod step =? 0).

Definition Simple_Lowercase_Mapping (c : Z) : Z :=
  match find (inRun c) lowercaseRuns with
  | Some (_, _, _, offset) => c + offset
  | None => c
  end.

End Unicode.

(** ** Strings as sequences of UTF-16 code units

    [toLowerCase] and [trim] on any string: a string is the list of its
    code units.  [toLowerCase] reads the string as code points, converts
    them to lower case by the Unicode Default Case Conversion (the simple
    mapping of UnicodeData.txt, and the two entries of SpecialCasing.txt
    that are language-insensitive: U+0130, and U+03A3 under the condition
    Final_Sigma), and writes the code points back as code units. *)

Module U16.

Local Open Scope list_scope.

Definition ustring : Type := list Z.

Definition isLeadingSurrogate (u : Z) : bool := (0xD800 <=? u) && (u <=? 0xDBFF).

Definition isTrailingSurrogate (u : Z) : bool := (0xDC00 <=? u) && (u <=? 0xDFFF).

Definition UTF16SurrogatePairToCodePoint (lead trail : Z) : Z :=
  (lead - 0xD800) * 0x400 + (trail - 0xDC00) + 0x10000.

(** A leading surrogate with a trailing surrogate behind it is one code
    point; any other code unit is a code point by itself. *)
Fixpoint StringToCodePoints (s : ustring) : list Z :=
  match s with
  | [] => []
  | u :: r =>
      match r with
      | v :: r' =>
          if isLeadingSurrogate u && isTrailingSurrogate v
          then UTF16SurrogatePairToCodePoint u v :: StringToCodePoints r'
          else u :: StringToCodePoints r
      | [] => [u]
      end
  end.

Definition UTF16EncodeCodePoint (cp : Z) : ustring :=
  if (0x10000 <=? cp) && (cp <=? 0x10FFFF)
  then [ (cp - 0x10000) / 0x400 + 0xD800; (cp - 0x10000) mod 0x400 + 0xDC00 ]
  else [cp].

Definition CodePointsToString (cps : list Z) : ustring :=
  flat_map UTF16EncodeCodePoint cps.

(** Whether the code points [context], read from the nearest one, are zero
    or more case-ignorable code points and then a cased one.  Every
    case-ignorable code point is passed over, also one that is cased, as
    the engines do (ICU, and those that follow it). *)
Fixpoint reachesCased (context : list Z) : bool :=
  match context with
  | [] => false
  | c :: r => if Unicode.Case_Ignorable c then reachesCased r else Unicode.Cased c
  end.

(** The condition Final_Sigma of SpecialCasing.txt: a cased letter comes
    before, and none comes after, case-ignorable code points apart.
    [before] lists the code points before the sigma, the nearest first. *)
Definition Final_Sigma (before after : list Z) : bool :=
  reachesCased before && negb (reachesCased after).

(** The lower case of the code point [c] found between [before] (the
    nearest first) and [after]. *)
Definition toLowercaseAt (before : list Z) (c : Z) (after : list Z) : list Z :=
  if c =? 0x3A3 then (if Final_Sigma before after then [0x3C2] else [0x3C3])
  else if c =? 0x130 then [0x69; 0x307]
  else [Unicode.Simple_Lowercase_Mapping c].

Fixpoint toLowercaseFrom (before cps : list Z) : list Z :=
  match cps with
  | [] => []
  | c :: after => toLowercaseAt before c after ++ toLowercaseFrom (c :: before) after
  end.

(** [String.prototype.toLowerCase]. *)
Definition toLowerCase (s : ustring) : ustring :=
  CodePointsToString (toLowercaseFrom [] (StringToCodePoints s)).

(** WhiteSpace and LineTerminator: TAB, LF, VT, FF, CR, SP, NBSP, the other
    space separators (Zs), LS, PS and ZWNBSP. *)
Definition isWhiteSpace (u : Z) : bool :=
  ((0x9 <=? u) && (u <=? 0xD)) || (u =? 0x20) || (u =? 0xA0) || (u =? 0x1680)
  || ((0x2000 <=? u) && (u <=? 0x200A)) || (u =? 0x2028) || (u =? 0x2029)
  || (u =? 0x202F) || (u =? 0x205F) || (u =? 0x3000) || (u =? 0xFEFF).

Fixpoint trimStart (s : ustring) : ustring :=
  match s with
  | [] => []
  | u :: r => if isWhiteSpace u then trimStart r else s
  end.

Fixpoint trimEnd (s : ustring) : ustring :=
  match s with
  | [] => []
  | u :: r =>
      match trimEnd r with
      | [] => if isWhiteSpace u then [] else [u]
      | r' => u :: r'
      end
  end.

(** [String.prototype.trim]. *)
Definition trim (s : ustring) : ustring := trimEnd (trimStart s).

(** A string of code units below U+0100, as a list of code units. *)
Definition ofString (s : string) : ustring := map Str.code (list_ascii_of_string s).

(** The player entries, with any string in their fields. *)
Record Player : Type := { name : ustring; buyIn : ustring; cashOut : ustring }.

Definition ustring_dec : forall s t : ustring, {s = t} + {s <> t} :=
  list_eq_dec Z.eq_dec.

Definition normalizedNames (ps : list Player) : list ustring :=
  map (fun player => trim (toLowerCase (name player))) ps.

(** [hasDuplicateNames], on any names. *)
Definition hasDuplicateNames (ps : list Player) : bool :=
  let names := normalizedNames ps in
  negb (List.length (nodup ustring_dec names) =? List.length names)%nat.

End U16.

(** ** Number.prototype.toFixed(2) and Number(...) of its result *)

Module Fixed.

(** What [x.toFixed(2)] returns: either the decimal [n/100] written with
    two fractional digits (and a leading minus sign when [neg]), or, for a
    non-finite [x] or [|x| >= 1e21], the string Number::toString gives. *)
Inductive fixed : Type :=
  | Hundredths (neg : bool) (n : Z)
  | NumberToString (x : JS.number).

(** [m * 2^e >= 10^21]. *)
Definition at_least_1e21 (m : positive) (e : Z) : bool :=
  match e with
  | Zneg k => 10 ^ 21 * 2 ^ Zpos k <=? Zpos m
  | _ => 10 ^ 21 <=? Zpos m * 2 ^ e
  end.

(** The integer [n] for which [n / 100 - m * 2^e] is as close to zero as
    possible, the larger one when there are two. *)
Definition hundredths (m : positive) (e : Z) : Z :=
  match e with
  | Zneg k => (200 * Zpos m + 2 ^ Zpos k) / 2 ^ (Zpos k + 1)
  | _ => 100 * Zpos m * 2 ^ e
  end.

Definition toFixed2 (x : JS.number) : fixed :=
  match x with
  | S754_zero _ => Hundredths false 0
  | S754_finite s m e =>
      if at_least_1e21 m e then NumberToString x
      else Hundredths s (hundredths m e)
  | _ => NumberToString x
  end.

(** [Number(str)] for a string [toFixed] returned: the number nearest to
    the decimal, and [x] itself back from Number::toString of [x]. *)
Definition Number (f : fixed) : JS.number :=
  match f with
  | Hundredths neg n => JS.of_decimal neg n (-2)
  | NumberToString x => x
  end.

End Fixed.

(** ** The data model of the screen *)

Local Open Scope string_scope.
Local Open Scope list_scope.

Record Player : Type := { name : string; buyIn : string; cashOut : string }.

Record Payment : Type := { from : string; to : string; amount : JS.number }.

(** The objects of [playerBalances], [winners] and [losers]. *)
Record Balance : Type := { b_name : string; balance : JS.number }.

Record GameWithPayments : Type :=
  { id : string; date : string; players : list Player; payments : list Payment }.

(** ** Arrays *)

Module Arr.

Section Sort.
Context {A : Type}.
Variable comparefn : A -> A -> JS.number.

(** [x] goes behind [y] only when [comparefn x y > 0]; a NaN counts as 0. *)
Fixpoint insert (x : A) (l : list A) : list A :=
  match l with
  | [] => [x]
  | y :: l' => if JS.gt (comparefn x y) JS.zero then y :: insert x l' else x :: l
  end.

(** [Array.prototype.sort] is stable; for a comparator that orders the
    elements consistently its result is the stable sorted arrangement,
    which insertion from the right computes. *)
Definition sort (l : list A) : list A := fold_right insert [] l.
End Sort.

(** [a[i] = x] for an index within the array. *)
Fixpoint set {A : Type} (a : list A) (i : nat) (x : A) : list A :=
  match a, i with
  | [], _ => []
  | _ :: r, O => x :: r
  | y :: r, S i' => y :: set r i' x
  end.

End Arr.

(** ** hasDuplicateNames *)

Definition normalizedNames (ps : list Player) : list string :=
  map (fun player => Str.trim (Str.toLowerCase (name player))) ps.

(** [new Set(names).size !== names.length]. *)
Definition hasDuplicateNames (ps : list Player) : bool :=
  let names := normalizedNames ps in
  negb (List.length (nodup string_dec names) =? List.length names)%nat.

(** An entry with its strings as lists of code units. *)
Definition ofPlayer (p : Player) : U16.Player :=
  {| U16.name := U16.ofString (name p);
     U16.buyIn := U16.ofString (buyIn p);
     U16.cashOut := U16.ofString (cashOut p) |}.

(** ** checkTotalBalance *)

Definition buyInTotal (ps : list Player) : JS.number :=
  fold_left (fun sum player => JS.add sum (JS.or_zero (Str.parseFloat (buyIn player))))
            ps JS.zero.

Definition cashOutTotal (ps : list Player) : JS.number :=
  fold_left (fun sum player => JS.add sum (JS.or_zero (Str.parseFloat (cashOut player))))
            ps JS.zero.

Definition checkTotalBalance (ps : list Player) : bool :=
  JS.strict_eq (Fixed.Number (Fixed.toFixed2 (buyInTotal ps)))
               (Fixed.Number (Fixed.toFixed2 (cashOutTotal ps))).

(** ** calculatePayments *)

(** A player's net balance, [cashOut - buyIn]. *)
Definition balanceOf (player : Player) : JS.number :=
  JS.sub (Str.parseFloat (cashOut player)) (Str.parseFloat (buyIn player)).

Definition playerBalances (ps : list Player) : list Balance :=
  map (fun player => {| b_name := name player; balance := balanceOf player |}) ps.

Definition initialWinners (ps : list Player) : list Balance :=
  Arr.sort (fun a b => JS.sub (balance b) (balance a))
           (filter (fun p => JS.gt (balance p) JS.zero) (playerBalances ps)).

Definition losers (ps : list Player) : list Balance :=
  Arr.sort (fun a b => JS.sub (balance a) (balance b))
           (filter (fun p => JS.lt (balance p) JS.zero) (playerBalances ps)).

(** The arrays the loops share: [winners] and [payments].  [consulted] is
    a ghost field, absent from the source: the values of [winnerIndex] at
    which [winners[winnerIndex]] was read, in order. *)
Record Settlement : Type :=
  { winners : list Balance; paid : list Payment; consulted : list nat }.

(** The local variables of one call of the [forEach] callback, with the
    shared arrays. *)
Record Frame : Type :=
  { remainingDebt : JS.number; winnerIndex : nat; shared : Settlement }.

(** The condition of the [while] loop. *)
Definition loopCondition (f : Frame) : bool :=
  JS.gt (remainingDebt f) JS.cent
  && (winnerIndex f <? List.length (winners (shared f)))%nat.

(** The body of the [while] loop, for the winner read at [winnerIndex]. *)
Definition loopBody (loser winner : Balance) (f : Frame) : Frame :=
  let st := shared f in
  let payment := JS.Math_min (remainingDebt f) (balance winner) in
  let seen := consulted st ++ [winnerIndex f] in
  if JS.gt payment JS.zero then
    {| remainingDebt := JS.sub (remainingDebt f) payment;
       winnerIndex := S (winnerIndex f);
       shared :=
         {| winners :=
              Arr.set (winners st) (winnerIndex f)
                      {| b_name := b_name winner;
                         balance := JS.sub (balance winner) payment |};
            paid :=
              paid st ++ [ {| from := b_name loser; to := b_name winner;
                              amount := Fixed.Number (Fixed.toFixed2 payment) |} ];
            consulted := seen |} |}
  else
    {| remainingDebt := remainingDebt f;
       winnerIndex := S (winnerIndex f);
       shared := {| winners := winners st; paid := paid st; consulted := seen |} |}.

(** The [while] loop, at most [fuel] iterations of it. *)
Fixpoint whileLoop (fuel : nat) (loser : Balance) (f : Frame) : Frame :=
  match fuel with
  | O => f
  | S fuel' =>
      if loopCondition f then
        match nth_error (winners (shared f)) (winnerIndex f) with
        | Some winner => whileLoop fuel' loser (loopBody loser winner f)
        | None => f
        end
      else f
  end.

(** The callback of [losers.forEach]: [winnerIndex] starts at 0 and goes
    up by one in every iteration, so [winners.length] iterations are
    enough. *)
Definition settleLoser (st : Settlement) (loser : Balance) : Frame :=
  whileLoop (List.length (winners st)) loser
            {| remainingDebt := JS.Math_abs (balance loser);
               winnerIndex := 0;
               shared := st |}.

(** What the callback leaves in the shared arrays. *)
Definition forEachStep (st : Settlement) (loser : Balance) : Settlement :=
  shared (settleLoser st loser).

Definition settle (ps : list Player) : Settlement :=
  fold_left forEachStep
            (losers ps)
            {| winners := initialWinners ps; paid := []; consulted := [] |}.

Definition calculatePayments (ps : list Player) : list Payment := paid (settle ps).

(** ** saveGame *)

(** The test of [players.every(...)]: the three fields are filled. *)
Definition filled (player : Player) : bool :=
  negb (Str.trim (name player) =? "")
  && negb (Str.trim (buyIn player) =? "")
  && negb (Str.trim (cashOut player) =? "").

Definition isValid (ps : list Player) : bool := forallb filled ps.

(** What [saveGame] does to the rest of the application, in order.
    [CalledCalculatePayments] marks the call of [calculatePayments]. *)
Inductive Effect : Type :=
  | SetShowDuplicateModal (b : bool)
  | Alert (title message : string)
  | SetTotalBuyIn (x : JS.number)
  | SetTotalCashOut (x : JS.number)
  | SetShowBalanceModal (b : bool)
  | GetItem (key : string)
  | CalledCalculatePayments
  | SetItem (key : string) (games : list GameWithPayments)
  | RouterPush (path : string).

(** What [saveGame] reads from outside the screen: the games in storage
    ([None] when [AsyncStorage.getItem] or [JSON.parse] throws), whether
    [AsyncStorage.setItem] succeeds, [Date.now().toString()] and
    [date.toISOString()]. *)
Record Env : Type :=
  { existingGames : option (list GameWithPayments);
    setItemSucceeds : bool;
    nowString : string;
    dateISO : string }.

Definition newGame (env : Env) (ps : list Player) : GameWithPayments :=
  {| id := nowString env; date := dateISO env;
     players := ps; payments := calculatePayments ps |}.

Definition failedToSave : Effect := Alert "Error" "Failed to save game".

Definition saveGame (env : Env) (ps : list Player) : list Effect :=
  if hasDuplicateNames ps then [SetShowDuplicateModal true]
  else if negb (isValid ps) then
    [Alert "Error" "Please fill in all player information"]
  else
    SetTotalBuyIn (buyInTotal ps) :: SetTotalCashOut (cashOutTotal ps) ::
    if negb (checkTotalBalance ps) then [SetShowBalanceModal true]
    else
      GetItem "pokerGames" ::
      match existingGames env with
      | None => [failedToSave]
      | Some games =>
          CalledCalculatePayments ::
          if setItemSucceeds env
          then [SetItem "pokerGames" (games ++ [newGame env ps]); RouterPush "/"]
          else [failedToSave]
      end.

(** The three checks [saveGame] makes before it goes on to storage. *)
Definition validated (ps : list Player) : bool :=
  negb (hasDuplicateNames ps) && isValid ps && checkTotalBalance ps.

(** ** calculatePayments over a store of objects

    The same function with the objects and arrays of the source kept in a
    store and named by references, so that sharing and in-place updates
    are visible: [players.map] makes new objects and a new array,
    [filter] makes a new array of the same objects, [sort] reorders its
    array in place, [payments.push] and [winners[winnerIndex] = ...] write
    into their arrays. *)

Module Heap.

Definition loc : Type := nat.

Inductive object : Type :=
  | PlayerObj (p : Player)
  | BalanceObj (b : Balance)
  | PaymentObj (t : Payment)
  | ArrayObj (elems : list loc).

(** References are positions in the store; a new object goes at its end. *)
Definition store : Type := list object.

Definition M (A : Type) : Type := store -> A * store.

Definition ret {A : Type} (a : A) : M A := fun h => (a, h).

Definition bind {A B : Type} (m : M A) (k : A -> M B) : M B :=
  fun h => let (a, h') := m h in k a h'.

Notation "x <- m ;; k" := (bind m (fun x => k))
  (at level 61, m at next level, right associativity).

Definition new (o : object) : M loc := fun h => (List.length h, h ++ [o]).

(** Reads.  The types of the source let a reference to an array, a player
    or a balance object point at nothing else; the other cases read as an
    empty array or an object of empty fields. *)
Definition elemsAt (h : store) (a : loc) : list loc :=
  match nth_error h a with Some (ArrayObj es) => es | _ => [] end.

Definition playerAt (h : store) (l : loc) : Player :=
  match nth_error h l with
  | Some (PlayerObj p) => p
  | _ => {| name := ""; buyIn := ""; cashOut := "" |}
  end.

Definition balanceAt (h : store) (l : loc) : Balance :=
  match nth_error h l with
  | Some (BalanceObj b) => b
  | _ => {| b_name := ""; balance := JS.NaN |}
  end.

Definition readArray (a : loc) : M (list loc) := fun h => (elemsAt h a, h).
Definition readPlayer (l : loc) : M Player := fun h => (playerAt h l, h).
Definition readBalance (l : loc) : M Balance := fun h => (balanceAt h l, h).

(** The elements of the array at [a] become [es]. *)
Definition writeArray (a : loc) (es : list loc) : M unit :=
  fun h =>
    (tt, match nth_error h a with
         | Some (ArrayObj _) => Arr.set h a (ArrayObj es)
         | _ => h
         end).

Fixpoint mapM {A B : Type} (f : A -> M B) (l : list A) : M (list B) :=
  match l with
  | [] => ret []
  | x :: r => y <- f x ;; ys <- mapM f r ;; ret (y :: ys)
  end.

Fixpoint forEach {A : Type} (f : A -> M unit) (l : list A) : M unit :=
  match l with
  | [] => ret tt
  | x :: r => _ <- f x ;; forEach f r
  end.

(** [players.map(player => ({ name: ..., balance: ... }))]. *)
Definition mapToBalances (players : loc) : M loc :=
  ls <- readArray players ;;
  bs <- mapM (fun l =>
                player <- readPlayer l ;;
                new (BalanceObj {| b_name := name player;
                                   balance := balanceOf player |})) ls ;;
  new (ArrayObj bs).

(** [a.filter(test)]. *)
Definition filterArr (test : Balance -> bool) (a : loc) : M loc :=
  ls <- readArray a ;;
  bs <- mapM readBalance ls ;;
  new (ArrayObj (map fst (filter (fun lb => test (snd lb)) (combine ls bs)))).

(** [a.sort(comparefn)]. *)
Definition sortArr (comparefn : Balance -> Balance -> JS.number) (a : loc) : M loc :=
  ls <- readArray a ;;
  bs <- mapM readBalance ls ;;
  _ <- writeArray a (map fst (Arr.sort (fun x y => comparefn (snd x) (snd y))
                                       (combine ls bs))) ;;
  ret a.

(** [payments.push(t)]. *)
Definition push (a : loc) (l : loc) : M unit :=
  es <- readArray a ;; writeArray a (es ++ [l]).

(** [a[i] = l], for an index within the array. *)
Definition setIndex (a : loc) (i : nat) (l : loc) : M unit :=
  es <- readArray a ;; writeArray a (Arr.set es i l).

Fixpoint whileLoop (fuel : nat) (loser : Balance) (winners payments : loc)
    (remainingDebt : JS.number) (winnerIndex : nat) : M unit :=
  match fuel with
  | O => ret tt
  | S fuel' =>
      ws <- readArray winners ;;
      if JS.gt remainingDebt JS.cent && (winnerIndex <? List.length ws)%nat then
        match nth_error ws winnerIndex with
        | Some w =>
            winner <- readBalance w ;;
            let payment := JS.Math_min remainingDebt (balance winner) in
            if JS.gt payment JS.zero then
              t <- new (PaymentObj {| from := b_name loser; to := b_name winner;
                                      amount := Fixed.Number (Fixed.toFixed2 payment) |}) ;;
              _ <- push payments t ;;
              w' <- new (BalanceObj {| b_name := b_name winner;
                                       balance := JS.sub (balance winner) payment |}) ;;
              _ <- setIndex winners winnerIndex w' ;;
              whileLoop fuel' loser winners payments
                        (JS.sub remainingDebt payment) (S winnerIndex)
            else
              whileLoop fuel' loser winners payments remainingDebt (S winnerIndex)
        | None => ret tt
        end
      else ret tt
  end.

Definition calculatePayments (players : loc) : M loc :=
  playerBalances <- mapToBalances players ;;
  winners <- (a <- filterArr (fun p => JS.gt (balance p) JS.zero) playerBalances ;;
              sortArr (fun a b => JS.sub (balance b) (balance a)) a) ;;
  losers <- (a <- filterArr (fun p => JS.lt (balance p) JS.zero) playerBalances ;;
             sortArr (fun a b => JS.sub (balance a) (balance b)) a) ;;
  payments <- new (ArrayObj []) ;;
  ls <- readArray losers ;;
  _ <- forEach (fun l =>
                  loser <- readBalance l ;;
                  ws <- readArray winners ;;
                  whileLoop (List.length ws) loser winners payments
                            (JS.Math_abs (balance loser)) 0) ls ;;
  ret payments.

(** The store holds the entries [ps] at the references [ls], and so on. *)
Definition holdsPlayers (h : store) (ls : list loc) (ps : list Player) : Prop :=
  Forall2 (fun l p => nth_error h l = Some (PlayerObj p)) ls ps.

Definition holdsBalances (h : store) (ls : list loc) (bs : list Balance) : Prop :=
  Forall2 (fun l b => nth_error h l = Some (BalanceObj b)) ls bs.

Definition holdsPayments (h : store) (ls : list loc) (ts : list Payment) : Prop :=
  Forall2 (fun l t => nth_error h l = Some (PaymentObj t)) ls ts.

Definition isArray (h : store) (a : loc) (es : list loc) : Prop :=
  nth_error h a = Some (ArrayObj es).

Definition isObject (o : object) : Prop :=
  match o with ArrayObj _ => False | _ => True end.

(** From [h] to [h']: nothing is removed, every reference below [n] holds
    what it held, and no object that is not an array has changed. *)
Definition extends (n : nat) (h h' : store) : Prop :=
  (List.length h <= List.length h')%nat
  /\ (forall l, (l < n)%nat -> nth_error h' l = nth_error h l)
  /\ (forall l o, nth_error h l = Some o -> isObject o -> nth_error h' l = Some o).

End Heap.

(** ** The vocabulary of the specification *)

(** Rounding to 2 fractional digits: [Number(x.toFixed(2))]. *)
Definition round2 (x : JS.number) : JS.number := Fixed.Number (Fixed.toFixed2 x).

(** An amount field as the balance check reads it: [parseFloat(s) || 0]. *)
Definition amountOrZero (s : string) : JS.number := JS.or_zero (Str.parseFloat s).

(** The sum of a list of numbers, added from the left starting at 0. *)
Definition sumOf (xs : list JS.number) : JS.number := fold_left JS.add xs JS.zero.

(** The sum of the amounts of the transfers a player makes or receives. *)
Definition sumFrom (n : string) (ts : list Payment) : JS.number :=
  sumOf (map amount (filter (fun t => from t =? n) ts)).

Definition sumTo (n : string) (ts : list Payment) : JS.number :=
  sumOf (map amount (filter (fun t => to t =? n) ts)).

(** [|x - y| <= 0.01]. *)
Definition within_cent (x y : JS.number) : bool :=
  SFleb (JS.Math_abs (JS.sub x y)) JS.cent.

(** A list of indices that never goes down. *)
Fixpoint nondecreasing (l : list nat) : bool :=
  match l with
  | i :: ((j :: _) as r) => (i <=? j)%nat && nondecreasing r
  | _ => true
  end.

(** The transfer recorded when [loser] pays [x] to the creditor named [w]. *)
Definition transfer (loser : Balance) (wx : string * JS.number) : Payment :=
  {| from := b_name loser; to := fst wx; amount := round2 (snd wx) |}.

(** The debt left after the payments [xs], subtracted one after the other. *)
Definition debtAfter (debt : JS.number) (xs : list (string * JS.number)) : JS.number :=
  fold_left (fun r wx => JS.sub r (snd wx)) xs debt.

(** The runs of the [while] loop as a relation: the loop goes from frame
    [f] to frame [f'], where its condition fails. *)
Inductive loopRun (loser : Balance) : Frame -> Frame -> Prop :=
  | run_exit f :
      loopCondition f = false -> loopRun loser f f
  | run_step f winner f' :
      loopCondition f = true ->
      nth_error (winners (shared f)) (winnerIndex f) = Some winner ->
      loopRun loser (loopBody loser winner f) f' ->
      loopRun loser f f'.

(** What the loop does for one debtor: the creditors it pays, each with
    the amount paid before rounding, and the number of creditors it
    consults. *)
Definition Run : Type := (list (string * JS.number) * nat)%type.

Definition runTransfers (lr : Balance * Run) : list Payment :=
  map (transfer (fst lr)) (fst (snd lr)).

(** A run over creditors named [names]: every payment is strictly positive
    before rounding and goes to one of them, and the run ends with a debt
    that is not above 0.01 or with every creditor consulted. *)
Definition runOK (names : list string) (lr : Balance * Run) : Prop :=
  let '(loser, (xs, k)) := lr in
  Forall (fun wx => JS.gt (snd wx) JS.zero = true /\ In (fst wx) names) xs
  /\ (k <= List.length names)%nat
  /\ (JS.gt (debtAfter (JS.Math_abs (balance loser)) xs) JS.cent = false
      \/ k = List.length names).

(** Conservation, as the specification words it: what a debtor pays in
    all is its debt, and what a creditor receives in all is its credit, both
    within 0.01. *)
Definition conserves (ps : list Player) (ts : list Payment) : Prop :=
  forall p, In p ps ->
    (JS.lt (balanceOf p) JS.zero = true ->
     within_cent (sumFrom (name p) ts) (JS.Math_abs (balanceOf p)) = true)
    /\ (JS.gt (balanceOf p) JS.zero = true ->
        within_cent (sumTo (name p) ts) (balanceOf p) = true).

(** ** The settlement as turns of the debtors

    The settlement said in words, for comparison with [settle]: the debtors
    take turns in their order; in its turn a debtor goes along the creditors
    from the first one, for as long as the debt it has left is above 0.01,
    and pays each creditor the smaller of that debt and of the creditor's
    residual credit when this is above 0; the creditors' residual credits
    are those the turn before has left. *)

(** The payment a debtor with [debt] left makes to [creditor], if any. *)
Definition paymentTo (debt : JS.number) (creditor : Balance) : option JS.number :=
  let payment := JS.Math_min debt (balance creditor) in
  if JS.gt payment JS.zero then Some payment else None.

(** One turn: for each creditor consulted, in order from the first, the
    payment made to it ([None]: consulted and not paid), and the debt the
    debtor is left with. *)
Fixpoint turn (debt : JS.number) (creditors : list Balance)
    : list (option JS.number) * JS.number :=
  match creditors with
  | [] => ([], debt)
  | creditor :: rest =>
      if JS.gt debt JS.cent then
        match paymentTo debt creditor with
        | Some payment =>
            let '(made, rest_debt) := turn (JS.sub debt payment) rest in
            (Some payment :: made, rest_debt)
        | None =>
            let '(made, rest_debt) := turn debt rest in (None :: made, rest_debt)
        end
      else ([], debt)
  end.

Definition receive (creditor : Balance) (pay : option JS.number) : Balance :=
  match pay with
  | Some payment =>
      {| b_name := b_name creditor; balance := JS.sub (balance creditor) payment |}
  | None => creditor
  end.

(** The creditors once the payments [made] are taken off their credits,
    each creditor at its place. *)
Fixpoint residuals (creditors : list Balance) (made : list (option JS.number))
    : list Balance :=
  match creditors, made with
  | creditor :: rest, pay :: made' => receive creditor pay :: residuals rest made'
  | _, _ => creditors
  end.

(** The creditors paid, each with the payment before rounding. *)
Fixpoint paidTo (creditors : list Balance) (made : list (option JS.number))
    : list (string * JS.number) :=
  match creditors, made with
  | creditor :: rest, Some payment :: made' =>
      (b_name creditor, payment) :: paidTo rest made'
  | _ :: rest, None :: made' => paidTo rest made'
  | _, _ => []
  end.

Record Turn : Type :=
  { debtor : Balance;
    creditorsBefore : list Balance;
    pays : list (option JS.number);
    debtLeft : JS.number }.

Definition creditorsAfter (t : Turn) : list Balance :=
  residuals (creditorsBefore t) (pays t).

Definition paidIn (t : Turn) : list (string * JS.number) :=
  paidTo (creditorsBefore t) (pays t).

Definition recordedIn (t : Turn) : list Payment := map (transfer (debtor t)) (paidIn t).

(** The creditor indices consulted in a turn: 0, 1, ..., k-1. *)
Definition consultedIn (t : Turn) : list nat := seq 0 (List.length (pays t)).

(** The turn of debtor [d], who owes [|balance|], along [creditors]. *)
Definition turnOf (d : Balance) (creditors : list Balance) : Turn :=
  {| debtor := d; creditorsBefore := creditors;
     pays := fst (turn (JS.Math_abs (balance d)) creditors);
     debtLeft := snd (turn (JS.Math_abs (balance d)) creditors) |}.

(** The turns of [debtors], the first of them starting from [creditors]
    and each of the others from the creditors the turn before has left. *)
Fixpoint turns (debtors creditors : list Balance) : list Turn :=
  match debtors with
  | [] => []
  | d :: rest =>
      let t := turnOf d creditors in t :: turns rest (creditorsAfter t)
  end.

(** Every turn starts from the creditors as the turn before left them. *)
Fixpoint carriedOver (start : list Balance) (ts : list Turn) : Prop :=
  match ts with
  | [] => True
  | t :: rest => creditorsBefore t = start /\ carriedOver (creditorsAfter t) rest
  end.

(** The creditors after the last turn. *)
Definition creditsAfter (creditors : list Balance) (ts : list Turn) : list Balance :=
  fold_left (fun _ t => creditorsAfter t) ts creditors.

(** The payments made to the creditor at index [i], in order. *)
Definition receivedAt (i : nat) (ts : list Turn) : list JS.number :=
  flat_map (fun t => match nth_error (pays t) i with
                     | Some (Some payment) => [payment]
                     | _ => []
                     end) ts.

(** The debt left before the creditor at index [i] is consulted. *)
Definition debtBefore (i : nat) (t : Turn) : JS.number :=
  debtAfter (JS.Math_abs (balance (debtor t)))
            (paidTo (firstn i (creditorsBefore t)) (firstn i (pays t))).

(** A creditor with no residual credit above 0. *)
Definition exhausted (creditor : Balance) : Prop :=
  JS.gt (balance creditor) JS.zero = false.

(** What a turn settles.  The debt left is the debt less the payments,
    subtracted in order.  Every payment is above 0 and is the smaller of the
    debt left at that point and of the creditor's residual credit, so it
    exceeds neither.  And the turn ends with a debt that is not above 0.01,
    or with no creditor that has a credit above 0. *)
Definition paidDown (t : Turn) : Prop :=
  debtLeft t = debtAfter (JS.Math_abs (balance (debtor t))) (paidIn t)
  /\ (forall i c x,
        nth_error (creditorsBefore t) i = Some c ->
        nth_error (pays t) i = Some (Some x) ->
        JS.gt x JS.zero = true
        /\ x = JS.Math_min (debtBefore i t) (balance c)
        /\ JS.gt x (debtBefore i t) = false
        /\ JS.gt x (balance c) = false)
  /\ (JS.gt (debtLeft t) JS.cent = false \/ Forall exhausted (creditorsAfter t)).

(** [n] is an integer nearest to [100 * m * 2^e]: [n/100] is the payment
    [m * 2^e] to within half a cent. *)
Definition nearestHundredth (n : Z) (m : positive) (e : Z) : Prop :=
  match e with
  | Zneg k => Z.abs (2 ^ (Zpos k + 1) * n - 200 * Zpos m) <= 2 ^ Zpos k
  | _ => n = 100 * Zpos m * 2 ^ e
  end.

(** How a payment [x] above 0 is recorded: as the number written [n/100]
    for an integer [n] nearest to [100 * x]; a payment of 1e21 or more, or
    Infinity, as it is. *)
Definition recordedAs (x a : JS.number) : Prop :=
  match x with
  | S754_finite false m e =>
      if Fixed.at_least_1e21 m e then a = x
      else exists n, a = JS.of_decimal false n (-2) /\ nearestHundredth n m e
  | _ => a = x
  end.

(** ** Sessions in whole numbers *)

(** The sum of a list of whole numbers. *)
Definition sumZ (l : list Z) : Z := fold_right Z.add 0%Z l.

(** The buy-in and the cash-out of every entry are whole numbers, those of
    [amounts], and all of them together are below 2^53. *)
Definition wholeNumbers (ps : list Player) (amounts : list (Z * Z)) : Prop :=
  Forall2 (fun p bc => Str.parseFloat (buyIn p) = JS.of_Z (fst bc)
                       /\ Str.parseFloat (cashOut p) = JS.of_Z (snd bc)
                       /\ (0 <= fst bc)%Z /\ (0 <= snd bc)%Z) ps amounts
  /\ (sumZ (map fst amounts) + sumZ (map snd amounts) < 2 ^ 53)%Z.

(** ** The rest of the new-game screen *)

Definition emptyPlayer : Player := {| name := ""; buyIn := ""; cashOut := "" |}.

(** The state the screen starts with: two entries to fill in. *)
Definition initialPlayers : list Player := [emptyPlayer; emptyPlayer].

Definition addPlayer (ps : list Player) : list Player := ps ++ [emptyPlayer].

(** [keyof Player]. *)
Inductive Field : Type := FName | FBuyIn | FCashOut.

(** [{ ...player, [field]: value }]. *)
Definition withField (player : Player) (field : Field) (value : string) : Player :=
  match field with
  | FName => {| name := value; buyIn := buyIn player; cashOut := cashOut player |}
  | FBuyIn => {| name := name player; buyIn := value; cashOut := cashOut player |}
  | FCashOut => {| name := name player; buyIn := buyIn player; cashOut := value |}
  end.

Definition fieldOf (player : Player) (field : Field) : string :=
  match field with
  | FName => name player
  | FBuyIn => buyIn player
  | FCashOut => cashOut player
  end.

(** [updatePlayer]: a copy of the array with the entry at [index]
    replaced.  The screen calls it with the index of an entry it shows; at
    an index past the end the source makes an object that has only the one
    field, which is no [Player], and the model gives [None]. *)
Definition updatePlayer (index : nat) (field : Field) (value : string)
    (ps : list Player) : option (list Player) :=
  match nth_error ps index with
  | Some player => Some (Arr.set ps index (withField player field value))
  | None => None
  end.

(** ** The game-details screen (app/gamedetails.tsx) *)

Module Details.

(** What [AsyncStorage.getItem('pokerGames')] and [JSON.parse] give: an
    exception, nothing stored (null or the empty string), or the games. *)
Inductive Stored : Type :=
  | ReadFails
  | NoItem
  | Games (games : list GameWithPayments).

Inductive Effect : Type :=
  | SetGame (g : GameWithPayments)
  | ConsoleError (message : string)
  | Alert (title message : string)
  | SetItem (key : string) (games : list GameWithPayments)
  | RouterPush (path : string).

(** [loadGameDetails], for the [id] of the route. *)
Definition loadGameDetails (stored : Stored) (wanted : string) : list Effect :=
  match stored with
  | ReadFails => [ConsoleError "Error loading game details:"]
  | NoItem => []
  | Games games =>
      match find (fun g => id g =? wanted) games with
      | Some foundGame => [SetGame foundGame]
      | None => []
      end
  end.

(** The two buttons of the confirmation dialog. *)
Inductive Choice : Type := Cancel | Delete.

Definition failedToDelete : list Effect :=
  [ConsoleError "Error deleting game:"; Alert "Error" "Failed to delete game"].

(** [deleteGame], once the dialog is answered. *)
Definition deleteGame (stored : Stored) (setItemSucceeds : bool) (wanted : string)
    (choice : Choice) : list Effect :=
  match choice with
  | Cancel => []
  | Delete =>
      match stored with
      | ReadFails => failedToDelete
      | NoItem => []
      | Games games =>
          let updatedGames := filter (fun g => negb (id g =? wanted)) games in
          if setItemSucceeds
          then [SetItem "pokerGames" updatedGames; RouterPush "/"]
          else failedToDelete
      end
  end.

Definition calculateProfit (player : Player) : JS.number :=
  JS.sub (Str.parseFloat (cashOut player)) (Str.parseFloat (buyIn player)).

(** [game?.players.slice().sort(...) || []].  When no profit is NaN the
    comparator orders the players consistently and the result is the stable
    sorted arrangement [Arr.sort] computes.  With a NaN profit the
    comparator is not consistent and the order is left to the engine: the
    definition then gives one arrangement of the same players, which need
    not be the engine's. *)
Definition sortedPlayers (game : option GameWithPayments) : list Player :=
  match game with
  | Some g =>
      Arr.sort (fun a b => JS.sub (calculateProfit b) (calculateProfit a)) (players g)
  | None => []
  end.

End Details.

(** ** The home screen (app/index.tsx) *)

Module Home.

(** [renderItem]: the numbers shown for a stored game. *)
Definition totalPlayers (item : GameWithPayments) : nat := List.length (players item).

Definition totalMoney (item : GameWithPayments) : JS.number :=
  JS.or_zero
    (fold_left (fun sum player => JS.add sum (JS.or_zero (Str.parseFloat (buyIn player))))
               (players item) JS.zero).

Definition paymentCount (item : GameWithPayments) : nat := List.length (payments item).

End Home.

(** The games last given to [AsyncStorage.setItem] by the effects [es].
    They are what a later [getItem] and [JSON.parse] give when JSON keeps
    every amount written (see [readBackAfter]). *)
Definition storedAfter (before : Details.Stored) (es : list Effect) : Details.Stored :=
  fold_left (fun st e => match e with SetItem _ games => Details.Games games | _ => st end)
            es before.

(** [JSON.stringify] writes a number that is not finite as [null] and -0
    as [0]; every other number, and every string, is read back by
    [JSON.parse] as it was written. *)
Definition jsonKeepsNumber (x : JS.number) : bool :=
  match x with
  | S754_finite _ _ _ | S754_zero false => true
  | _ => false
  end.

Definition jsonKeeps (g : GameWithPayments) : bool :=
  forallb (fun t => jsonKeepsNumber (amount t)) (payments g).

(** What [getItem] and [JSON.parse] give once the effects [es] of
    [saveGame] have happened: the games written, when JSON keeps all their
    amounts; otherwise what is read back has [null] for an amount and is no
    list of games of this model ([None]). *)
Definition readBackAfter (before : Details.Stored) (es : list Effect)
    : option Details.Stored :=
  fold_left (fun st e =>
               match e with
               | SetItem _ games =>
                   if forallb jsonKeeps games then Some (Details.Games games) else None
               | _ => st
               end)
            es (Some before).

(** What [saveGame] reads of the storage: nothing stored reads as no game. *)
Definition readBy (stored : Details.Stored) : option (list GameWithPayments) :=
  match stored with
  | Details.ReadFails => None
  | Details.NoItem => Some []
  | Details.Games games => Some games
  end.

(** * Properties *)

(** ** Strings *)

Lemma isWhiteSpace_lowerChar (c : ascii) :
  Str.isWhiteSpace (Str.lowerChar c) = Str.isWhiteSpace c.
Proof.
  destruct c as [[] [] [] [] [] [] [] []]; vm_compute; reflexivity.
Qed.

Lemma trimStart_toLowerCase (s : string) :
  Str.trimStart (Str.toLowerCase s) = Str.toLowerCase (Str.trimStart s).
Proof.
  induction s as [|c r IH]; simpl; [reflexivity|].
  rewrite isWhiteSpace_lowerChar.
  destruct (Str.isWhiteSpace c); [exact IH | reflexivity].
Qed.

Lemma trimEnd_toLowerCase (s : string) :
  Str.trimEnd (Str.toLowerCase s) = Str.toLowerCase (Str.trimEnd s).
Proof.
  induction s as [|c r IH]; simpl; [reflexivity|].
  rewrite IH, isWhiteSpace_lowerChar.
  destruct (Str.trimEnd r); simpl; [|reflexivity].
  destruct (Str.isWhiteSpace c); reflexivity.
Qed.

(** Lower-casing and trimming commute. *)
Lemma trim_toLowerCase (s : string) :
  Str.trim (Str.toLowerCase s) = Str.toLowerCase (Str.trim s).
Proof.
  unfold Str.trim. now rewrite trimStart_toLowerCase, trimEnd_toLowerCase.
Qed.

(** ** Sets of names *)

Section Distinct.
Context {A : Type}.
Variable eq_dec : forall x y : A, {x = y} + {x <> y}.

Lemma nodup_length_le (l : list A) :
  (List.length (nodup eq_dec l) <= List.length l)%nat.
Proof.
  induction l as [|x l IH]; simpl; [lia|].
  destruct (in_dec eq_dec x l); simpl; lia.
Qed.

(** The set built from a list has as many elements as the list exactly
    when the list has no repetition. *)
Lemma nodup_length_NoDup (l : list A) :
  List.length (nodup eq_dec l) = List.length l <-> NoDup l.
Proof.
  split.
  - induction l as [|x l IH]; simpl; intros H; [constructor|].
    destruct (in_dec eq_dec x l) as [Hin|Hin].
    + pose proof (nodup_length_le l). lia.
    + simpl in H. constructor; [exact Hin | apply IH; lia].
  - intros H. now rewrite (nodup_fixed_point eq_dec H).
Qed.

(** Two positions of [l] hold the same element. *)
Definition repeats (l : list A) : Prop :=
  exists i j x, (i < j)%nat /\ nth_error l i = Some x /\ nth_error l j = Some x.

Lemma NoDup_or_repeats (l : list A) : NoDup l \/ repeats l.
Proof.
  induction l as [|x l [IH|IH]].
  - left. constructor.
  - destruct (in_dec eq_dec x l) as [Hin|Hin].
    + right. apply In_nth_error in Hin. destruct Hin as [j Hj].
      exists 0%nat, (S j), x. repeat split; [lia | exact Hj].
    + left. now constructor.
  - right. destruct IH as (i & j & y & Hij & Hi & Hj).
    exists (S i), (S j), y. repeat split; [lia | exact Hi | exact Hj].
Qed.

Lemma repeats_not_NoDup (l : list A) : repeats l -> ~ NoDup l.
Proof.
  intros (i & j & x & Hij & Hi & Hj) Hnd.
  rewrite NoDup_nth_error in Hnd.
  assert (i = j); [|lia].
  apply Hnd; [|congruence].
  apply nth_error_Some. congruence.
Qed.

Lemma NoDup_map_injective {B : Type} (f : B -> A) (l : list B) (x y : B) :
  NoDup (map f l) -> In x l -> In y l -> f x = f y -> x = y.
Proof.
  induction l as [|a l IH]; simpl; [tauto|].
  intros Hnd Hx Hy Hxy. inversion Hnd as [|? ? Hnotin Hnd']; subst.
  destruct Hx as [->|Hx], Hy as [->|Hy]; auto.
  - exfalso. apply Hnotin. rewrite Hxy. now apply in_map.
  - exfalso. apply Hnotin. rewrite <- Hxy. now apply in_map.
Qed.

End Distinct.

Lemma hasDuplicateNames_false_NoDup (ps : list Player) :
  hasDuplicateNames ps = false <-> NoDup (normalizedNames ps).
Proof.
  unfold hasDuplicateNames. rewrite negb_false_iff, Nat.eqb_eq.
  apply nodup_length_NoDup.
Qed.

Lemma hasDuplicateNames_true_repeats (ps : list Player) :
  hasDuplicateNames ps = true <-> repeats (normalizedNames ps).
Proof.
  split.
  - intros H. destruct (NoDup_or_repeats string_dec (normalizedNames ps)) as [Hnd|Hr];
      [|exact Hr].
    apply hasDuplicateNames_false_NoDup in Hnd. congruence.
  - intros Hr. destruct (hasDuplicateNames ps) eqn:E; [reflexivity|].
    apply hasDuplicateNames_false_NoDup in E.
    exfalso. exact (repeats_not_NoDup _ Hr E).
Qed.

(** Two entries at different positions whose names are equal once trimmed
    and lower-cased. *)
Definition sameNameTwice (ps : list Player) : Prop :=
  exists i j p q,
    i <> j /\ nth_error ps i = Some p /\ nth_error ps j = Some q
    /\ Str.toLowerCase (Str.trim (name p)) = Str.toLowerCase (Str.trim (name q)).

Lemma repeats_sameNameTwice (ps : list Player) :
  repeats (normalizedNames ps) <-> sameNameTwice ps.
Proof.
  unfold repeats, sameNameTwice, normalizedNames. split.
  - intros (i & j & x & Hij & Hi & Hj).
    rewrite nth_error_map in Hi, Hj.
    destruct (nth_error ps i) as [p|] eqn:Ep; [|discriminate].
    destruct (nth_error ps j) as [q|] eqn:Eq; [|discriminate].
    simpl in Hi, Hj. exists i, j, p, q.
    split; [lia|]. split; [exact Ep|]. split; [exact Eq|].
    rewrite <- !trim_toLowerCase. congruence.
  - intros (i & j & p & q & Hij & Hi & Hj & E).
    rewrite <- !trim_toLowerCase in E.
    destruct (Nat.lt_total i j) as [Hlt|[Heq|Hgt]]; [|contradiction|].
    + exists i, j, (Str.trim (Str.toLowerCase (name p))).
      rewrite !nth_error_map, Hi, Hj. simpl.
      split; [exact Hlt|]. split; [reflexivity | now rewrite E].
    + exists j, i, (Str.trim (Str.toLowerCase (name p))).
      rewrite !nth_error_map, Hi, Hj. simpl.
      split; [exact Hgt|]. split; [now rewrite E | reflexivity].
Qed.

(** On names of code units below U+0100, as [saveGame] is modelled with:
    the check reports duplicates exactly when two entries have names that
    are equal after trimming and lower-casing, and lower-casing and
    trimming commute. *)
Lemma hasDuplicateNames_iff_sameNameTwice (ps : list Player) :
  (hasDuplicateNames ps = true <-> sameNameTwice ps)
  /\ (forall s, Str.trim (Str.toLowerCase s) = Str.toLowerCase (Str.trim s))
  /\ (forall i j p q,
        i <> j -> nth_error ps i = Some p -> nth_error ps j = Some q ->
        name p = "Alice" -> name q = "alice " ->
        hasDuplicateNames ps = true).
Proof.
  assert (H : hasDuplicateNames ps = true <-> sameNameTwice ps).
  { rewrite hasDuplicateNames_true_repeats. apply repeats_sameNameTwice. }
  split; [exact H|]. split; [exact trim_toLowerCase|].
  intros i j p q Hij Hi Hj Hp Hq. apply H.
  exists i, j, p, q. repeat split; try assumption.
  rewrite Hp, Hq. reflexivity.
Qed.

(** ** Names over all of UTF-16 *)

Section Utf16Names.
Local Open Scope Z_scope.

(** The code units [trim] removes. *)
Definition whiteSpaces : list Z :=
  [ 0x9; 0xA; 0xB; 0xC; 0xD; 0x20; 0xA0; 0x1680; 0x2000; 0x2001; 0x2002; 0x2003;
    0x2004; 0x2005; 0x2006; 0x2007; 0x2008; 0x2009; 0x200A; 0x2028; 0x2029;
    0x202F; 0x205F; 0x3000; 0xFEFF ].

Lemma isWhiteSpace_In (w : Z) : U16.isWhiteSpace w = true -> In w whiteSpaces.
Proof.
  unfold U16.isWhiteSpace.
  rewrite !orb_true_iff, !andb_true_iff, !Z.leb_le, !Z.eqb_eq.
  unfold whiteSpaces. simpl In. lia.
Qed.

(** A white-space code unit is no surrogate and is written back as itself;
    as a code point it is not cased and has no lower-case mapping. *)
Definition plain (w : Z) : bool :=
  negb (U16.isLeadingSurrogate w) && negb (U16.isTrailingSurrogate w)
  && negb (Unicode.Cased w) && (Unicode.Simple_Lowercase_Mapping w =? w)
  && negb (w =? 0x3A3) && negb (w =? 0x130) && (w <? 0x10000).

Lemma whiteSpace_plain (w : Z) : U16.isWhiteSpace w = true -> plain w = true.
Proof.
  intros H. apply isWhiteSpace_In in H.
  assert (A : forallb plain whiteSpaces = true) by (vm_compute; reflexivity).
  rewrite forallb_forall in A. now apply A.
Qed.

Ltac plain_of H :=
  apply whiteSpace_plain in H; unfold plain in H;
  repeat (apply andb_true_iff in H; destruct H as [H ?]).

Lemma whiteSpace_toLowercaseAt (before after : list Z) (w : Z) :
  U16.isWhiteSpace w = true -> U16.toLowercaseAt before w after = [w].
Proof.
  intros H. plain_of H. unfold U16.toLowercaseAt.
  rewrite negb_true_iff in *.
  match goal with E : (w =? 0x3A3) = false |- _ => rewrite E end.
  match goal with E : (w =? 0x130) = false |- _ => rewrite E end.
  match goal with E : (_ =? w) = true |- _ => apply Z.eqb_eq in E; rewrite E end.
  reflexivity.
Qed.

Lemma whiteSpace_not_Cased (w : Z) :
  U16.isWhiteSpace w = true -> Unicode.Cased w = false.
Proof. intros H. plain_of H. now rewrite negb_true_iff in *. Qed.

Lemma whiteSpace_not_leading (w : Z) :
  U16.isWhiteSpace w = true -> U16.isLeadingSurrogate w = false.
Proof. intros H. plain_of H. now rewrite negb_true_iff in *. Qed.

Lemma whiteSpace_not_trailing (w : Z) :
  U16.isWhiteSpace w = true -> U16.isTrailingSurrogate w = false.
Proof. intros H. plain_of H. now rewrite negb_true_iff in *. Qed.

Lemma whiteSpace_encode (w : Z) :
  U16.isWhiteSpace w = true -> U16.UTF16EncodeCodePoint w = [w].
Proof.
  intros H. plain_of H. unfold U16.UTF16EncodeCodePoint.
  match goal with E : (w <? _) = true |- _ => apply Z.ltb_lt in E end.
  destruct (0x10000 <=? w) eqn:E; [apply Z.leb_le in E; lia | reflexivity].
Qed.

Definition blank (W : list Z) : Prop := Forall (fun w => U16.isWhiteSpace w = true) W.

Definition inked (l : list Z) : Prop := Forall (fun u => U16.isWhiteSpace u = false) l.

(** *** The context of a sigma *)

Lemma reachesCased_blank (W : list Z) : blank W -> U16.reachesCased W = false.
Proof.
  induction 1 as [|w W Hw _ IH]; simpl; [reflexivity|].
  rewrite (whiteSpace_not_Cased w Hw), IH. now destruct (Unicode.Case_Ignorable w).
Qed.

Lemma reachesCased_app_blank (l W : list Z) :
  blank W -> U16.reachesCased (l ++ W) = U16.reachesCased l.
Proof.
  intros HW. induction l as [|c l IH]; simpl; [now apply reachesCased_blank|].
  now rewrite IH.
Qed.

Lemma toLowercaseAt_blank_after (before after W : list Z) (c : Z) :
  blank W -> U16.toLowercaseAt before c (after ++ W) = U16.toLowercaseAt before c after.
Proof.
  intros HW. unfold U16.toLowercaseAt, U16.Final_Sigma.
  now rewrite reachesCased_app_blank.
Qed.

Lemma toLowercaseAt_blank_before (before after W : list Z) (c : Z) :
  blank W -> U16.toLowercaseAt (before ++ W) c after = U16.toLowercaseAt before c after.
Proof.
  intros HW. unfold U16.toLowercaseAt, U16.Final_Sigma.
  now rewrite reachesCased_app_blank.
Qed.

Lemma toLowercaseFrom_blank (before W : list Z) :
  blank W -> U16.toLowercaseFrom before W = W.
Proof.
  intros HW. revert before. induction HW as [|w W Hw _ IH]; intros before; simpl;
    [reflexivity|].
  now rewrite whiteSpace_toLowercaseAt, IH.
Qed.

Lemma toLowercaseFrom_blank_after (before l W : list Z) :
  blank W -> U16.toLowercaseFrom before (l ++ W) = U16.toLowercaseFrom before l ++ W.
Proof.
  intros HW. revert before. induction l as [|c l IH]; intros before; simpl.
  - now apply toLowercaseFrom_blank.
  - now rewrite toLowercaseAt_blank_after, IH, app_assoc.
Qed.

Lemma toLowercaseFrom_blank_before (before l W : list Z) :
  blank W -> U16.toLowercaseFrom (before ++ W) l = U16.toLowercaseFrom before l.
Proof.
  intros HW. revert before. induction l as [|c l IH]; intros before; simpl; [reflexivity|].
  rewrite toLowercaseAt_blank_before by assumption.
  change (c :: before ++ W) with ((c :: before) ++ W). now rewrite IH.
Qed.

Lemma toLowercaseFrom_blank_prefix (W l : list Z) :
  blank W -> forall before,
  U16.toLowercaseFrom before (W ++ l) = W ++ U16.toLowercaseFrom (rev W ++ before) l.
Proof.
  induction 1 as [|w W Hw _ IH]; intros before; simpl; [reflexivity|].
  rewrite whiteSpace_toLowercaseAt by assumption. simpl.
  now rewrite IH, <- app_assoc.
Qed.

Lemma blank_rev (W : list Z) : blank W -> blank (rev W).
Proof. unfold blank. rewrite !Forall_forall. intros H w Hw. apply H. now apply in_rev. Qed.

(** Lower-casing the code points leaves white space at both ends as it is,
    and what is between is lower-cased as if it stood alone. *)
Lemma toLowercase_blank_ends (W1 l W2 : list Z) :
  blank W1 -> blank W2 ->
  U16.toLowercaseFrom [] (W1 ++ l ++ W2) = W1 ++ U16.toLowercaseFrom [] l ++ W2.
Proof.
  intros H1 H2. rewrite toLowercaseFrom_blank_prefix by assumption.
  rewrite app_nil_r.
  rewrite (toLowercaseFrom_blank_before [] _ (rev W1)) by now apply blank_rev.
  now rewrite toLowercaseFrom_blank_after.
Qed.

(** *** Code units and code points *)

Lemma decode_cons_plain (u : Z) (s : list Z) :
  U16.isLeadingSurrogate u = false ->
  U16.StringToCodePoints (u :: s) = u :: U16.StringToCodePoints s.
Proof. intros H. destruct s; simpl; [reflexivity | now rewrite H]. Qed.

Lemma decode_blank (W : list Z) : blank W -> U16.StringToCodePoints W = W.
Proof.
  induction 1 as [|w W Hw _ IH]; [reflexivity|].
  rewrite decode_cons_plain by now apply whiteSpace_not_leading. now rewrite IH.
Qed.

Lemma decode_blank_prefix (W s : list Z) :
  blank W -> U16.StringToCodePoints (W ++ s) = W ++ U16.StringToCodePoints s.
Proof.
  induction 1 as [|w W Hw _ IH]; [reflexivity|]. simpl app.
  rewrite decode_cons_plain by now apply whiteSpace_not_leading. now rewrite IH.
Qed.

(** Induction on a list two elements at a time. *)
Lemma list_pair_ind {A : Type} (P : list A -> Prop) :
  P [] -> (forall x, P [x]) ->
  (forall x y l, P l -> P (y :: l) -> P (x :: y :: l)) ->
  forall l, P l.
Proof.
  intros H0 H1 H2 l.
  assert (H : P l /\ forall x, P (x :: l)); [|tauto].
  induction l as [|y l [IH1 IH2]]; split; auto.
Qed.

Lemma decode_app (s t : list Z) :
  match t with [] => True | v :: _ => U16.isTrailingSurrogate v = false end ->
  U16.StringToCodePoints (s ++ t) = U16.StringToCodePoints s ++ U16.StringToCodePoints t.
Proof.
  intros Ht. induction s as [| x | x y l IH1 IH2] using list_pair_ind.
  - reflexivity.
  - destruct t as [|v t]; [reflexivity|].
    change ([x] ++ v :: t) with (x :: v :: t).
    change (U16.StringToCodePoints [x]) with [x].
    cbn [U16.StringToCodePoints]. rewrite Ht, andb_false_r. reflexivity.
  - change ((x :: y :: l) ++ t) with (x :: y :: (l ++ t)).
    cbn [U16.StringToCodePoints] in *.
    destruct (U16.isLeadingSurrogate x && U16.isTrailingSurrogate y).
    + simpl. f_equal. exact IH1.
    + simpl. f_equal. exact IH2.
Qed.

Lemma decode_blank_suffix (s W : list Z) :
  blank W -> U16.StringToCodePoints (s ++ W) = U16.StringToCodePoints s ++ W.
Proof.
  intros HW. rewrite decode_app, (decode_blank W HW); [reflexivity|].
  destruct HW as [|w W Hw _]; [exact I | now apply whiteSpace_not_trailing].
Qed.

Lemma encode_app (a b : list Z) :
  U16.CodePointsToString (a ++ b) = U16.CodePointsToString a ++ U16.CodePointsToString b.
Proof. apply flat_map_app. Qed.

Lemma encode_blank (W : list Z) : blank W -> U16.CodePointsToString W = W.
Proof.
  induction 1 as [|w W Hw _ IH]; [reflexivity|].
  unfold U16.CodePointsToString in *. simpl.
  now rewrite whiteSpace_encode, IH.
Qed.

(** [toLowerCase] leaves white space at both ends as it is. *)
Lemma toLowerCase_blank_ends (W1 s W2 : list Z) :
  blank W1 -> blank W2 ->
  U16.toLowerCase (W1 ++ s ++ W2) = W1 ++ U16.toLowerCase s ++ W2.
Proof.
  intros H1 H2. unfold U16.toLowerCase.
  rewrite decode_blank_prefix, decode_blank_suffix by assumption.
  rewrite toLowercase_blank_ends by assumption.
  rewrite !encode_app, (encode_blank W1 H1), (encode_blank W2 H2). reflexivity.
Qed.

(** *** What is not white space stays so *)

(** No run of the lower-case table maps into white space. *)
Definition clearOfWhiteSpace (run : Z * Z * Z * Z) : bool :=
  let '(first, last, _, offset) := run in
  forallb (fun w => (w <? first + offset) || (last + offset <? w)) whiteSpaces.

Lemma Simple_Lowercase_Mapping_inked (c : Z) :
  U16.isWhiteSpace c = false ->
  U16.isWhiteSpace (Unicode.Simple_Lowercase_Mapping c) = false.
Proof.
  intros Hc. unfold Unicode.Simple_Lowercase_Mapping.
  destruct (find (Unicode.inRun c) Unicode.lowercaseRuns) as [[[[first last] step] offset]|] eqn:E;
    [|exact Hc].
  apply find_some in E. destruct E as [Hin Hrun].
  assert (A : forallb clearOfWhiteSpace Unicode.lowercaseRuns = true)
    by (vm_compute; reflexivity).
  rewrite forallb_forall in A. specialize (A _ Hin). cbn [clearOfWhiteSpace] in A.
  rewrite forallb_forall in A.
  destruct (U16.isWhiteSpace (c + offset)) eqn:Ew; [|reflexivity].
  specialize (A _ (isWhiteSpace_In _ Ew)).
  unfold Unicode.inRun in Hrun.
  rewrite !andb_true_iff, !Z.leb_le in Hrun.
  rewrite orb_true_iff, !Z.ltb_lt in A. lia.
Qed.

Lemma toLowercaseAt_inked (before after : list Z) (c : Z) :
  U16.isWhiteSpace c = false ->
  inked (U16.toLowercaseAt before c after) /\ U16.toLowercaseAt before c after <> [].
Proof.
  intros Hc. unfold U16.toLowercaseAt.
  destruct (c =? 0x3A3).
  - destruct (U16.Final_Sigma before after); split; try discriminate;
      repeat constructor.
  - destruct (c =? 0x130); split; try discriminate; repeat constructor.
    now apply Simple_Lowercase_Mapping_inked.
Qed.

Lemma encode_inked (c : Z) :
  U16.isWhiteSpace c = false ->
  inked (U16.UTF16EncodeCodePoint c) /\ U16.UTF16EncodeCodePoint c <> [].
Proof.
  intros Hc. unfold U16.UTF16EncodeCodePoint.
  destruct ((0x10000 <=? c) && (c <=? 0x10FFFF)) eqn:E;
    [|split; [repeat constructor; exact Hc | discriminate]].
  apply andb_true_iff in E. rewrite !Z.leb_le in E.
  split; [|discriminate].
  pose proof (Z.div_pos (c - 0x10000) 0x400 ltac:(lia) ltac:(lia)) as H1.
  pose proof (Z.mod_pos_bound (c - 0x10000) 0x400 ltac:(lia)) as H2.
  assert (H3 : (c - 0x10000) / 0x400 < 0x400)
    by (apply Z.div_lt_upper_bound; lia).
  repeat constructor.
  - destruct (U16.isWhiteSpace ((c - 0x10000) / 0x400 + 0xD800)) eqn:Ew; [|reflexivity].
    apply isWhiteSpace_In in Ew. unfold whiteSpaces in Ew. simpl In in Ew. lia.
  - destruct (U16.isWhiteSpace ((c - 0x10000) mod 0x400 + 0xDC00)) eqn:Ew; [|reflexivity].
    apply isWhiteSpace_In in Ew. unfold whiteSpaces in Ew. simpl In in Ew. lia.
Qed.

Lemma encode_all_inked (l : list Z) :
  inked l -> inked (U16.CodePointsToString l).
Proof.
  induction 1 as [|c l Hc _ IH]; [constructor|].
  unfold U16.CodePointsToString in *. simpl. apply Forall_app.
  split; [now apply encode_inked | exact IH].
Qed.

Lemma encode_not_nil (l : list Z) :
  inked l -> l <> [] -> U16.CodePointsToString l <> [].
Proof.
  intros Hl Hn. destruct Hl as [|c l Hc _]; [contradiction|].
  unfold U16.CodePointsToString. simpl.
  destruct (encode_inked c Hc) as [_ Hne].
  destruct (U16.UTF16EncodeCodePoint c); [contradiction | discriminate].
Qed.

(** A code point made of a surrogate pair is no white space. *)
Lemma pair_inked (u v : Z) :
  U16.isLeadingSurrogate u && U16.isTrailingSurrogate v = true ->
  U16.isWhiteSpace (U16.UTF16SurrogatePairToCodePoint u v) = false.
Proof.
  unfold U16.isLeadingSurrogate, U16.isTrailingSurrogate, U16.UTF16SurrogatePairToCodePoint.
  rewrite !andb_true_iff, !Z.leb_le. intros H.
  destruct (U16.isWhiteSpace _) eqn:Ew; [|reflexivity].
  apply isWhiteSpace_In in Ew. unfold whiteSpaces in Ew. simpl In in Ew. lia.
Qed.

(** A string that starts with a code unit that is no white space is
    lower-cased to a string that starts with such code units. *)
Lemma toLowerCase_starts_inked (u : Z) (r : list Z) :
  U16.isWhiteSpace u = false ->
  exists A B, U16.toLowerCase (u :: r) = A ++ B /\ inked A /\ A <> [].
Proof.
  intros Hu. unfold U16.toLowerCase.
  assert (H : exists c cs, U16.StringToCodePoints (u :: r) = c :: cs
                           /\ U16.isWhiteSpace c = false).
  { destruct r as [|v r']; [exists u, []; auto|]. cbn [U16.StringToCodePoints].
    destruct (U16.isLeadingSurrogate u && U16.isTrailingSurrogate v) eqn:E.
    - eexists. eexists. split; [reflexivity | now apply pair_inked].
    - eexists. eexists. split; [reflexivity | exact Hu]. }
  destruct H as (c & cs & -> & Hc). cbn [U16.toLowercaseFrom].
  rewrite encode_app.
  destruct (toLowercaseAt_inked [] cs c Hc) as [Hi Hn].
  exists (U16.CodePointsToString (U16.toLowercaseAt [] c cs)),
         (U16.CodePointsToString (U16.toLowercaseFrom [c] cs)).
  split; [reflexivity|]. split; [now apply encode_all_inked | now apply encode_not_nil].
Qed.

Lemma decode_two (u v : Z) (r : list Z) :
  U16.StringToCodePoints (u :: v :: r)
  = if U16.isLeadingSurrogate u && U16.isTrailingSurrogate v
    then U16.UTF16SurrogatePairToCodePoint u v :: U16.StringToCodePoints r
    else u :: U16.StringToCodePoints (v :: r).
Proof. reflexivity. Qed.

Lemma decode_snoc (r : list Z) (x : Z) :
  U16.isWhiteSpace x = false ->
  exists cs c, U16.StringToCodePoints (r ++ [x]) = cs ++ [c]
               /\ U16.isWhiteSpace c = false.
Proof.
  intros Hx. induction r as [| u | u v l IH1 IH2] using list_pair_ind.
  - exists [], x. auto.
  - change ([u] ++ [x]) with [u; x]. rewrite decode_two.
    destruct (U16.isLeadingSurrogate u && U16.isTrailingSurrogate x) eqn:E.
    + exists [], (U16.UTF16SurrogatePairToCodePoint u x).
      split; [reflexivity | now apply pair_inked].
    + exists [u], x. auto.
  - change ((u :: v :: l) ++ [x]) with (u :: v :: (l ++ [x])).
    rewrite decode_two.
    destruct (U16.isLeadingSurrogate u && U16.isTrailingSurrogate v).
    + destruct IH1 as (cs & c & -> & Hc).
      exists (U16.UTF16SurrogatePairToCodePoint u v :: cs), c. auto.
    + change (v :: l ++ [x]) with ((v :: l) ++ [x]).
      destruct IH2 as (cs & c & -> & Hc). exists (u :: cs), c. auto.
Qed.

Lemma toLowercaseFrom_snoc (cs : list Z) (c : Z) :
  forall before, exists M before',
    U16.toLowercaseFrom before (cs ++ [c]) = M ++ U16.toLowercaseAt before' c [].
Proof.
  induction cs as [|d cs IH]; intros before; simpl.
  - exists [], before. now rewrite app_nil_r.
  - destruct (IH (d :: before)) as (M & before' & ->).
    exists (U16.toLowercaseAt before d (cs ++ [c]) ++ M), before'.
    now rewrite app_assoc.
Qed.

(** And likewise at the end. *)
Lemma toLowerCase_ends_inked (r : list Z) (x : Z) :
  U16.isWhiteSpace x = false ->
  exists B A, U16.toLowerCase (r ++ [x]) = B ++ A /\ inked A /\ A <> [].
Proof.
  intros Hx. unfold U16.toLowerCase.
  destruct (decode_snoc r x Hx) as (cs & c & -> & Hc).
  destruct (toLowercaseFrom_snoc cs c []) as (M & before' & ->).
  rewrite encode_app.
  destruct (toLowercaseAt_inked before' [] c Hc) as [Hi Hn].
  exists (U16.CodePointsToString M),
         (U16.CodePointsToString (U16.toLowercaseAt before' c [])).
  split; [reflexivity|]. split; [now apply encode_all_inked | now apply encode_not_nil].
Qed.

(** *** trim *)

Lemma trimStart_blank (W s : list Z) : blank W -> U16.trimStart (W ++ s) = U16.trimStart s.
Proof. induction 1 as [|w W Hw _ IH]; simpl; [reflexivity | now rewrite Hw]. Qed.

Lemma trimStart_inked (A B : list Z) :
  inked A -> A <> [] -> U16.trimStart (A ++ B) = A ++ B.
Proof.
  intros HA Hn. destruct HA as [|u A Hu _]; [contradiction|]. simpl. now rewrite Hu.
Qed.

Lemma trimEnd_blank (W : list Z) : blank W -> U16.trimEnd W = [].
Proof. induction 1 as [|w W Hw _ IH]; simpl; [reflexivity | now rewrite IH, Hw]. Qed.

Lemma trimEnd_app_blank (s W : list Z) : blank W -> U16.trimEnd (s ++ W) = U16.trimEnd s.
Proof.
  intros HW. induction s as [|u s IH]; simpl; [now apply trimEnd_blank | now rewrite IH].
Qed.

Lemma trimEnd_inked (B A : list Z) :
  inked A -> A <> [] -> U16.trimEnd (B ++ A) = B ++ A.
Proof.
  intros HA Hn. induction B as [|u B IH]; simpl.
  - clear Hn. induction HA as [|a A Ha _ IH]; [reflexivity|]. simpl.
    rewrite IH, Ha. now destruct A.
  - rewrite IH. destruct (B ++ A) eqn:E; [|reflexivity].
    apply app_eq_nil in E. destruct E as [_ E]. contradiction.
Qed.

(** A string is white space, then its trimmed form, then white space; and
    the trimmed form is empty or has code units that are no white space at
    both ends. *)
Lemma trimStart_split (s : list Z) :
  exists W, blank W /\ s = W ++ U16.trimStart s
            /\ (U16.trimStart s = []
                \/ exists u r, U16.trimStart s = u :: r /\ U16.isWhiteSpace u = false).
Proof.
  induction s as [|u s (W & HW & Hs & Ht)]; [exists []; repeat split; auto; constructor|].
  simpl. destruct (U16.isWhiteSpace u) eqn:Eu.
  - exists (u :: W). split; [now constructor|]. split; [simpl; now rewrite <- Hs | exact Ht].
  - exists []. split; [constructor|]. split; [reflexivity|]. right. exists u, s. auto.
Qed.

Lemma trimEnd_split (s : list Z) :
  exists W, blank W /\ s = U16.trimEnd s ++ W
            /\ (U16.trimEnd s = []
                \/ exists r x, U16.trimEnd s = r ++ [x] /\ U16.isWhiteSpace x = false).
Proof.
  induction s as [|u s (W & HW & Hs & Ht)]; [exists []; repeat split; auto; constructor|].
  simpl. destruct (U16.trimEnd s) as [|y t] eqn:E.
  - simpl in Hs. subst s. destruct (U16.isWhiteSpace u) eqn:Eu.
    + exists (u :: W). split; [now constructor|]. split; [reflexivity | now left].
    + exists W. split; [exact HW|]. split; [reflexivity|]. right. exists [], u. auto.
  - exists W. split; [exact HW|]. split; [simpl; f_equal; exact Hs|]. right.
    destruct Ht as [Ht|(r & x & Ht & Hx)]; [discriminate|].
    exists (u :: r), x. split; [simpl; now rewrite <- Ht | exact Hx].
Qed.

Lemma trimEnd_head (u : Z) (r : list Z) :
  U16.isWhiteSpace u = false -> exists r', U16.trimEnd (u :: r) = u :: r'.
Proof.
  intros Hu. simpl. destruct (U16.trimEnd r) as [|y t]; rewrite ?Hu; eauto.
Qed.

(** Lower-casing and trimming commute, on every string. *)
Lemma trim_toLowerCase_utf16 (s : list Z) :
  U16.trim (U16.toLowerCase s) = U16.toLowerCase (U16.trim s).
Proof.
  destruct (trimStart_split s) as (W1 & HW1 & Hs1 & Hhead).
  destruct (trimEnd_split (U16.trimStart s)) as (W2 & HW2 & Hs2 & Hlast).
  fold (U16.trim s) in Hs2, Hlast.
  assert (Hs : s = W1 ++ U16.trim s ++ W2) by (rewrite <- Hs2; exact Hs1).
  rewrite Hs at 1. rewrite toLowerCase_blank_ends by assumption.
  unfold U16.trim at 1. rewrite trimStart_blank by assumption.
  destruct Hlast as [E|(r & x & E & Hx)].
  - rewrite E. change (U16.toLowerCase []) with (@nil Z). simpl.
    rewrite trimEnd_blank; [reflexivity|].
    clear - HW2. induction HW2 as [|w W Hw _ IH]; simpl; [constructor|].
    rewrite Hw. exact IH.
  - assert (Hh : exists u r', U16.trim s = u :: r' /\ U16.isWhiteSpace u = false).
    { destruct Hhead as [E0|(u & r0 & E0 & Hu)].
      - unfold U16.trim in E. rewrite E0 in E. destruct r; discriminate.
      - unfold U16.trim. rewrite E0.
        destruct (trimEnd_head u r0 Hu) as (r' & ->). eauto. }
    destruct Hh as (u & r' & Eh & Hu).
    destruct (toLowerCase_starts_inked u r' Hu) as (A & B & EA & HA & HAn).
    destruct (toLowerCase_ends_inked r x Hx) as (B' & A' & EA' & HA' & HAn').
    rewrite <- Eh in EA. rewrite <- E in EA'.
    rewrite EA at 1. rewrite <- app_assoc, trimStart_inked by assumption.
    rewrite app_assoc, <- EA, trimEnd_app_blank by assumption.
    rewrite EA' at 1. rewrite trimEnd_inked by assumption. now rewrite <- EA'.
Qed.

(** *** Names with code units below U+0100 *)

Lemma toLowercaseAt_code (before after : list Z) (c : ascii) :
  U16.toLowercaseAt before (Str.code c) after = [Str.code (Str.lowerChar c)].
Proof.
  destruct c as [[] [] [] [] [] [] [] []]; vm_compute; reflexivity.
Qed.

Lemma isWhiteSpace_code (c : ascii) :
  U16.isWhiteSpace (Str.code c) = Str.isWhiteSpace c.
Proof.
  destruct c as [[] [] [] [] [] [] [] []]; vm_compute; reflexivity.
Qed.

Lemma isLeadingSurrogate_code (c : ascii) :
  U16.isLeadingSurrogate (Str.code c) = false.
Proof.
  destruct c as [[] [] [] [] [] [] [] []]; vm_compute; reflexivity.
Qed.

Lemma encode_code (c : ascii) : U16.UTF16EncodeCodePoint (Str.code c) = [Str.code c].
Proof.
  destruct c as [[] [] [] [] [] [] [] []]; vm_compute; reflexivity.
Qed.

Lemma code_injective (c d : ascii) : Str.code c = Str.code d -> c = d.
Proof.
  unfold Str.code. intros H. apply N2Z.inj in H.
  rewrite <- (ascii_N_embedding c), <- (ascii_N_embedding d). now rewrite H.
Qed.

Lemma ofString_injective (s t : string) : U16.ofString s = U16.ofString t -> s = t.
Proof.
  unfold U16.ofString. revert t. induction s as [|c s IH]; intros [|d t]; simpl;
    try discriminate; [reflexivity|].
  intros [= Hc Hs]. f_equal; [now apply code_injective | now apply IH].
Qed.

Lemma decode_ofString (s : string) : U16.StringToCodePoints (U16.ofString s) = U16.ofString s.
Proof.
  unfold U16.ofString. induction s as [|c s IH]; [reflexivity|].
  simpl map. rewrite decode_cons_plain by apply isLeadingSurrogate_code. now rewrite IH.
Qed.

Lemma encode_ofString (s : string) : U16.CodePointsToString (U16.ofString s) = U16.ofString s.
Proof.
  unfold U16.ofString, U16.CodePointsToString. induction s as [|c s IH]; [reflexivity|].
  simpl. now rewrite encode_code, IH.
Qed.

Lemma toLowercaseFrom_ofString (s : string) (before : list Z) :
  U16.toLowercaseFrom before (U16.ofString s) = U16.ofString (Str.toLowerCase s).
Proof.
  unfold U16.ofString. revert before. induction s as [|c s IH]; intros before; [reflexivity|].
  simpl. now rewrite toLowercaseAt_code, IH.
Qed.

Lemma toLowerCase_ofString (s : string) :
  U16.toLowerCase (U16.ofString s) = U16.ofString (Str.toLowerCase s).
Proof.
  unfold U16.toLowerCase.
  now rewrite decode_ofString, toLowercaseFrom_ofString, encode_ofString.
Qed.

Lemma trimStart_ofString (s : string) :
  U16.trimStart (U16.ofString s) = U16.ofString (Str.trimStart s).
Proof.
  unfold U16.ofString. induction s as [|c s IH]; [reflexivity|].
  simpl. rewrite isWhiteSpace_code. destruct (Str.isWhiteSpace c); [exact IH | reflexivity].
Qed.

Lemma trimEnd_ofString (s : string) :
  U16.trimEnd (U16.ofString s) = U16.ofString (Str.trimEnd s).
Proof.
  unfold U16.ofString. induction s as [|c s IH]; [reflexivity|].
  simpl. rewrite IH, isWhiteSpace_code.
  destruct (Str.trimEnd s); simpl; [|reflexivity].
  destruct (Str.isWhiteSpace c); reflexivity.
Qed.

Lemma trim_ofString (s : string) : U16.trim (U16.ofString s) = U16.ofString (Str.trim s).
Proof.
  unfold U16.trim, Str.trim. now rewrite trimStart_ofString, trimEnd_ofString.
Qed.

Lemma normalizedNames_ofPlayer (ps : list Player) :
  U16.normalizedNames (map ofPlayer ps) = map U16.ofString (normalizedNames ps).
Proof.
  unfold U16.normalizedNames, normalizedNames. rewrite !map_map.
  apply map_ext. intros p. simpl. now rewrite toLowerCase_ofString, trim_ofString.
Qed.

Section Injective.
Context {A B : Type}.
Variable decA : forall x y : A, {x = y} + {x <> y}.
Variable decB : forall x y : B, {x = y} + {x <> y}.
Variable f : A -> B.
Hypothesis f_injective : forall x y, f x = f y -> x = y.

Lemma in_map_injective (x : A) (l : list A) : In (f x) (map f l) <-> In x l.
Proof.
  split; [|apply in_map]. rewrite in_map_iff. intros (y & E & Hy).
  apply f_injective in E. now subst.
Qed.

Lemma nodup_map_injective (l : list A) :
  nodup decB (map f l) = map f (nodup decA l).
Proof.
  induction l as [|x l IH]; [reflexivity|]. simpl.
  destruct (in_dec decB (f x) (map f l)) as [H|H], (in_dec decA x l) as [H'|H'];
    simpl; rewrite ?IH; try reflexivity.
  - apply in_map_injective in H. contradiction.
  - exfalso. apply H. now apply in_map.
Qed.
End Injective.

(** On names with code units below U+0100 the check is the one [saveGame]
    is modelled with. *)
Lemma hasDuplicateNames_ofPlayer (ps : list Player) :
  U16.hasDuplicateNames (map ofPlayer ps) = hasDuplicateNames ps.
Proof.
  unfold U16.hasDuplicateNames, hasDuplicateNames.
  rewrite normalizedNames_ofPlayer.
  rewrite (nodup_map_injective string_dec U16.ustring_dec U16.ofString ofString_injective).
  now rewrite !length_map.
Qed.

(** *** The check on every input *)

Lemma hasDuplicateNames_utf16_NoDup (ps : list U16.Player) :
  U16.hasDuplicateNames ps = false <-> NoDup (U16.normalizedNames ps).
Proof.
  unfold U16.hasDuplicateNames. rewrite negb_false_iff, Nat.eqb_eq.
  apply nodup_length_NoDup.
Qed.

Lemma hasDuplicateNames_utf16_repeats (ps : list U16.Player) :
  U16.hasDuplicateNames ps = true <-> repeats (U16.normalizedNames ps).
Proof.
  split.
  - intros H.
    destruct (NoDup_or_repeats U16.ustring_dec (U16.normalizedNames ps)) as [Hnd|Hr];
      [|exact Hr].
    apply hasDuplicateNames_utf16_NoDup in Hnd. congruence.
  - intros Hr. destruct (U16.hasDuplicateNames ps) eqn:E; [reflexivity|].
    apply hasDuplicateNames_utf16_NoDup in E.
    exfalso. exact (repeats_not_NoDup _ Hr E).
Qed.

(** Two entries at different positions whose names are equal once trimmed
    and lower-cased, whatever the names. *)
Definition sameNameTwice_utf16 (ps : list U16.Player) : Prop :=
  exists i j p q,
    i <> j /\ nth_error ps i = Some p /\ nth_error ps j = Some q
    /\ U16.toLowerCase (U16.trim (U16.name p)) = U16.toLowerCase (U16.trim (U16.name q)).

Lemma repeats_sameNameTwice_utf16 (ps : list U16.Player) :
  repeats (U16.normalizedNames ps) <-> sameNameTwice_utf16 ps.
Proof.
  unfold repeats, sameNameTwice_utf16, U16.normalizedNames. split.
  - intros (i & j & x & Hij & Hi & Hj).
    rewrite nth_error_map in Hi, Hj.
    destruct (nth_error ps i) as [p|] eqn:Ep; [|discriminate].
    destruct (nth_error ps j) as [q|] eqn:Eq; [|discriminate].
    simpl in Hi, Hj. exists i, j, p, q.
    split; [lia|]. split; [exact Ep|]. split; [exact Eq|].
    rewrite <- !trim_toLowerCase_utf16. congruence.
  - intros (i & j & p & q & Hij & Hi & Hj & E).
    rewrite <- !trim_toLowerCase_utf16 in E.
    destruct (Nat.lt_total i j) as [Hlt|[Heq|Hgt]]; [|contradiction|].
    + exists i, j, (U16.trim (U16.toLowerCase (U16.name p))).
      rewrite !nth_error_map, Hi, Hj. simpl.
      split; [exact Hlt|]. split; [reflexivity | now rewrite E].
    + exists j, i, (U16.trim (U16.toLowerCase (U16.name p))).
      rewrite !nth_error_map, Hi, Hj. simpl.
      split; [exact Hgt|]. split; [now rewrite E | reflexivity].
Qed.

(** C5: the duplicate-name check reports duplicates exactly when two
    entries have names that are equal after trimming and lower-casing,
    whatever the names: strings of any UTF-16 code units, lower-cased by
    the Unicode case conversion and trimmed of the white space of
    ECMAScript.  Lower-casing then trimming, as the code does, gives the
    same string as trimming then lower-casing, on every string.  Any list
    that holds the names "Alice" and "alice " at two positions is reported.
    On names of code units below U+0100 the check is the one [saveGame] is
    modelled with. *)
Theorem duplicate_names_on_every_input (ps : list U16.Player) :
  (U16.hasDuplicateNames ps = true <-> sameNameTwice_utf16 ps)
  /\ (forall s, U16.trim (U16.toLowerCase s) = U16.toLowerCase (U16.trim s))
  /\ (forall i j p q,
        i <> j -> nth_error ps i = Some p -> nth_error ps j = Some q ->
        U16.name p = U16.ofString "Alice" -> U16.name q = U16.ofString "alice " ->
        U16.hasDuplicateNames ps = true)
  /\ (forall qs : list Player,
        hasDuplicateNames qs = U16.hasDuplicateNames (map ofPlayer qs)).
Proof.
  assert (H : U16.hasDuplicateNames ps = true <-> sameNameTwice_utf16 ps).
  { rewrite hasDuplicateNames_utf16_repeats. apply repeats_sameNameTwice_utf16. }
  split; [exact H|]. split; [exact trim_toLowerCase_utf16|]. split.
  - intros i j p q Hij Hi Hj Hp Hq. apply H.
    exists i, j, p, q. repeat split; try assumption.
    rewrite Hp, Hq. vm_compute. reflexivity.
  - intros qs. symmetry. apply hasDuplicateNames_ofPlayer.
Qed.

(** Sigma and sigma are one name, and so are A behind an ideographic space
    and a; U+0130 is lower-cased to two code units, a sigma at the end of a
    word to a final sigma, and U+10400 to U+10428, each a surrogate pair. *)
Example names_beyond_latin1 :
  U16.hasDuplicateNames [ {| U16.name := [0x3A3]; U16.buyIn := []; U16.cashOut := [] |};
                          {| U16.name := [0x3C3]; U16.buyIn := []; U16.cashOut := [] |} ] = true
  /\ U16.hasDuplicateNames [ {| U16.name := [0x3000; 0x41]; U16.buyIn := []; U16.cashOut := [] |};
                             {| U16.name := [0x61]; U16.buyIn := []; U16.cashOut := [] |} ] = true
  /\ U16.toLowerCase [0x130] = [0x69; 0x307]
  /\ U16.toLowerCase [0x391; 0x3A3] = [0x3B1; 0x3C2]
  /\ U16.toLowerCase [0xD801; 0xDC00] = [0xD801; 0xDC28].
Proof. repeat split; vm_compute; reflexivity. Qed.

End Utf16Names.

(** ** Rounding to 2 fractional digits *)

(** [hundredths m e] is the integer nearest to [100 * m * 2^e], the larger
    one on a tie. *)
Lemma hundredths_nearest (m k : positive) :
  let n := Fixed.hundredths m (Zneg k) in
  - 2 ^ Zpos k < 2 ^ (Zpos k + 1) * n - 200 * Zpos m <= 2 ^ Zpos k.
Proof.
  unfold Fixed.hundredths. cbv beta iota zeta.
  assert (Hk : 2 ^ (Zpos k + 1) = 2 * 2 ^ Zpos k)
    by (rewrite Z.pow_add_r by lia; simpl (2 ^ 1); lia).
  assert (HP : 0 < 2 ^ Zpos k) by (apply Z.pow_pos_nonneg; lia).
  rewrite Hk. set (P := 2 ^ Zpos k) in *.
  assert (Hp : 0 < 2 * P) by lia.
  pose proof (Z.mul_div_le (200 * Zpos m + P) _ Hp) as Hle.
  pose proof (Z.mul_succ_div_gt (200 * Zpos m + P) _ Hp) as Hgt.
  set (q := (200 * Zpos m + P) / (2 * P)) in *.
  rewrite Z.mul_succ_r in Hgt. lia.
Qed.

Lemma hundredths_exact (m : positive) (e : Z) :
  0 <= e -> Fixed.hundredths m e = 100 * (Zpos m * 2 ^ e).
Proof.
  intros He. unfold Fixed.hundredths. destruct e; lia.
Qed.

(** ** checkTotalBalance *)

Lemma buyInTotal_sumOf (ps : list Player) :
  buyInTotal ps = sumOf (map (fun p => amountOrZero (buyIn p)) ps).
Proof.
  unfold buyInTotal, sumOf. generalize JS.zero.
  induction ps as [|p ps IH]; simpl; intros z; [reflexivity | apply IH].
Qed.

Lemma cashOutTotal_sumOf (ps : list Player) :
  cashOutTotal ps = sumOf (map (fun p => amountOrZero (cashOut p)) ps).
Proof.
  unfold cashOutTotal, sumOf. generalize JS.zero.
  induction ps as [|p ps IH]; simpl; intros z; [reflexivity | apply IH].
Qed.

(** C4: the balance check adds up the buy-ins and the cash-outs, rounds
    each sum to 2 fractional digits on its own and answers whether the two
    rounded sums are equal; totals of 100.00 and 100.01 give false, and so
    do totals of 100.004 and 100.006, whose difference rounds to 0. *)
Theorem checkTotalBalance_rounds_each_sum (ps : list Player) :
  checkTotalBalance ps
  = JS.strict_eq (round2 (sumOf (map (fun p => amountOrZero (buyIn p)) ps)))
                 (round2 (sumOf (map (fun p => amountOrZero (cashOut p)) ps)))
  /\ (buyInTotal ps = JS.of_decimal false 10000 (-2) ->
      cashOutTotal ps = JS.of_decimal false 10001 (-2) ->
      checkTotalBalance ps = false)
  /\ (buyInTotal ps = JS.of_decimal false 100004 (-3) ->
      cashOutTotal ps = JS.of_decimal false 100006 (-3) ->
      checkTotalBalance ps = false
      /\ round2 (JS.sub (cashOutTotal ps) (buyInTotal ps)) = JS.zero).
Proof.
  split; [|split].
  - unfold checkTotalBalance, round2.
    now rewrite buyInTotal_sumOf, cashOutTotal_sumOf.
  - intros Hb Hc. unfold checkTotalBalance. rewrite Hb, Hc.
    vm_compute. reflexivity.
  - intros Hb Hc. unfold checkTotalBalance. rewrite Hb, Hc.
    vm_compute. split; reflexivity.
Qed.

(** A session whose totals are 100.00 and 100.01. *)
Example checkTotalBalance_scenario_E :
  let ps := [ {| name := "A"; buyIn := "50"; cashOut := "100.01" |};
              {| name := "B"; buyIn := "50"; cashOut := "0" |} ] in
  buyInTotal ps = JS.of_decimal false 10000 (-2)
  /\ cashOutTotal ps = JS.of_decimal false 10001 (-2)
  /\ checkTotalBalance ps = false.
Proof. vm_compute. repeat split. Qed.

(** ** saveGame *)

Lemma filled_false (p : Player) :
  filled p = false <->
  Str.trim (name p) = "" \/ Str.trim (buyIn p) = "" \/ Str.trim (cashOut p) = "".
Proof.
  unfold filled. rewrite !andb_false_iff, !negb_false_iff, !String.eqb_eq. tauto.
Qed.

Lemma filled_true (p : Player) :
  filled p = true <->
  Str.trim (name p) <> "" /\ Str.trim (buyIn p) <> "" /\ Str.trim (cashOut p) <> "".
Proof.
  unfold filled. rewrite !andb_true_iff, !negb_true_iff, !String.eqb_neq. tauto.
Qed.

Lemma isValid_false (ps : list Player) :
  isValid ps = false <-> exists p, In p ps /\ filled p = false.
Proof.
  unfold isValid. split.
  - intros H. induction ps as [|p ps IH]; simpl in H; [discriminate|].
    apply andb_false_iff in H. destruct H as [H|H].
    + exists p. split; [now left | exact H].
    + destruct (IH H) as (q & Hq & Hf). exists q. split; [now right | exact Hf].
  - intros (p & Hin & Hf). destruct (forallb filled ps) eqn:E; [|reflexivity].
    rewrite forallb_forall in E. rewrite (E p Hin) in Hf. discriminate.
Qed.

(** What [saveGame] answers when the fields are not all filled. *)
Definition incompleteFields : list Effect :=
  [Alert "Error" "Please fill in all player information"].

(** C3 (amended): the completeness check fails, with the alert and nothing
    else, exactly when no duplicate name was found first and some entry has
    a name, buy-in or cash-out that is empty once trimmed; whether an
    amount parses as a number is not looked at. *)
Theorem saveGame_incomplete_iff (env : Env) (ps : list Player) :
  saveGame env ps = incompleteFields <->
  hasDuplicateNames ps = false
  /\ exists p, In p ps
       /\ (Str.trim (name p) = "" \/ Str.trim (buyIn p) = ""
           \/ Str.trim (cashOut p) = "").
Proof.
  unfold saveGame, incompleteFields.
  destruct (hasDuplicateNames ps); [split; [discriminate | intros [? _]; discriminate]|].
  destruct (isValid ps) eqn:Ev; simpl.
  - split; [discriminate|]. intros (_ & p & Hin & Hp).
    apply filled_false in Hp.
    assert (isValid ps = false) by (apply isValid_false; eauto). congruence.
  - split; [|reflexivity]. intros _. split; [reflexivity|].
    apply isValid_false in Ev. destruct Ev as (p & Hin & Hp).
    exists p. split; [exact Hin | now apply filled_false].
Qed.

(** An amount that is not a number passes the completeness check, counts
    as 0 in the balance check, and the settlement is computed. *)
Lemma saveGame_accepts_non_numeric :
  let ps := [ {| name := "A"; buyIn := "abc"; cashOut := "10" |};
              {| name := "B"; buyIn := "10"; cashOut := "0" |} ] in
  let env := {| existingGames := Some []; setItemSucceeds := true;
                nowString := "1"; dateISO := "d" |} in
  (exists p, In p ps /\ buyIn p <> "" /\ Str.parseFloat (buyIn p) = JS.NaN)
  /\ saveGame env ps <> incompleteFields
  /\ In CalledCalculatePayments (saveGame env ps).
Proof.
  intros ps env. split; [|split].
  - exists {| name := "A"; buyIn := "abc"; cashOut := "10" |}.
    split; [left; reflexivity|]. split; [discriminate | vm_compute; reflexivity].
  - vm_compute. discriminate.
  - vm_compute. tauto.
Qed.

(** The effects by which [saveGame] settles and stores a session. *)
Definition settlesOrStores (e : Effect) : bool :=
  match e with
  | GetItem _ | CalledCalculatePayments | SetItem _ _ | RouterPush _ => true
  | _ => false
  end.

(** C8: [saveGame] calls [calculatePayments] (or touches storage) only
    when the duplicate-name check passed, every field of every entry is
    non-empty once trimmed and the balance check returned true; when one of
    the three checks fails it neither computes payments nor stores. *)
Theorem saveGame_settles_only_validated (env : Env) (ps : list Player) :
  (In CalledCalculatePayments (saveGame env ps) ->
     hasDuplicateNames ps = false
     /\ (forall p, In p ps ->
           Str.trim (name p) <> "" /\ Str.trim (buyIn p) <> ""
           /\ Str.trim (cashOut p) <> "")
     /\ checkTotalBalance ps = true)
  /\ (hasDuplicateNames ps = true \/ isValid ps = false
      \/ checkTotalBalance ps = false ->
      forall e, In e (saveGame env ps) -> settlesOrStores e = false).
Proof.
  unfold saveGame.
  destruct (hasDuplicateNames ps) eqn:Ed; simpl.
  { split; [intros [H|[]]; discriminate|].
    intros _ e [<-|[]]; reflexivity. }
  destruct (isValid ps) eqn:Ev; simpl.
  2:{ split; [intros [H|[]]; discriminate|].
      intros _ e [<-|[]]; reflexivity. }
  destruct (checkTotalBalance ps) eqn:Eb; simpl.
  2:{ split; [intros [H|[H|[H|[]]]]; discriminate|].
      intros _ e [<-|[<-|[<-|[]]]]; reflexivity. }
  split.
  - intros _. split; [reflexivity|]. split; [|reflexivity].
    intros p Hp. apply filled_true.
    unfold isValid in Ev. rewrite forallb_forall in Ev. now apply Ev.
  - intros [H|[H|H]]; discriminate.
Qed.

(** ** Numbers *)

Lemma lt_gt_zero_exclusive (x : JS.number) :
  JS.lt x JS.zero = true -> JS.gt x JS.zero = true -> False.
Proof.
  destruct x as [s|s| |s m e]; try destruct s; cbv; discriminate.
Qed.


(** ** Arrays *)

Lemma set_length {A : Type} (a : list A) (i : nat) (x : A) :
  List.length (Arr.set a i x) = List.length a.
Proof.
  revert i. induction a as [|y a IH]; intros [|i]; simpl; auto.
Qed.

Lemma map_set {A B : Type} (g : A -> B) (a : list A) (i : nat) (x y : A) :
  nth_error a i = Some y -> g x = g y -> map g (Arr.set a i x) = map g a.
Proof.
  revert i. induction a as [|z a IH]; intros [|i]; simpl; try discriminate.
  - intros [= ->] ->. reflexivity.
  - intros H E. now rewrite (IH i H E).
Qed.

Section SortFacts.
Context {A : Type}.
Variable comparefn : A -> A -> JS.number.

Lemma insert_In (x a : A) (l : list A) :
  In a (Arr.insert comparefn x l) <-> a = x \/ In a l.
Proof.
  induction l as [|y l IH]; simpl.
  - intuition.
  - destruct (JS.gt (comparefn x y) JS.zero); simpl; [rewrite IH|]; intuition.
Qed.

Lemma sort_In (a : A) (l : list A) : In a (Arr.sort comparefn l) <-> In a l.
Proof.
  unfold Arr.sort. induction l as [|y l IH]; simpl; [tauto|].
  rewrite insert_In, IH. intuition.
Qed.

Lemma insert_length (x : A) (l : list A) :
  List.length (Arr.insert comparefn x l) = S (List.length l).
Proof.
  induction l as [|y l IH]; simpl; [reflexivity|].
  destruct (JS.gt (comparefn x y) JS.zero); simpl; [now rewrite IH | reflexivity].
Qed.

Lemma sort_length (l : list A) : List.length (Arr.sort comparefn l) = List.length l.
Proof.
  unfold Arr.sort. induction l as [|y l IH]; simpl; [reflexivity|].
  now rewrite insert_length, IH.
Qed.

End SortFacts.

(** ** The [while] loop *)

Lemma loopBody_winnerIndex (loser winner : Balance) (f : Frame) :
  winnerIndex (loopBody loser winner f) = S (winnerIndex f).
Proof.
  unfold loopBody. destruct (JS.gt _ JS.zero); reflexivity.
Qed.

Lemma loopBody_length (loser winner : Balance) (f : Frame) :
  List.length (winners (shared (loopBody loser winner f)))
  = List.length (winners (shared f)).
Proof.
  unfold loopBody. destruct (JS.gt _ JS.zero); simpl; [apply set_length | reflexivity].
Qed.

Lemma loopCondition_true (f : Frame) :
  loopCondition f = true ->
  JS.gt (remainingDebt f) JS.cent = true
  /\ (winnerIndex f < List.length (winners (shared f)))%nat.
Proof.
  unfold loopCondition. rewrite andb_true_iff, Nat.ltb_lt. tauto.
Qed.

(** With fuel for every winner that is left, [whileLoop] runs the loop to
    its end. *)
Lemma whileLoop_runs (loser : Balance) (fuel : nat) (f : Frame) :
  (List.length (winners (shared f)) - winnerIndex f <= fuel)%nat ->
  loopRun loser f (whileLoop fuel loser f).
Proof.
  revert f. induction fuel as [|fuel IH]; intros f Hfuel; simpl.
  - apply run_exit. unfold loopCondition.
    apply andb_false_iff. right. apply Nat.ltb_ge. lia.
  - destruct (loopCondition f) eqn:Ec; [|now apply run_exit].
    destruct (loopCondition_true f Ec) as [_ Hlt].
    destruct (nth_error (winners (shared f)) (winnerIndex f)) as [winner|] eqn:En.
    + eapply run_step; [exact Ec | exact En |].
      apply IH. rewrite loopBody_length, loopBody_winnerIndex. lia.
    + apply nth_error_None in En. lia.
Qed.

(** What a run of the loop for [loser] does: it pays amounts [xs], each
    strictly positive before rounding, to winners of the array; it reads
    the winners at consecutive indices; the winners keep their places and
    names; and it ends where the loop condition fails. *)
Lemma loopRun_spec (loser : Balance) (f f' : Frame) :
  loopRun loser f f' ->
  exists xs,
    paid (shared f') = paid (shared f) ++ map (transfer loser) xs
    /\ consulted (shared f')
       = consulted (shared f) ++ seq (winnerIndex f) (winnerIndex f' - winnerIndex f)
    /\ (winnerIndex f <= winnerIndex f')%nat
    /\ map b_name (winners (shared f')) = map b_name (winners (shared f))
    /\ Forall (fun wx => JS.gt (snd wx) JS.zero = true
                         /\ In (fst wx) (map b_name (winners (shared f)))) xs
    /\ remainingDebt f' = debtAfter (remainingDebt f) xs
    /\ loopCondition f' = false.
Proof.
  induction 1 as [f Hc | f winner f' Hc Hn Hrun IH].
  - exists []. simpl. rewrite app_nil_r, Nat.sub_diag. simpl. rewrite app_nil_r.
    repeat split; auto.
  - destruct IH as (xs & Hp & Hs & Hi & Hw & Hx & Hr & Hc').
    assert (Hin : In (b_name winner) (map b_name (winners (shared f)))).
    { apply in_map. eapply nth_error_In; eassumption. }
    rewrite loopBody_winnerIndex in Hs, Hi.
    assert (Hseq : seq (winnerIndex f) (winnerIndex f' - winnerIndex f)
                   = winnerIndex f :: seq (S (winnerIndex f)) (winnerIndex f' - S (winnerIndex f))).
    { replace (winnerIndex f' - winnerIndex f)%nat
        with (S (winnerIndex f' - S (winnerIndex f))) by lia. reflexivity. }
    unfold loopBody in Hp, Hs, Hw, Hx, Hr.
    destruct (JS.gt (JS.Math_min (remainingDebt f) (balance winner)) JS.zero) eqn:Eg;
      simpl in Hp, Hs, Hw, Hx, Hr.
    + exists ((b_name winner, JS.Math_min (remainingDebt f) (balance winner)) :: xs).
      rewrite (map_set b_name _ _
                 {| b_name := b_name winner;
                    balance := JS.sub (balance winner)
                                 (JS.Math_min (remainingDebt f) (balance winner)) |}
                 winner Hn eq_refl) in Hw, Hx.
      split; [rewrite Hp, <- app_assoc; reflexivity|].
      split; [rewrite Hs, Hseq, <- app_assoc; reflexivity|].
      split; [lia|]. split; [exact Hw|].
      split; [constructor; [split; assumption | exact Hx]|].
      split; [exact Hr | exact Hc'].
    + exists xs.
      split; [exact Hp|].
      split; [rewrite Hs, Hseq, <- app_assoc; reflexivity|].
      split; [lia|]. split; [exact Hw|].
      split; [exact Hx|]. split; [exact Hr | exact Hc'].
Qed.

Lemma loopRun_index_le (loser : Balance) (f f' : Frame) :
  loopRun loser f f' ->
  (winnerIndex f <= List.length (winners (shared f)))%nat ->
  (winnerIndex f' <= List.length (winners (shared f)))%nat.
Proof.
  induction 1 as [f Hc | f winner f' Hc Hn Hrun IH]; intros Hle; [exact Hle|].
  rewrite loopBody_length, loopBody_winnerIndex in IH.
  apply IH. apply loopCondition_true in Hc. lia.
Qed.

(** The callback of [forEach], for any state of the shared arrays. *)
Lemma settleLoser_spec (st : Settlement) (loser : Balance) :
  exists xs k,
    paid (forEachStep st loser) = paid st ++ map (transfer loser) xs
    /\ consulted (forEachStep st loser) = consulted st ++ seq 0 k
    /\ map b_name (winners (forEachStep st loser)) = map b_name (winners st)
    /\ runOK (map b_name (winners st)) (loser, (xs, k)).
Proof.
  unfold forEachStep, settleLoser.
  set (f0 := {| remainingDebt := JS.Math_abs (balance loser);
                winnerIndex := 0; shared := st |}).
  assert (Hrun : loopRun loser f0 (whileLoop (List.length (winners st)) loser f0))
    by (apply whileLoop_runs; simpl; lia).
  set (f := whileLoop (List.length (winners st)) loser f0) in *.
  destruct (loopRun_spec loser f0 f Hrun) as (xs & Hp & Hs & Hi & Hw & Hx & Hr & Hc).
  pose proof (loopRun_index_le loser f0 f Hrun) as Hle.
  simpl in Hp, Hs, Hi, Hw, Hx, Hr, Hle. rewrite Nat.sub_0_r in Hs.
  exists xs, (winnerIndex f).
  split; [exact Hp|]. split; [exact Hs|]. split; [exact Hw|].
  unfold runOK. rewrite length_map.
  split; [exact Hx|]. split; [apply Hle; lia|].
  unfold loopCondition in Hc. apply andb_false_iff in Hc.
  destruct Hc as [Hc|Hc]; [left; now rewrite <- Hr|right].
  apply Nat.ltb_ge in Hc.
  assert (List.length (winners (shared f)) = List.length (winners st))
    by (rewrite <- (length_map b_name), Hw; apply length_map).
  specialize (Hle (Nat.le_0_l _)). lia.
Qed.

(** [losers.forEach] over any list of debtors, from any state. *)
Lemma forEach_runs (ls : list Balance) (st : Settlement) :
  exists runs : list Run,
    List.length runs = List.length ls
    /\ paid (fold_left forEachStep ls st)
       = paid st ++ flat_map runTransfers (combine ls runs)
    /\ consulted (fold_left forEachStep ls st)
       = consulted st ++ flat_map (fun r : Run => seq 0 (snd r)) runs
    /\ map b_name (winners (fold_left forEachStep ls st)) = map b_name (winners st)
    /\ Forall (runOK (map b_name (winners st))) (combine ls runs).
Proof.
  revert st. induction ls as [|loser ls IH]; intros st; simpl.
  - exists []. simpl. rewrite !app_nil_r. repeat split; constructor.
  - destruct (settleLoser_spec st loser) as (xs & k & Hp & Hs & Hw & Hok).
    destruct (IH (forEachStep st loser)) as (runs & Hlen & Hp' & Hs' & Hw' & Hok').
    exists ((xs, k) :: runs). simpl.
    split; [now rewrite Hlen|].
    split; [rewrite Hp', Hp, <- app_assoc; reflexivity|].
    split; [rewrite Hs', Hs, <- app_assoc; reflexivity|].
    split; [now rewrite Hw', Hw|].
    constructor; [exact Hok | now rewrite <- Hw].
Qed.

Lemma settle_runs (ps : list Player) :
  exists runs : list Run,
    List.length runs = List.length (losers ps)
    /\ calculatePayments ps = flat_map runTransfers (combine (losers ps) runs)
    /\ consulted (settle ps) = flat_map (fun r : Run => seq 0 (snd r)) runs
    /\ map b_name (winners (settle ps)) = map b_name (initialWinners ps)
    /\ Forall (runOK (map b_name (initialWinners ps))) (combine (losers ps) runs).
Proof.
  unfold calculatePayments, settle.
  exact (forEach_runs (losers ps)
           {| winners := initialWinners ps; paid := []; consulted := [] |}).
Qed.

(** ** The settlement as turns of the debtors *)

Lemma sub_self (x : JS.number) : JS.sub x x = JS.zero \/ JS.sub x x = JS.NaN.
Proof.
  destruct x as [s|s| |s m e]; try (destruct s; cbn; auto; fail); [cbn; auto|].
  left. unfold JS.sub, SFsub. rewrite Z.sub_diag. reflexivity.
Qed.

Lemma above_cent_positive (x : JS.number) :
  JS.gt x JS.cent = true -> JS.gt x JS.zero = true.
Proof.
  destruct x as [s|s| |s m e]; try destruct s; cbn; try discriminate; reflexivity.
Qed.

Lemma SFltb_irrefl (x : JS.number) : SFltb x x = false.
Proof.
  destruct x as [s|s| |s m e]; try destruct s; try reflexivity;
    unfold SFltb; cbn; rewrite Z.compare_refl;
    change (PosDef.Pos.compare_cont Eq m m) with (Pos.compare m m);
    rewrite Pos.compare_refl; reflexivity.
Qed.

Lemma SFltb_asym (x y : JS.number) : SFltb x y = true -> SFltb y x = false.
Proof.
  destruct x as [sx|sx| |sx mx ex], y as [sy|sy| |sy my ey];
    try destruct sx; try destruct sy; cbn; try discriminate; try reflexivity;
    unfold SFltb; cbn; rewrite (Z.compare_antisym ex ey);
    change (PosDef.Pos.compare_cont Eq my mx) with (Pos.compare my mx);
    change (PosDef.Pos.compare_cont Eq mx my) with (Pos.compare mx my);
    rewrite (Pos.compare_antisym mx my);
    destruct (Z.compare ex ey); cbn; try discriminate; try reflexivity;
    destruct (Pos.compare mx my); cbn; try discriminate; reflexivity.
Qed.

(** [Math.min] of a debt and a credit is one of the two when it is above 0. *)
Lemma Math_min_cases (x y : JS.number) :
  JS.gt (JS.Math_min x y) JS.zero = true ->
  JS.Math_min x y = x \/ JS.Math_min x y = y.
Proof.
  destruct x as [sx|sx| |sx mx ex], y as [sy|sy| |sy my ey];
    try (cbn; discriminate); unfold JS.Math_min;
    try (destruct (SFltb _ _); auto; fail).
Qed.

Lemma Math_min_le (x y : JS.number) :
  JS.gt (JS.Math_min x y) x = false /\ JS.gt (JS.Math_min x y) y = false.
Proof.
  unfold JS.gt.
  assert (H : SFltb x (if SFltb y x then y else x) = false
              /\ SFltb y (if SFltb y x then y else x) = false).
  { destruct (SFltb y x) eqn:E.
    - split; [now apply SFltb_asym | apply SFltb_irrefl].
    - split; [apply SFltb_irrefl | exact E]. }
  destruct x as [sx|sx| |sx mx ex], y as [sy|sy| |sy my ey];
    try exact H; try (destruct sx; split; reflexivity);
    try (destruct sy; split; reflexivity); try (split; reflexivity).
Qed.

Lemma Math_min_positive (x y : JS.number) :
  JS.gt (JS.Math_min x y) JS.zero = true <->
  JS.gt x JS.zero = true /\ JS.gt y JS.zero = true.
Proof.
  destruct x as [sx|sx| |sx mx ex], y as [sy|sy| |sy my ey];
    try destruct sx; try destruct sy; cbn; try tauto;
    try (split; [discriminate | intros [? ?]; discriminate]);
    try (destruct (match _ with Eq => _ | Lt => _ | Gt => _ end); cbn; tauto).
Qed.


Lemma set_middle {A : Type} (pre suf : list A) (x y : A) :
  Arr.set (pre ++ x :: suf) (List.length pre) y = pre ++ y :: suf.
Proof.
  induction pre as [|z pre IH]; simpl; [reflexivity | now rewrite IH].
Qed.

Lemma nth_error_middle {A : Type} (pre suf : list A) (x : A) :
  nth_error (pre ++ x :: suf) (List.length pre) = Some x.
Proof.
  induction pre as [|z pre IH]; simpl; [reflexivity | exact IH].
Qed.

(** The [while] loop, entered at index [length pre] with the creditors
    [pre ++ suf], is the turn along [suf]. *)
Lemma whileLoop_turn (loser : Balance) (suf : list Balance) :
  forall (pre : list Balance) (fuel : nat) (debt : JS.number)
         (pd : list Payment) (seen : list nat),
    (List.length suf <= fuel)%nat ->
    whileLoop fuel loser
      {| remainingDebt := debt; winnerIndex := List.length pre;
         shared := {| winners := pre ++ suf; paid := pd; consulted := seen |} |}
    = {| remainingDebt := snd (turn debt suf);
         winnerIndex := List.length pre + List.length (fst (turn debt suf));
         shared :=
           {| winners := pre ++ residuals suf (fst (turn debt suf));
              paid := pd ++ map (transfer loser) (paidTo suf (fst (turn debt suf)));
              consulted := seen ++ seq (List.length pre)
                                       (List.length (fst (turn debt suf))) |} |}.
Proof.
  induction suf as [|c rest IH]; intros pre fuel debt pd seen Hfuel.
  - cbn [turn fst snd residuals paidTo map List.length seq].
    rewrite Nat.add_0_r, !app_nil_r.
    destruct fuel as [|fuel]; cbn [whileLoop]; [reflexivity|].
    unfold loopCondition. cbn [remainingDebt winnerIndex shared winners].
    rewrite Nat.ltb_irrefl, andb_false_r. reflexivity.
  - destruct fuel as [|fuel]; [simpl in Hfuel; lia|].
    simpl in Hfuel. cbn [whileLoop]. unfold loopCondition. cbn [remainingDebt winnerIndex shared winners].
    assert (Hlt : (List.length pre <? List.length (pre ++ c :: rest))%nat = true).
    { apply Nat.ltb_lt. rewrite length_app. simpl. lia. }
    rewrite Hlt, andb_true_r. cbn [turn].
    destruct (JS.gt debt JS.cent) eqn:Ed.
    + rewrite nth_error_middle. unfold loopBody, paymentTo.
      cbn [remainingDebt winnerIndex shared winners paid consulted].
      destruct (JS.gt (JS.Math_min debt (balance c)) JS.zero) eqn:Ep.
      * rewrite set_middle.
        set (c' := {| b_name := b_name c;
                      balance := JS.sub (balance c) (JS.Math_min debt (balance c)) |}).
        replace (S (List.length pre)) with (List.length (pre ++ [c']))
          by (rewrite length_app; simpl; lia).
        replace (pre ++ c' :: rest) with ((pre ++ [c']) ++ rest)
          by (rewrite <- app_assoc; reflexivity).
        rewrite IH by lia.
        destruct (turn (JS.sub debt (JS.Math_min debt (balance c))) rest) as [made left_].
        cbn [fst snd residuals paidTo receive map List.length].
        rewrite length_app. cbn [List.length].
        f_equal; [lia|]. f_equal.
        -- rewrite <- app_assoc. reflexivity.
        -- rewrite <- app_assoc. reflexivity.
        -- rewrite <- app_assoc. cbn [seq]. simpl.
           replace (List.length pre + 1)%nat with (S (List.length pre)) by lia.
           reflexivity.
      * replace (S (List.length pre)) with (List.length (pre ++ [c]))
          by (rewrite length_app; simpl; lia).
        replace (pre ++ c :: rest) with ((pre ++ [c]) ++ rest)
          by (rewrite <- app_assoc; reflexivity).
        rewrite IH by lia.
        destruct (turn debt rest) as [made left_].
        cbn [fst snd residuals paidTo receive map List.length].
        rewrite length_app. cbn [List.length].
        f_equal; [lia|]. f_equal.
        -- rewrite <- app_assoc. reflexivity.
        -- rewrite <- app_assoc. cbn [seq]. simpl.
           replace (List.length pre + 1)%nat with (S (List.length pre)) by lia.
           reflexivity.
    + cbn [fst snd residuals paidTo map List.length seq].
      rewrite Nat.add_0_r, !app_nil_r. reflexivity.
Qed.

Lemma turns_cons (d : Balance) (ds creditors : list Balance) :
  turns (d :: ds) creditors
  = turnOf d creditors :: turns ds (creditorsAfter (turnOf d creditors)).
Proof. reflexivity. Qed.

(** The callback of [forEach] is one turn. *)
Lemma forEachStep_turn (st : Settlement) (loser : Balance) :
  forEachStep st loser
  = {| winners := creditorsAfter (turnOf loser (winners st));
       paid := paid st ++ recordedIn (turnOf loser (winners st));
       consulted := consulted st ++ consultedIn (turnOf loser (winners st)) |}.
Proof.
  unfold forEachStep, settleLoser.
  pose proof (whileLoop_turn loser (winners st) [] (List.length (winners st))
                (JS.Math_abs (balance loser)) (paid st) (consulted st) (Nat.le_refl _)) as H.
  simpl in H. destruct st as [w p c]. simpl in *. rewrite H. reflexivity.
Qed.

(** [losers.forEach] is the turns of the debtors, one after the other. *)
Lemma forEach_turns (ls : list Balance) (st : Settlement) :
  fold_left forEachStep ls st
  = {| winners := creditsAfter (winners st) (turns ls (winners st));
       paid := paid st ++ flat_map recordedIn (turns ls (winners st));
       consulted := consulted st ++ flat_map consultedIn (turns ls (winners st)) |}.
Proof.
  revert st. induction ls as [|l ls IH]; intros st.
  - simpl. rewrite !app_nil_r. destruct st; reflexivity.
  - cbn [fold_left]. rewrite IH, forEachStep_turn, turns_cons.
    cbn [winners paid consulted flat_map]. unfold creditsAfter. cbn [fold_left].
    rewrite <- !app_assoc. reflexivity.
Qed.

Lemma settle_turns (ps : list Player) :
  settle ps
  = {| winners := creditsAfter (initialWinners ps) (turns (losers ps) (initialWinners ps));
       paid := flat_map recordedIn (turns (losers ps) (initialWinners ps));
       consulted := flat_map consultedIn (turns (losers ps) (initialWinners ps)) |}.
Proof.
  unfold settle. rewrite forEach_turns. reflexivity.
Qed.

Lemma turn_length (creditors : list Balance) (debt : JS.number) :
  (List.length (fst (turn debt creditors)) <= List.length creditors)%nat.
Proof.
  revert debt. induction creditors as [|c rest IH]; intros debt; simpl; [lia|].
  destruct (JS.gt debt JS.cent); [|simpl; lia].
  destruct (paymentTo debt c) as [x|].
  - specialize (IH (JS.sub debt x)). destruct (turn (JS.sub debt x) rest). simpl in *. lia.
  - specialize (IH debt). destruct (turn debt rest). simpl in *. lia.
Qed.

Lemma turn_debtLeft (creditors : list Balance) (debt : JS.number) :
  snd (turn debt creditors) = debtAfter debt (paidTo creditors (fst (turn debt creditors))).
Proof.
  revert debt. induction creditors as [|c rest IH]; intros debt; simpl; [reflexivity|].
  destruct (JS.gt debt JS.cent); [|reflexivity].
  destruct (paymentTo debt c) as [x|].
  - specialize (IH (JS.sub debt x)). destruct (turn (JS.sub debt x) rest). exact IH.
  - specialize (IH debt). destruct (turn debt rest). exact IH.
Qed.

Lemma paymentTo_Some (debt : JS.number) (c : Balance) (x : JS.number) :
  paymentTo debt c = Some x ->
  x = JS.Math_min debt (balance c) /\ JS.gt x JS.zero = true.
Proof.
  unfold paymentTo. destruct (JS.gt _ JS.zero) eqn:E; [|discriminate].
  intros [= <-]. auto.
Qed.

Lemma paymentTo_None (debt : JS.number) (c : Balance) :
  paymentTo debt c = None -> JS.gt (JS.Math_min debt (balance c)) JS.zero = false.
Proof.
  unfold paymentTo. destruct (JS.gt _ JS.zero) eqn:E; [discriminate | reflexivity].
Qed.

(** A creditor with no credit left is paid nothing. *)
Lemma paymentTo_exhausted (debt : JS.number) (c : Balance) :
  exhausted c -> paymentTo debt c = None.
Proof.
  unfold exhausted. intros H. destruct (paymentTo debt c) as [x|] eqn:E; [|reflexivity].
  apply paymentTo_Some in E. destruct E as [-> E].
  apply Math_min_positive in E. destruct E as [_ E]. congruence.
Qed.

(** A turn ends with a debt that is not above 0.01, or it has consulted
    every creditor and left none with a credit above 0. *)
Lemma turn_end (creditors : list Balance) (debt : JS.number) :
  JS.gt (snd (turn debt creditors)) JS.cent = false
  \/ (List.length (fst (turn debt creditors)) = List.length creditors
      /\ Forall exhausted (residuals creditors (fst (turn debt creditors)))).
Proof.
  revert debt. induction creditors as [|c rest IH]; intros debt; simpl.
  - right. split; [reflexivity | constructor].
  - destruct (JS.gt debt JS.cent) eqn:Ed; [|left; exact Ed].
    destruct (paymentTo debt c) as [x|] eqn:Ep.
    + apply paymentTo_Some in Ep. destruct Ep as [Ex Hx].
      specialize (IH (JS.sub debt x)).
      destruct (Math_min_cases debt (balance c)) as [Em|Em]; [now rewrite <- Ex | |].
      * (* the whole debt is paid *)
        left. assert (Hz : JS.gt (JS.sub debt x) JS.cent = false).
        { rewrite Ex, Em. destruct (sub_self debt) as [-> | ->]; reflexivity. }
        destruct rest as [|c' rest']; simpl; [exact Hz|]. rewrite Hz. exact Hz.
      * destruct (turn (JS.sub debt x) rest) as [made d']. simpl in *.
        destruct IH as [IH|[Hl Hr]]; [left; exact IH|right].
        split; [now rewrite Hl|]. constructor; [|exact Hr].
        unfold exhausted. simpl. rewrite Ex, Em.
        destruct (sub_self (balance c)) as [-> | ->]; reflexivity.
    + apply paymentTo_None in Ep. specialize (IH debt).
      destruct (turn debt rest) as [made d']. simpl in *.
      destruct IH as [IH|[Hl Hr]]; [left; exact IH|right].
      split; [now rewrite Hl|]. constructor; [|exact Hr].
      unfold exhausted. destruct (JS.gt (balance c) JS.zero) eqn:Eb; [|reflexivity].
      rewrite <- Ep. symmetry. apply Math_min_positive.
      split; [now apply above_cent_positive | exact Eb].
Qed.

(** The payments of a turn, creditor by creditor. *)
Lemma turn_payment (creditors : list Balance) :
  forall (debt : JS.number) (i : nat) (c : Balance) (x : JS.number),
    nth_error creditors i = Some c ->
    nth_error (fst (turn debt creditors)) i = Some (Some x) ->
    x = JS.Math_min
          (debtAfter debt (paidTo (firstn i creditors)
                                  (firstn i (fst (turn debt creditors)))))
          (balance c)
    /\ JS.gt x JS.zero = true.
Proof.
  induction creditors as [|c0 rest IH]; intros debt i c x Hc Hx;
    [destruct i; discriminate|].
  simpl in Hx |- *. destruct (JS.gt debt JS.cent); [|destruct i; discriminate].
  destruct (paymentTo debt c0) as [x0|] eqn:Ep.
  - specialize (IH (JS.sub debt x0)).
    destruct (turn (JS.sub debt x0) rest) as [made d']. simpl in *.
    destruct i as [|i]; simpl in *.
    + injection Hc as <-. injection Hx as <-. now apply paymentTo_Some.
    + exact (IH i c x Hc Hx).
  - specialize (IH debt).
    destruct (turn debt rest) as [made d']. simpl in *.
    destruct i as [|i]; simpl in *; [discriminate|].
    exact (IH i c x Hc Hx).
Qed.

Lemma paidTo_payees (creditors : list Balance) (made : list (option JS.number)) :
  forall wx, In wx (paidTo creditors made) ->
    exists i c, nth_error creditors i = Some c
                /\ nth_error made i = Some (Some (snd wx)) /\ fst wx = b_name c.
Proof.
  revert made. induction creditors as [|c rest IH]; intros made wx Hin; [destruct Hin|].
  destruct made as [|[x|] made]; simpl in Hin; [destruct Hin| |].
  - destruct Hin as [<-|Hin].
    + exists 0%nat, c. auto.
    + destruct (IH made wx Hin) as (i & c' & H1 & H2 & H3). exists (S i), c'. auto.
  - destruct (IH made wx Hin) as (i & c' & H1 & H2 & H3). exists (S i), c'. auto.
Qed.

Lemma residuals_nth (creditors : list Balance) (made : list (option JS.number)) (i : nat) :
  nth_error (residuals creditors made) i
  = option_map (fun c => match nth_error made i with
                         | Some pay => receive c pay
                         | None => c
                         end)
               (nth_error creditors i).
Proof.
  revert made i. induction creditors as [|c rest IH]; intros made i.
  - destruct made, i; reflexivity.
  - destruct made as [|pay made].
    + simpl. destruct (nth_error (c :: rest) i); simpl; [|reflexivity].
      destruct i; reflexivity.
    + destruct i as [|i]; simpl; [reflexivity | apply IH].
Qed.

Lemma residuals_names (creditors : list Balance) (made : list (option JS.number)) :
  map b_name (residuals creditors made) = map b_name creditors.
Proof.
  revert made. induction creditors as [|c rest IH]; intros [|pay made]; simpl;
    try reflexivity.
  rewrite IH. destruct pay; reflexivity.
Qed.

(** Creditors with no credit left stay as they are. *)
Lemma exhausted_stay (creditors : list Balance) (debt : JS.number) :
  Forall exhausted creditors ->
  Forall exhausted (residuals creditors (fst (turn debt creditors))).
Proof.
  revert debt. induction creditors as [|c rest IH]; intros debt H; simpl; [constructor|].
  inversion H as [|? ? Hc Hr]; subst.
  destruct (JS.gt debt JS.cent); [|exact H].
  rewrite (paymentTo_exhausted debt c Hc). specialize (IH debt Hr).
  destruct (turn debt rest). simpl in *. now constructor.
Qed.

(** What holds of the turns whatever the debtors and the creditors. *)
Lemma turns_debtors (ds creditors : list Balance) :
  map debtor (turns ds creditors) = ds.
Proof.
  revert creditors. induction ds as [|d ds IH]; intros creditors; [reflexivity|].
  rewrite turns_cons. simpl. now rewrite IH.
Qed.

Lemma turns_carriedOver (ds creditors : list Balance) :
  carriedOver creditors (turns ds creditors).
Proof.
  revert creditors. induction ds as [|d ds IH]; intros creditors; [exact I|].
  rewrite turns_cons. simpl. split; [reflexivity | apply IH].
Qed.

Lemma turns_are_turns (ds creditors : list Balance) :
  Forall (fun t => turn (JS.Math_abs (balance (debtor t))) (creditorsBefore t)
                   = (pays t, debtLeft t))
         (turns ds creditors).
Proof.
  revert creditors. induction ds as [|d ds IH]; intros creditors; [constructor|].
  rewrite turns_cons. constructor; [|apply IH].
  unfold turnOf. simpl. now destruct (turn _ _).
Qed.

Lemma residuals_length (creditors : list Balance) (made : list (option JS.number)) :
  List.length (residuals creditors made) = List.length creditors.
Proof.
  rewrite <- (length_map b_name), residuals_names. apply length_map.
Qed.

Lemma turns_lengths (ds creditors : list Balance) :
  Forall (fun t => (List.length (pays t) <= List.length creditors)%nat)
         (turns ds creditors).
Proof.
  remember (List.length creditors) as n eqn:En. revert creditors En.
  induction ds as [|d ds IH]; intros creditors En; [constructor|].
  rewrite turns_cons. constructor; [subst n; apply turn_length|].
  apply IH. unfold creditorsAfter. now rewrite residuals_length.
Qed.

Lemma creditsAfter_names (ds creditors : list Balance) :
  map b_name (creditsAfter creditors (turns ds creditors)) = map b_name creditors.
Proof.
  revert creditors. induction ds as [|d ds IH]; intros creditors; [reflexivity|].
  rewrite turns_cons. unfold creditsAfter. cbn [fold_left].
  fold (creditsAfter (creditorsAfter (turnOf d creditors))
                     (turns ds (creditorsAfter (turnOf d creditors)))).
  rewrite IH. apply residuals_names.
Qed.

Lemma creditsAfter_exhausted (ds creditors : list Balance) :
  Forall exhausted creditors ->
  Forall exhausted (creditsAfter creditors (turns ds creditors)).
Proof.
  revert creditors. induction ds as [|d ds IH]; intros creditors H; [exact H|].
  rewrite turns_cons. unfold creditsAfter. cbn [fold_left].
  apply IH. apply exhausted_stay. exact H.
Qed.

(** When all turns are over, every debtor is left with a debt that is not
    above 0.01, or no creditor is left with a credit above 0. *)
Lemma turns_settled (ds creditors : list Balance) :
  Forall (fun t => JS.gt (debtLeft t) JS.cent = false) (turns ds creditors)
  \/ Forall exhausted (creditsAfter creditors (turns ds creditors)).
Proof.
  revert creditors. induction ds as [|d ds IH]; intros creditors; [left; constructor|].
  rewrite turns_cons. unfold creditsAfter. cbn [fold_left].
  destruct (turn_end creditors (JS.Math_abs (balance d))) as [Hd|[_ He]].
  - destruct (IH (creditorsAfter (turnOf d creditors))) as [H|H];
      [left; constructor; assumption | right; exact H].
  - right. apply creditsAfter_exhausted. exact He.
Qed.

(** The credit of each creditor when all turns are over: its credit less
    the payments it received, in order. *)
Lemma creditsAfter_nth (ds : list Balance) :
  forall (creditors : list Balance) (i : nat) (c : Balance),
    nth_error creditors i = Some c ->
    nth_error (creditsAfter creditors (turns ds creditors)) i
    = Some {| b_name := b_name c;
              balance := fold_left JS.sub (receivedAt i (turns ds creditors)) (balance c) |}.
Proof.
  induction ds as [|d ds IH]; intros creditors i c Hc.
  - simpl. rewrite Hc. now destruct c.
  - rewrite turns_cons. unfold creditsAfter. cbn [fold_left].
    fold (creditsAfter (creditorsAfter (turnOf d creditors))
                       (turns ds (creditorsAfter (turnOf d creditors)))).
    unfold receivedAt. cbn [flat_map].
    fold (receivedAt i (turns ds (creditorsAfter (turnOf d creditors)))).
    rewrite fold_left_app.
    assert (Hn : nth_error (creditorsAfter (turnOf d creditors)) i
                 = Some (match nth_error (pays (turnOf d creditors)) i with
                         | Some pay => receive c pay
                         | None => c
                         end)).
    { unfold creditorsAfter. rewrite residuals_nth. cbn [creditorsBefore turnOf].
      rewrite Hc. reflexivity. }
    rewrite (IH _ i _ Hn).
    destruct (nth_error (pays (turnOf d creditors)) i) as [[x|]|]; reflexivity.
Qed.

Lemma turnOf_paidDown (d : Balance) (creditors : list Balance) :
  paidDown (turnOf d creditors).
Proof.
  unfold paidDown, paidIn, creditorsAfter, debtBefore. cbn [turnOf debtLeft debtor creditorsBefore pays].
  split; [apply turn_debtLeft|]. split.
  - intros i c x Hc Hx.
    destruct (turn_payment creditors _ i c x Hc Hx) as [E Hpos].
    split; [exact Hpos|]. split; [exact E|].
    pose proof (Math_min_le
                  (debtAfter (JS.Math_abs (balance d))
                     (paidTo (firstn i creditors)
                        (firstn i (fst (turn (JS.Math_abs (balance d)) creditors)))))
                  (balance c)) as [H1 H2].
    rewrite <- E in H1, H2. split; assumption.
  - destruct (turn_end creditors (JS.Math_abs (balance d))) as [H|[_ H]]; auto.
Qed.

Lemma turns_paidDown (ds creditors : list Balance) :
  Forall paidDown (turns ds creditors).
Proof.
  revert creditors. induction ds as [|d ds IH]; intros creditors; [constructor|].
  rewrite turns_cons. constructor; [apply turnOf_paidDown | apply IH].
Qed.

(** How a payment above 0 is recorded. *)
Lemma round2_recordedAs (x : JS.number) :
  JS.gt x JS.zero = true -> recordedAs x (round2 x).
Proof.
  unfold recordedAs, round2, Fixed.toFixed2.
  destruct x as [s|s| |s m e]; try destruct s; try discriminate; intros _;
    try reflexivity.
  destruct (Fixed.at_least_1e21 m e); [reflexivity|].
  exists (Fixed.hundredths m e). split; [reflexivity|].
  unfold nearestHundredth. destruct e as [|k|k]; try reflexivity.
  pose proof (hundredths_nearest m k) as H. cbv zeta in H. lia.
Qed.

(** ** The creditor pointer *)

(** Two creditors and two debtors: the first debtor pays both creditors,
    and the second starts again at the first creditor. *)
Definition twoAndTwo : list Player :=
  [ {| name := "W1"; buyIn := "0"; cashOut := "30" |};
    {| name := "W2"; buyIn := "0"; cashOut := "20" |};
    {| name := "L1"; buyIn := "40"; cashOut := "0" |};
    {| name := "L2"; buyIn := "10"; cashOut := "0" |} ].

(** C2 (as stated) fails: on a validated input the creditor indices
    consulted are 0, 1, 0, 1. *)
Lemma pointer_goes_back :
  validated twoAndTwo = true
  /\ consulted (settle twoAndTwo) = [0; 1; 0; 1]%nat
  /\ nondecreasing (consulted (settle twoAndTwo)) = false.
Proof. vm_compute. repeat split. Qed.

(** C2 (amended): the debtors take turns in their sorted order.  In every
    turn the creditor pointer starts at index 0 and goes up by one per
    iteration, so the indices consulted are 0, 1, ..., k-1 for each debtor
    in turn, with k at most the number of creditors.  The array of creditors
    is the same for all debtors: the first turn starts from the sorted
    creditors and every other turn from the creditors as the turn before
    left them, with their residual credits, each creditor at its place.  The
    indices consulted, the transfers and the creditors left by
    [calculatePayments] are those of these turns. *)
Theorem pointer_restarts_for_each_debtor (ps : list Player) :
  let ts := turns (losers ps) (initialWinners ps) in
  map debtor ts = losers ps
  /\ Forall (fun t => turn (JS.Math_abs (balance (debtor t))) (creditorsBefore t)
                      = (pays t, debtLeft t)) ts
  /\ carriedOver (initialWinners ps) ts
  /\ winners (settle ps) = creditsAfter (initialWinners ps) ts
  /\ consulted (settle ps) = flat_map consultedIn ts
  /\ calculatePayments ps = flat_map recordedIn ts
  /\ Forall (fun t => (List.length (pays t) <= List.length (initialWinners ps))%nat) ts
  /\ map b_name (winners (settle ps)) = map b_name (initialWinners ps).
Proof.
  intros ts. unfold calculatePayments. rewrite (settle_turns ps). fold ts.
  cbn [winners paid consulted].
  split; [apply turns_debtors|]. split; [apply turns_are_turns|].
  split; [apply turns_carriedOver|]. split; [reflexivity|].
  split; [reflexivity|]. split; [reflexivity|].
  split; [apply turns_lengths | apply creditsAfter_names].
Qed.

(** The second debtor of [twoAndTwo] starts from what the first has left:
    nothing for W1 and 10 for W2, whom it pays. *)
Example turns_of_twoAndTwo :
  map (fun t => (b_name (debtor t), map balance (creditorsBefore t), pays t))
      (turns (losers twoAndTwo) (initialWinners twoAndTwo))
  = [ ("L1", [JS.of_Z 30; JS.of_Z 20], [Some (JS.of_Z 30); Some (JS.of_Z 10)]);
      ("L2", [JS.zero; JS.of_Z 10], [None; Some (JS.of_Z 10)]) ]
  /\ calculatePayments twoAndTwo
     = [ {| from := "L1"; to := "W1"; amount := JS.of_Z 30 |};
         {| from := "L1"; to := "W2"; amount := JS.of_Z 10 |};
         {| from := "L2"; to := "W2"; amount := JS.of_Z 10 |} ].
Proof. split; vm_compute; reflexivity. Qed.

(** ** Who pays whom *)

Lemma In_losers (ps : list Player) (loser : Balance) :
  In loser (losers ps) ->
  exists p, In p ps /\ name p = b_name loser /\ JS.lt (balanceOf p) JS.zero = true.
Proof.
  unfold losers, playerBalances. rewrite sort_In, filter_In, in_map_iff.
  intros [(p & <- & Hp) Hlt]. exists p. auto.
Qed.

Lemma In_initialWinners (ps : list Player) (w : string) :
  In w (map b_name (initialWinners ps)) ->
  exists q, In q ps /\ name q = w /\ JS.gt (balanceOf q) JS.zero = true.
Proof.
  rewrite in_map_iff. intros (b & <- & Hb). revert Hb.
  unfold initialWinners, playerBalances. rewrite sort_In, filter_In, in_map_iff.
  intros [(q & <- & Hq) Hgt]. exists q. auto.
Qed.

(** Every transfer in the result is made by a debtor of the sorted list to
    a creditor of the sorted array, for a payment that is strictly positive
    before it is rounded. *)
Lemma In_calculatePayments (ps : list Player) (t : Payment) :
  In t (calculatePayments ps) ->
  exists loser w x,
    In loser (losers ps) /\ In w (map b_name (initialWinners ps))
    /\ JS.gt x JS.zero = true
    /\ t = {| from := b_name loser; to := w; amount := round2 x |}.
Proof.
  destruct (settle_runs ps) as (runs & _ & Hp & _ & _ & Hok).
  rewrite Hp, in_flat_map. intros ([loser [xs k]] & Hin & Ht).
  rewrite Forall_forall in Hok. specialize (Hok _ Hin).
  destruct Hok as (Hxs & _). rewrite Forall_forall in Hxs.
  unfold runTransfers in Ht. simpl in Ht. apply in_map_iff in Ht.
  destruct Ht as ([w x] & <- & Hwx). destruct (Hxs _ Hwx) as [Hgt Hw].
  exists loser, w, x. split; [eapply in_combine_l; eassumption|]. auto.
Qed.

Lemma validated_NoDup (ps : list Player) :
  validated ps = true -> NoDup (normalizedNames ps).
Proof.
  unfold validated. rewrite !andb_true_iff, negb_true_iff.
  intros [[H _] _]. now apply hasDuplicateNames_false_NoDup.
Qed.

Lemma same_name_same_player (ps : list Player) (p q : Player) :
  NoDup (normalizedNames ps) -> In p ps -> In q ps -> name p = name q -> p = q.
Proof.
  intros Hnd Hp Hq E.
  apply (NoDup_map_injective (fun r => Str.trim (Str.toLowerCase (name r))) ps p q
           Hnd Hp Hq).
  now rewrite E.
Qed.

(** C7: on a validated input every transfer goes from a player whose net
    balance is strictly negative to a player whose net balance is strictly
    positive (the only players of these names), and so never from a player
    to that same player. *)
Theorem transfers_from_debtor_to_creditor (ps : list Player) (t : Payment) :
  validated ps = true ->
  In t (calculatePayments ps) ->
  (exists p, In p ps /\ name p = from t /\ JS.lt (balanceOf p) JS.zero = true
             /\ forall p', In p' ps -> name p' = from t -> p' = p)
  /\ (exists q, In q ps /\ name q = to t /\ JS.gt (balanceOf q) JS.zero = true
                /\ forall q', In q' ps -> name q' = to t -> q' = q)
  /\ from t <> to t.
Proof.
  intros Hv Ht. apply validated_NoDup in Hv.
  destruct (In_calculatePayments ps t Ht) as (loser & w & x & Hl & Hw & _ & ->).
  destruct (In_losers ps loser Hl) as (p & Hp & Hpn & Hplt).
  destruct (In_initialWinners ps w Hw) as (q & Hq & Hqn & Hqgt).
  simpl. split; [|split].
  - exists p. repeat split; auto.
    intros p' Hp' E. apply (same_name_same_player ps); auto. congruence.
  - exists q. repeat split; auto.
    intros q' Hq' E. apply (same_name_same_player ps); auto. congruence.
  - intros E. assert (p = q) by (apply (same_name_same_player ps); auto; congruence).
    subst q. exact (lt_gt_zero_exclusive _ Hplt Hqgt).
Qed.

(** The theorem at the two-creditor, two-debtor session: its last
    transfer. *)
Lemma transfers_from_debtor_to_creditor_witness :
  let t := {| from := "L2"; to := "W2"; amount := JS.of_Z 10 |} in
  (exists p, In p twoAndTwo /\ name p = from t /\ JS.lt (balanceOf p) JS.zero = true
             /\ forall p', In p' twoAndTwo -> name p' = from t -> p' = p)
  /\ (exists q, In q twoAndTwo /\ name q = to t /\ JS.gt (balanceOf q) JS.zero = true
                /\ forall q', In q' twoAndTwo -> name q' = to t -> q' = q)
  /\ from t <> to t.
Proof.
  apply (transfers_from_debtor_to_creditor twoAndTwo).
  - vm_compute. reflexivity.
  - vm_compute. right. right. left. reflexivity.
Defined.

(** ** The amounts recorded *)




(** A session in whole cents: W1 wins 0.20, and L1 loses 0.30 - 0.10,
    which is 0.19999999999999998. *)
Definition wholeCents : list Player :=
  [ {| name := "W2"; buyIn := "0"; cashOut := "5" |};
    {| name := "W1"; buyIn := "0"; cashOut := "0.2" |};
    {| name := "W3"; buyIn := "0"; cashOut := "0.02" |};
    {| name := "L2"; buyIn := "5"; cashOut := "0" |};
    {| name := "L1"; buyIn := "0.3"; cashOut := "0.1" |};
    {| name := "L3"; buyIn := "0.02"; cashOut := "0" |} ].

(** C6: the code breaks the claim.  On a validated input in whole cents, L3
    pays W1 what is left of W1's credit after L1, about 2.8e-17: the guard
    [payment > 0] lets it through, and the transfer is recorded with amount
    0. *)
Lemma transfer_of_amount_zero :
  validated wholeCents = true
  /\ nth_error (calculatePayments wholeCents) 2
     = Some {| from := "L3"; to := "W1"; amount := JS.zero |}
  /\ exists t, In t (calculatePayments wholeCents)
               /\ JS.gt (amount t) JS.zero = false.
Proof.
  split; [vm_compute; reflexivity|]. split; [vm_compute; reflexivity|].
  exists {| from := "L3"; to := "W1"; amount := JS.zero |}.
  split; [vm_compute; tauto | reflexivity].
Qed.



(** ** Conservation, as the specification words it *)

(** A creditor owed 0.02 by two debtors who owe 0.01 each. *)
Definition twoCents : list Player :=
  [ {| name := "W"; buyIn := "0"; cashOut := "0.02" |};
    {| name := "L1"; buyIn := "0.01"; cashOut := "0" |};
    {| name := "L2"; buyIn := "0.01"; cashOut := "0" |} ].

(** A debtor who owes 3.012 to three creditors owed 1.004 each. *)
Definition tenthsOfCents : list Player :=
  [ {| name := "W1"; buyIn := "0"; cashOut := "1.004" |};
    {| name := "W2"; buyIn := "0"; cashOut := "1.004" |};
    {| name := "W3"; buyIn := "0"; cashOut := "1.004" |};
    {| name := "L"; buyIn := "3.012"; cashOut := "0" |} ].

(** C1 (as stated) fails on validated inputs.  In [twoCents] no debtor owes
    more than 0.01, so nothing is paid, and W receives 0 of the 0.02 it is
    owed.  In [tenthsOfCents] L pays 1.004 three times, recorded as 1.00
    each: 3.00 of the 3.012 it owes. *)
Lemma conservation_fails :
  (validated twoCents = true
   /\ calculatePayments twoCents = []
   /\ ~ conserves twoCents (calculatePayments twoCents))
  /\ (validated tenthsOfCents = true
      /\ sumFrom "L" (calculatePayments tenthsOfCents) = JS.of_Z 3
      /\ ~ conserves tenthsOfCents (calculatePayments tenthsOfCents)).
Proof.
  split.
  - split; [vm_compute; reflexivity|]. split; [vm_compute; reflexivity|].
    intros H.
    destruct (H {| name := "W"; buyIn := "0"; cashOut := "0.02" |}) as [_ Hc];
      [left; reflexivity|].
    specialize (Hc eq_refl). vm_compute in Hc. discriminate.
  - split; [vm_compute; reflexivity|]. split; [vm_compute; reflexivity|].
    intros H.
    destruct (H {| name := "L"; buyIn := "3.012"; cashOut := "0" |}) as [Hd _];
      [right; right; right; left; reflexivity|].
    specialize (Hd eq_refl). vm_compute in Hd. discriminate.
Qed.

(** ** Scenarios *)

Lemma filter_none {A : Type} (f : A -> bool) (l : list A) :
  (forall x, In x l -> f x = false) -> filter f l = [].
Proof.
  induction l as [|y l IH]; simpl; intros H; [reflexivity|].
  rewrite (H y (or_introl eq_refl)). apply IH. intros x Hx. apply H. now right.
Qed.

Lemma losers_none (ps : list Player) :
  (forall p, In p ps -> JS.lt (balanceOf p) JS.zero = false) -> losers ps = [].
Proof.
  intros H. unfold losers. rewrite filter_none; [reflexivity|].
  unfold playerBalances. intros b Hb. apply in_map_iff in Hb.
  destruct Hb as (p & <- & Hp). simpl. now apply H.
Qed.


(** Scenario B with buy-ins and cash-outs that give these balances, and
    scenario C. *)
Example scenario_B :
  calculatePayments
    [ {| name := "A"; buyIn := "20"; cashOut := "50" |};
      {| name := "B"; buyIn := "20"; cashOut := "40" |};
      {| name := "C"; buyIn := "60"; cashOut := "10" |} ]
  = [ {| from := "C"; to := "A"; amount := JS.of_Z 30 |};
      {| from := "C"; to := "B"; amount := JS.of_Z 20 |} ].
Proof. vm_compute. reflexivity. Qed.

Example scenario_C :
  calculatePayments
    [ {| name := "A"; buyIn := "20"; cashOut := "20" |};
      {| name := "B"; buyIn := "0"; cashOut := "0" |};
      {| name := "C"; buyIn := "7.5"; cashOut := "7.50" |} ]
  = [].
Proof. vm_compute. reflexivity. Qed.

(** ** The store *)

Lemma nth_error_set_other {A : Type} (a : list A) (i j : nat) (x : A) :
  i <> j -> nth_error (Arr.set a i x) j = nth_error a j.
Proof.
  revert i j. induction a as [|y a IH]; intros [|i] [|j] H; simpl;
    try reflexivity; try contradiction.
  apply IH. congruence.
Qed.

Lemma nth_error_set_same {A : Type} (a : list A) (i : nat) (x : A) :
  (i < List.length a)%nat -> nth_error (Arr.set a i x) i = Some x.
Proof.
  revert i. induction a as [|y a IH]; intros [|i] H; simpl in *; try lia; auto.
  apply IH. lia.
Qed.

Lemma Forall2_set {A B : Type} (R : A -> B -> Prop) (l1 : list A) (l2 : list B)
    (i : nat) (x : A) (y : B) :
  Forall2 R l1 l2 -> R x y -> Forall2 R (Arr.set l1 i x) (Arr.set l2 i y).
Proof.
  intros H Hxy. revert i. induction H as [|a b l1 l2 Hab H IH]; intros [|i]; simpl;
    constructor; auto.
Qed.

Lemma Forall2_nth_error {A B : Type} (R : A -> B -> Prop) (l1 : list A) (l2 : list B)
    (i : nat) (y : B) :
  Forall2 R l1 l2 -> nth_error l2 i = Some y ->
  exists x, nth_error l1 i = Some x /\ R x y.
Proof.
  intros H. revert i. induction H as [|a b l1 l2 Hab H IH]; intros [|i]; simpl;
    try discriminate.
  - intros [= <-]. eauto.
  - apply IH.
Qed.

Section StoreFacts.
Import Heap.

Lemma bind_eq {A B : Type} (m : M A) (k : A -> M B) (h h1 : store) (a : A) :
  m h = (a, h1) -> bind m k h = k a h1.
Proof. unfold bind. now intros ->. Qed.

Lemma extends_refl (n : nat) (h : store) : extends n h h.
Proof. repeat split; auto. Qed.

Lemma extends_trans (n : nat) (h1 h2 h3 : store) :
  extends n h1 h2 -> extends n h2 h3 -> extends n h1 h3.
Proof.
  intros (L1 & F1 & O1) (L2 & F2 & O2). repeat split.
  - lia.
  - intros l Hl. now rewrite F2, F1.
  - intros l o Ho Hobj. apply O2; auto.
Qed.

Lemma extends_app (n : nat) (h more : store) :
  (n <= List.length h)%nat -> extends n h (h ++ more).
Proof.
  intros Hn. repeat split.
  - rewrite length_app. lia.
  - intros l Hl. apply nth_error_app1. lia.
  - intros l o Ho _. rewrite nth_error_app1; [exact Ho|].
    apply nth_error_Some. congruence.
Qed.

Lemma extends_write (n : nat) (h : store) (a : loc) (es es' : list loc) :
  isArray h a es -> (n <= a)%nat -> extends n h (Arr.set h a (ArrayObj es')).
Proof.
  intros Ha Hn. repeat split.
  - now rewrite set_length.
  - intros l Hl. apply nth_error_set_other. lia.
  - intros l o Ho Hobj. rewrite nth_error_set_other; [exact Ho|].
    intros ->. unfold isArray in Ha. rewrite Ha in Ho. injection Ho as <-. exact Hobj.
Qed.

Lemma extends_weaken (n m : nat) (h h' : store) :
  (m <= n)%nat -> extends n h h' -> extends m h h'.
Proof.
  intros Hm (L & F & O). repeat split; auto. intros l Hl. apply F. lia.
Qed.

Lemma writeArray_eq (h : store) (a : loc) (es es' : list loc) :
  isArray h a es ->
  writeArray a es' h = (tt, Arr.set h a (ArrayObj es'))
  /\ isArray (Arr.set h a (ArrayObj es')) a es'.
Proof.
  intros Ha. unfold writeArray, isArray in *. rewrite Ha. split; [reflexivity|].
  apply nth_error_set_same. apply nth_error_Some. congruence.
Qed.

Lemma elemsAt_isArray (h : store) (a : loc) (es : list loc) :
  isArray h a es -> elemsAt h a = es.
Proof. unfold isArray, elemsAt. now intros ->. Qed.

Lemma isArray_app (h more : store) (a : loc) (es : list loc) :
  isArray h a es -> isArray (h ++ more) a es.
Proof.
  unfold isArray. intros H. rewrite nth_error_app1; [exact H|].
  apply nth_error_Some. congruence.
Qed.

Lemma isArray_new (h : store) (es : list loc) :
  isArray (h ++ [ArrayObj es]) (List.length h) es.
Proof.
  unfold isArray. rewrite nth_error_app2, Nat.sub_diag by lia. reflexivity.
Qed.

Lemma isArray_write_other (h : store) (a b : loc) (es es' : list loc) :
  isArray h a es -> a <> b -> isArray (Arr.set h b (ArrayObj es')) a es.
Proof.
  unfold isArray. intros H Hab. rewrite nth_error_set_other; auto.
Qed.

Lemma holdsPlayers_extends (n : nat) (h h' : store) ls ps :
  extends n h h' -> holdsPlayers h ls ps -> holdsPlayers h' ls ps.
Proof.
  intros (_ & _ & O) H. unfold holdsPlayers in *.
  eapply Forall2_impl; [|exact H]. intros l p Hl. simpl in Hl. now apply O.
Qed.

Lemma holdsBalances_extends (n : nat) (h h' : store) ls bs :
  extends n h h' -> holdsBalances h ls bs -> holdsBalances h' ls bs.
Proof.
  intros (_ & _ & O) H. unfold holdsBalances in *.
  eapply Forall2_impl; [|exact H]. intros l p Hl. simpl in Hl. now apply O.
Qed.

Lemma holdsPayments_extends (n : nat) (h h' : store) ls ts :
  extends n h h' -> holdsPayments h ls ts -> holdsPayments h' ls ts.
Proof.
  intros (_ & _ & O) H. unfold holdsPayments in *.
  eapply Forall2_impl; [|exact H]. intros l p Hl. simpl in Hl. now apply O.
Qed.

Lemma mapM_readBalance (h : store) (ls : list loc) :
  mapM readBalance ls h = (map (balanceAt h) ls, h).
Proof.
  induction ls as [|l ls IH]; simpl; [reflexivity|].
  unfold bind, readBalance at 1. rewrite IH. reflexivity.
Qed.

Lemma holdsBalances_balanceAt (h : store) ls bs :
  holdsBalances h ls bs -> map (balanceAt h) ls = bs.
Proof.
  induction 1 as [|l b ls bs Hl H IH]; simpl; [reflexivity|].
  unfold balanceAt at 1. now rewrite Hl, IH.
Qed.

End StoreFacts.

(** ** Arrays of references *)

Section Pairs.
Context {A B : Type}.
Variable R : A -> B -> Prop.

Definition related (xy : A * B) : Prop := R (fst xy) (snd xy).

Lemma Forall2_combine (l1 : list A) (l2 : list B) :
  Forall2 R l1 l2 -> Forall related (combine l1 l2) /\ map snd (combine l1 l2) = l2.
Proof.
  induction 1 as [|x y l1 l2 Hxy H [IH1 IH2]]; simpl; [split; [constructor | reflexivity]|].
  split; [constructor; assumption | now rewrite IH2].
Qed.

Lemma Forall_related (s : list (A * B)) :
  Forall related s -> Forall2 R (map fst s) (map snd s).
Proof.
  induction 1 as [|xy s Hxy H IH]; simpl; constructor; assumption.
Qed.

Lemma filter_snd (test : B -> bool) (s : list (A * B)) :
  map snd (filter (fun xy => test (snd xy)) s) = filter test (map snd s).
Proof.
  induction s as [|xy s IH]; simpl; [reflexivity|].
  destruct (test (snd xy)); simpl; now rewrite IH.
Qed.

Lemma insert_snd (cmp : B -> B -> JS.number) (xy : A * B) (s : list (A * B)) :
  map snd (Arr.insert (fun x y => cmp (snd x) (snd y)) xy s)
  = Arr.insert cmp (snd xy) (map snd s).
Proof.
  induction s as [|z s IH]; simpl; [reflexivity|].
  destruct (JS.gt (cmp (snd xy) (snd z)) JS.zero); simpl; [now rewrite IH | reflexivity].
Qed.

Lemma sort_snd (cmp : B -> B -> JS.number) (s : list (A * B)) :
  map snd (Arr.sort (fun x y => cmp (snd x) (snd y)) s) = Arr.sort cmp (map snd s).
Proof.
  unfold Arr.sort. induction s as [|z s IH]; simpl; [reflexivity|].
  now rewrite insert_snd, IH.
Qed.

(** Filtering the references by what they point at. *)
Lemma Forall2_filter (test : B -> bool) (l1 : list A) (l2 : list B) :
  Forall2 R l1 l2 ->
  Forall2 R (map fst (filter (fun xy => test (snd xy)) (combine l1 l2)))
            (filter test l2).
Proof.
  intros H. destruct (Forall2_combine l1 l2 H) as [Hrel Hsnd].
  rewrite <- Hsnd at 2. rewrite <- filter_snd. apply Forall_related.
  apply Forall_forall. intros xy Hin. apply filter_In in Hin.
  rewrite Forall_forall in Hrel. now apply Hrel.
Qed.

(** Sorting the references by what they point at. *)
Lemma Forall2_sort (cmp : B -> B -> JS.number) (l1 : list A) (l2 : list B) :
  Forall2 R l1 l2 ->
  Forall2 R (map fst (Arr.sort (fun x y => cmp (snd x) (snd y)) (combine l1 l2)))
            (Arr.sort cmp l2).
Proof.
  intros H. destruct (Forall2_combine l1 l2 H) as [Hrel Hsnd].
  rewrite <- Hsnd at 2. rewrite <- sort_snd. apply Forall_related.
  apply Forall_forall. intros xy Hin. apply sort_In in Hin.
  rewrite Forall_forall in Hrel. now apply Hrel.
Qed.

End Pairs.

Section Stages.
Import Heap.

Definition balanceObjOf (p : Player) : object :=
  BalanceObj {| b_name := name p; balance := balanceOf p |}.

Lemma mapM_new_balances (ls : list loc) (ps : list Player) (h : store) :
  holdsPlayers h ls ps ->
  mapM (fun l => bind (readPlayer l) (fun player =>
          new (BalanceObj {| b_name := name player; balance := balanceOf player |})))
       ls h
  = (seq (List.length h) (List.length ls), h ++ map balanceObjOf ps).
Proof.
  set (f := fun l : loc => bind (readPlayer l) (fun player =>
          new (BalanceObj {| b_name := name player; balance := balanceOf player |}))).
  revert ps h. induction ls as [|l ls IH]; intros ps h H;
    inversion H as [|? p ? ps' Hl H']; subst.
  - simpl. now rewrite app_nil_r.
  - assert (Ef : f l h = (List.length h, h ++ [balanceObjOf p])).
    { unfold f, bind, readPlayer, playerAt, new. rewrite Hl. reflexivity. }
    assert (H'' : holdsPlayers (h ++ [balanceObjOf p]) ls ps').
    { eapply holdsPlayers_extends; [apply (extends_app 0); lia | exact H']. }
    simpl. rewrite (bind_eq _ _ _ _ _ Ef), (bind_eq _ _ _ _ _ (IH ps' _ H'')).
    unfold ret. rewrite length_app, Nat.add_1_r, <- app_assoc. reflexivity.
Qed.

Lemma holdsBalances_new (h : store) (ps : list Player) :
  holdsBalances (h ++ map balanceObjOf ps)
                (seq (List.length h) (List.length ps)) (playerBalances ps).
Proof.
  revert h. induction ps as [|p ps IH]; intros h; simpl; constructor.
  - rewrite nth_error_app2, Nat.sub_diag by lia. reflexivity.
  - specialize (IH (h ++ [balanceObjOf p])).
    rewrite length_app, Nat.add_1_r, <- app_assoc in IH. exact IH.
Qed.

Lemma mapToBalances_spec (h : store) (players : loc) (ls : list loc) (ps : list Player) :
  isArray h players ls -> holdsPlayers h ls ps ->
  exists pb bl h',
    mapToBalances players h = (pb, h')
    /\ extends (List.length h) h h'
    /\ isArray h' pb bl
    /\ holdsBalances h' bl (playerBalances ps).
Proof.
  intros Ha Hp. unfold mapToBalances.
  rewrite (bind_eq _ _ h h ls) by (unfold readArray; now rewrite (elemsAt_isArray h players ls Ha)).
  rewrite (bind_eq _ _ _ _ _ (mapM_new_balances ls ps h Hp)).
  unfold new. set (h1 := h ++ map balanceObjOf ps).
  exists (List.length h1), (seq (List.length h) (List.length ls)), (h1 ++ [ArrayObj (seq (List.length h) (List.length ls))]).
  split; [reflexivity|]. split; [|split].
  - unfold h1. rewrite <- app_assoc. apply extends_app. lia.
  - apply isArray_new.
  - apply (holdsBalances_extends 0 h1); [apply extends_app; lia|].
    unfold h1. pose proof (Forall2_length Hp) as Hlen. unfold loc in *.
    rewrite Hlen. apply holdsBalances_new.
Qed.

Lemma filterArr_spec (test : Balance -> bool) (h : store) (a : loc) ls bs :
  isArray h a ls -> holdsBalances h ls bs ->
  exists ls',
    filterArr test a h = (List.length h, h ++ [ArrayObj ls'])
    /\ holdsBalances h ls' (filter test bs).
Proof.
  intros Ha Hb. unfold filterArr.
  rewrite (bind_eq _ _ h h ls) by (unfold readArray; now rewrite (elemsAt_isArray h a ls Ha)).
  rewrite (bind_eq _ _ _ _ _ (mapM_readBalance h ls)).
  rewrite (holdsBalances_balanceAt h ls bs Hb).
  eexists. split; [reflexivity|]. now apply Forall2_filter.
Qed.

Lemma sortArr_spec (cmp : Balance -> Balance -> JS.number) (h : store) (a : loc) ls bs :
  isArray h a ls -> holdsBalances h ls bs ->
  exists ls',
    sortArr cmp a h = (a, Arr.set h a (ArrayObj ls'))
    /\ isArray (Arr.set h a (ArrayObj ls')) a ls'
    /\ holdsBalances h ls' (Arr.sort cmp bs).
Proof.
  intros Ha Hb. unfold sortArr.
  rewrite (bind_eq _ _ h h ls) by (unfold readArray; now rewrite (elemsAt_isArray h a ls Ha)).
  rewrite (bind_eq _ _ _ _ _ (mapM_readBalance h ls)).
  rewrite (holdsBalances_balanceAt h ls bs Hb).
  eexists. destruct (writeArray_eq h a ls
    (map fst (Arr.sort (fun x y => cmp (snd x) (snd y)) (combine ls bs))) Ha) as [Ew Hw].
  rewrite (bind_eq _ _ _ _ _ Ew).
  split; [reflexivity|]. split; [exact Hw|]. now apply Forall2_sort.
Qed.

(** [a.filter(test).sort(cmp)]: a new array, sorted in place, of objects
    that were in the store already. *)
Lemma filter_sort_spec (n : nat) (test : Balance -> bool)
    (cmp : Balance -> Balance -> JS.number) (h : store) (a : loc) ls bs :
  (n <= List.length h)%nat -> isArray h a ls -> holdsBalances h ls bs ->
  exists ls' h',
    bind (filterArr test a) (sortArr cmp) h = (List.length h, h')
    /\ List.length h' = S (List.length h)
    /\ extends n h h'
    /\ isArray h' (List.length h) ls'
    /\ holdsBalances h' ls' (Arr.sort cmp (filter test bs)).
Proof.
  intros Hn Ha Hb.
  destruct (filterArr_spec test h a ls bs Ha Hb) as (l1 & E1 & H1).
  rewrite (bind_eq _ _ _ _ _ E1).
  assert (Hext : extends n h (h ++ [ArrayObj l1])) by now apply extends_app.
  destruct (sortArr_spec cmp (h ++ [ArrayObj l1]) (List.length h) l1 (filter test bs))
    as (l2 & E2 & Harr & H2).
  { apply isArray_new. }
  { eapply holdsBalances_extends; eassumption. }
  exists l2, (Arr.set (h ++ [ArrayObj l1]) (List.length h) (ArrayObj l2)).
  assert (Hext2 : extends n (h ++ [ArrayObj l1])
                    (Arr.set (h ++ [ArrayObj l1]) (List.length h) (ArrayObj l2))).
  { eapply extends_write; [apply isArray_new | exact Hn]. }
  split; [exact E2|]. split; [rewrite set_length, length_app; simpl; lia|].
  split; [eapply extends_trans; eassumption|]. split; [exact Harr|].
  eapply holdsBalances_extends; eassumption.
Qed.

End Stages.

(** ** The loops over the store *)

Section HeapLoop.
Local Abbreviation pureWhileLoop := whileLoop (only parsing).
Import Heap.

Variable n : nat.
Variables W P : loc.
Hypothesis W_not_P : W <> P.
Hypothesis W_fresh : (n <= W)%nat.
Hypothesis P_fresh : (n <= P)%nat.

(** The arrays at [W] and [P] hold the winners and the payments of [st]. *)
Definition represents (h : store) (st : Settlement) : Prop :=
  exists wl pl,
    isArray h W wl /\ holdsBalances h wl (winners st)
    /\ isArray h P pl /\ holdsPayments h pl (paid st).

(** One payment: a new payment object pushed on [payments], and a new
    balance object put in place of the winner's. *)
Lemma pay_spec (h : store) (st : Settlement) (t : Payment) (w' : Balance)
    (i : nat) (seen : list nat) :
  (n <= List.length h)%nat -> represents h st ->
  exists h1 h2 h3 h4,
    new (PaymentObj t) h = (List.length h, h1)
    /\ push P (List.length h) h1 = (tt, h2)
    /\ new (BalanceObj w') h2 = (List.length h2, h3)
    /\ setIndex W i (List.length h2) h3 = (tt, h4)
    /\ extends n h h4
    /\ represents h4 {| winners := Arr.set (winners st) i w';
                        paid := paid st ++ [t]; consulted := seen |}.
Proof.
  intros Hn (wl & pl & HW & Hws & HP & Hts).
  set (h1 := h ++ [PaymentObj t]).
  set (h2 := Arr.set h1 P (ArrayObj (pl ++ [List.length h]))).
  set (h3 := h2 ++ [BalanceObj w']).
  set (h4 := Arr.set h3 W (ArrayObj (Arr.set wl i (List.length h2)))).
  assert (HP1 : isArray h1 P pl) by now apply isArray_app.
  assert (HW1 : isArray h1 W wl) by now apply isArray_app.
  destruct (writeArray_eq h1 P pl (pl ++ [List.length h]) HP1) as [E2 HP2].
  assert (HW2 : isArray h2 W wl) by now apply isArray_write_other.
  assert (HW3 : isArray h3 W wl) by now apply isArray_app.
  assert (HP3 : isArray h3 P (pl ++ [List.length h])) by now apply isArray_app.
  destruct (writeArray_eq h3 W wl (Arr.set wl i (List.length h2)) HW3) as [E4 HW4].
  assert (X1 : extends n h h1) by now apply extends_app.
  assert (X2 : extends n h1 h2) by (eapply extends_write; eassumption).
  assert (L2 : (n <= List.length h2)%nat) by (destruct X1, X2; lia).
  assert (X3 : extends n h2 h3) by now apply extends_app.
  assert (X4 : extends n h3 h4) by (eapply extends_write; eassumption).
  assert (X14 : extends n h1 h4) by (eauto using extends_trans).
  assert (X : extends n h h4) by (eauto using extends_trans).
  exists h1, h2, h3, h4.
  split; [reflexivity|].
  split; [unfold push; rewrite (bind_eq _ _ h1 h1 pl); [exact E2|];
          unfold readArray; now rewrite (elemsAt_isArray _ _ _ HP1)|].
  split; [reflexivity|].
  split; [unfold setIndex; rewrite (bind_eq _ _ h3 h3 wl); [exact E4|];
          unfold readArray; now rewrite (elemsAt_isArray _ _ _ HW3)|].
  split; [exact X|].
  exists (Arr.set wl i (List.length h2)), (pl ++ [List.length h]). simpl.
  split; [exact HW4|]. split; [|split].
  - apply Forall2_set.
    + eapply holdsBalances_extends; eassumption.
    + destruct X4 as (_ & _ & O). apply O; [|exact I].
      unfold h3. rewrite nth_error_app2, Nat.sub_diag by lia. reflexivity.
  - apply isArray_write_other; [exact HP3 | congruence].
  - apply Forall2_app.
    + eapply holdsPayments_extends; eassumption.
    + constructor; [|constructor].
      destruct X14 as (_ & _ & O). apply O; [|exact I].
      unfold h1. rewrite nth_error_app2, Nat.sub_diag by lia. reflexivity.
Qed.

(** The [while] loop over the store does what [whileLoop] does. *)
Lemma whileLoop_represents (loser : Balance) (fuel : nat) :
  forall (rem : JS.number) (i : nat) (h : store) (st : Settlement),
    (n <= List.length h)%nat -> represents h st ->
    exists h',
      Heap.whileLoop fuel loser W P rem i h = (tt, h')
      /\ extends n h h'
      /\ represents h'
           (shared (pureWhileLoop fuel loser
                      {| remainingDebt := rem; winnerIndex := i; shared := st |})).
Proof.
  induction fuel as [|fuel IH]; intros rem i h st Hn Hrep.
  - exists h. split; [reflexivity|]. split; [apply extends_refl | exact Hrep].
  - pose proof Hrep as (wl & pl & HW & Hws & HP & Hts).
    simpl. rewrite (bind_eq _ _ h h wl)
      by (unfold readArray; now rewrite (elemsAt_isArray _ _ _ HW)).
    unfold loopCondition. simpl remainingDebt. simpl winnerIndex. simpl shared.
    pose proof (Forall2_length Hws) as Hlen. unfold loc in *. rewrite Hlen.
    destruct (JS.gt rem JS.cent && (i <? List.length (winners st))%nat) eqn:Ec.
    2:{ exists h. split; [reflexivity|]. split; [apply extends_refl | exact Hrep]. }
    destruct (nth_error (winners st) i) as [winner|] eqn:En.
    2:{ apply andb_true_iff in Ec. destruct Ec as [_ Ec]. apply Nat.ltb_lt in Ec.
        apply nth_error_None in En. lia. }
    destruct (Forall2_nth_error _ _ _ _ _ Hws En) as (w & Ew & Hw).
    rewrite Ew.
    rewrite (bind_eq _ _ h h winner)
      by (unfold readBalance, balanceAt; now rewrite Hw).
    unfold loopBody. simpl remainingDebt. simpl winnerIndex. simpl shared.
    destruct (JS.gt (JS.Math_min rem (balance winner)) JS.zero) eqn:Eg.
    + destruct (pay_spec h st
                  {| from := b_name loser; to := b_name winner;
                     amount := Fixed.Number (Fixed.toFixed2
                                 (JS.Math_min rem (balance winner))) |}
                  {| b_name := b_name winner;
                     balance := JS.sub (balance winner)
                                  (JS.Math_min rem (balance winner)) |}
                  i (consulted st ++ [i]) Hn Hrep)
        as (h1 & h2 & h3 & h4 & E1 & E2 & E3 & E4 & X & Hrep4).
      rewrite (bind_eq _ _ _ _ _ E1), (bind_eq _ _ _ _ _ E2),
              (bind_eq _ _ _ _ _ E3), (bind_eq _ _ _ _ _ E4).
      destruct (IH (JS.sub rem (JS.Math_min rem (balance winner))) (S i) h4 _
                  ltac:(destruct X; lia) Hrep4) as (h' & E' & X' & Hrep').
      exists h'. split; [exact E'|]. split; [eapply extends_trans; eassumption|].
      exact Hrep'.
    + destruct (IH rem (S i) h
                  {| winners := winners st; paid := paid st;
                     consulted := consulted st ++ [i] |} Hn)
        as (h' & E' & X' & Hrep').
      { exists wl, pl. simpl. auto. }
      exists h'. auto.
Qed.

(** [losers.forEach] over the store does what the fold of [forEachStep]
    does. *)
Lemma forEach_represents (ll : list loc) (ls : list Balance) :
  forall (h : store) (st : Settlement),
    (n <= List.length h)%nat -> represents h st -> holdsBalances h ll ls ->
    exists h',
      forEach (fun l =>
                 bind (readBalance l) (fun loser =>
                 bind (readArray W) (fun ws =>
                   Heap.whileLoop (List.length ws) loser W P
                                  (JS.Math_abs (balance loser)) 0))) ll h
      = (tt, h')
      /\ extends n h h'
      /\ represents h' (fold_left forEachStep ls st).
Proof.
  revert ls. induction ll as [|l ll IH]; intros ls h st Hn Hrep Hls;
    inversion Hls as [|? loser ? ls' Hl Hls']; subst.
  - exists h. split; [reflexivity|]. split; [apply extends_refl | exact Hrep].
  - pose proof Hrep as (wl & pl & HW & Hws & HP & Hts).
    simpl forEach. simpl fold_left.
    destruct (whileLoop_represents loser (List.length (winners st))
                (JS.Math_abs (balance loser)) 0 h st Hn Hrep)
      as (h1 & E1 & X1 & Hrep1).
    assert (Estep : bind (readBalance l) (fun loser0 =>
                    bind (readArray W) (fun ws =>
                      Heap.whileLoop (List.length ws) loser0 W P
                                     (JS.Math_abs (balance loser0)) 0)) h
                    = (tt, h1)).
    { rewrite (bind_eq _ _ h h loser)
        by (unfold readBalance, balanceAt; now rewrite Hl).
      rewrite (bind_eq _ _ h h wl)
        by (unfold readArray; now rewrite (elemsAt_isArray _ _ _ HW)).
      pose proof (Forall2_length Hws) as Hlen. unfold loc in *. rewrite Hlen.
      exact E1. }
    rewrite (bind_eq _ _ _ _ _ Estep).
    destruct (IH ls' h1 (forEachStep st loser)) as (h' & E' & X' & Hrep').
    + destruct X1; lia.
    + exact Hrep1.
    + eapply holdsBalances_extends; eassumption.
    + exists h'. split; [exact E'|]. split; [eapply extends_trans; eassumption|].
      exact Hrep'.
Qed.

End HeapLoop.

(** ** calculatePayments over the store *)

Lemma isArray_extends (h h' : Heap.store) (a : Heap.loc) (es : list Heap.loc) :
  Heap.extends (List.length h) h h' -> Heap.isArray h a es -> Heap.isArray h' a es.
Proof.
  intros (_ & F & _) Ha. unfold Heap.isArray in *. rewrite F; [exact Ha|].
  apply nth_error_Some. congruence.
Qed.

(** Over a store that holds the entries [ps], the function allocates and
    fills its own arrays, changes nothing that was in the store, and
    returns a new array holding the transfers of [calculatePayments ps]. *)
Lemma heap_calculatePayments_spec (h : Heap.store) (players : Heap.loc)
    (ls : list Heap.loc) (ps : list Player) :
  Heap.isArray h players ls -> Heap.holdsPlayers h ls ps ->
  exists r tl h',
    Heap.calculatePayments players h = (r, h')
    /\ Heap.extends (List.length h) h h'
    /\ (List.length h <= r)%nat
    /\ Heap.isArray h' r tl
    /\ Heap.holdsPayments h' tl (calculatePayments ps).
Proof.
  intros Ha Hp. set (n := List.length h).
  destruct (mapToBalances_spec h players ls ps Ha Hp) as (pb & bl & hA & EA & XA & HpbA & HblA).
  assert (LA : (n <= List.length hA)%nat) by (destruct XA; unfold n; lia).
  destruct (filter_sort_spec (List.length hA) (fun p => JS.gt (balance p) JS.zero)
              (fun a b => JS.sub (balance b) (balance a)) hA pb bl _
              (le_n _) HpbA HblA) as (wl & hW & EW & LW & XW & HWW & HwlW).
  assert (HpbW : Heap.isArray hW pb bl) by (eapply isArray_extends; eassumption).
  assert (HblW : Heap.holdsBalances hW bl (playerBalances ps))
    by (eapply holdsBalances_extends; eassumption).
  destruct (filter_sort_spec (List.length hW) (fun p => JS.lt (balance p) JS.zero)
              (fun a b => JS.sub (balance a) (balance b)) hW pb bl _
              (le_n _) HpbW HblW) as (ll & hL & EL & LL & XL & HLL & HllL).
  assert (HWL : Heap.isArray hL (List.length hA) wl) by (eapply isArray_extends; eassumption).
  assert (HwlL : Heap.holdsBalances hL wl (initialWinners ps))
    by (eapply holdsBalances_extends; eassumption).
  set (hP := hL ++ [Heap.ArrayObj []]).
  assert (XP : Heap.extends n hL hP) by (apply extends_app; lia).
  assert (Hrep : represents (List.length hA) (List.length hL) hP
                   {| winners := initialWinners ps; paid := []; consulted := [] |}).
  { exists wl, []. simpl.
    split; [now apply isArray_app|].
    split; [eapply holdsBalances_extends; eassumption|].
    split; [apply isArray_new | constructor]. }
  destruct (forEach_represents n (List.length hA) (List.length hL)
              ltac:(lia) LA ltac:(lia) ll (losers ps) hP _
              ltac:(unfold hP; rewrite length_app; lia) Hrep
              ltac:(eapply holdsBalances_extends; eassumption))
    as (h' & EF & XF & (wl' & pl' & _ & _ & HP' & Hts')).
  exists (List.length hL), pl', h'.
  split.
  { unfold Heap.calculatePayments.
    rewrite (bind_eq _ _ _ _ _ EA), (bind_eq _ _ _ _ _ EW), (bind_eq _ _ _ _ _ EL).
    rewrite (bind_eq _ _ hL hP (List.length hL)) by reflexivity.
    assert (HLP : Heap.isArray hP (List.length hW) ll) by now apply isArray_app.
    rewrite (bind_eq _ _ hP hP ll)
      by (unfold Heap.readArray; now rewrite (elemsAt_isArray _ _ _ HLP)).
    rewrite (bind_eq _ _ _ _ _ EF). reflexivity. }
  split.
  { eapply extends_trans; [exact XA|].
    eapply extends_trans; [eapply extends_weaken; [|exact XW]; exact LA|].
    eapply extends_trans; [eapply extends_weaken; [|exact XL]; lia|].
    eapply extends_trans; [exact XP | exact XF]. }
  split; [fold n; lia|]. split; [exact HP' | exact Hts'].
Qed.

(** C10: [calculatePayments] changes nothing that was in the store when it
    was called: the array of entries and every entry are as before, and no
    object that is not an array is ever changed.  What it writes into are
    arrays it made itself, and it returns, in a new array, the transfers
    computed.  The session [saveGame] stores holds the entries as they were
    given, with these transfers. *)
Theorem calculatePayments_leaves_the_entries (env : Env) (h : Heap.store)
    (players : Heap.loc) (ls : list Heap.loc) (ps : list Player) :
  Heap.isArray h players ls -> Heap.holdsPlayers h ls ps ->
  (exists r tl h',
     Heap.calculatePayments players h = (r, h')
     /\ (forall l, (l < List.length h)%nat -> nth_error h' l = nth_error h l)
     /\ (forall l o, nth_error h l = Some o -> Heap.isObject o -> nth_error h' l = Some o)
     /\ Heap.isArray h' players ls /\ Heap.holdsPlayers h' ls ps
     /\ (List.length h <= r)%nat
     /\ Heap.isArray h' r tl /\ Heap.holdsPayments h' tl (calculatePayments ps))
  /\ (forall key games,
        In (SetItem key games) (saveGame env ps) ->
        exists existing,
          existingGames env = Some existing
          /\ games = existing ++ [ {| id := nowString env; date := dateISO env;
                                     players := ps;
                                     payments := calculatePayments ps |} ]).
Proof.
  intros Ha Hp. split.
  - destruct (heap_calculatePayments_spec h players ls ps Ha Hp)
      as (r & tl & h' & E & X & Hr & Hr' & Hts).
    exists r, tl, h'. pose proof X as (_ & F & O).
    split; [exact E|]. split; [exact F|]. split; [exact O|].
    split; [eapply isArray_extends; eassumption|].
    split; [eapply holdsPlayers_extends; eassumption|]. auto.
  - intros key games. unfold saveGame.
    destruct (hasDuplicateNames ps); [intros [H|[]]; discriminate|].
    destruct (isValid ps); simpl; [|intros [H|[]]; discriminate].
    destruct (checkTotalBalance ps); simpl; [|intros [H|[H|[H|[]]]]; discriminate].
    destruct (existingGames env) as [existing|];
      [|intros [H|[H|[H|[H|[]]]]]; discriminate].
    destruct (setItemSucceeds env); simpl.
    + intros [H|[H|[H|[H|[H|[H|[]]]]]]]; try discriminate.
      injection H as _ <-. exists existing. split; reflexivity.
    + intros [H|[H|[H|[H|[H|[]]]]]]; discriminate.
Qed.

(** The theorem at a store that holds the entries of [twoAndTwo] and their
    array. *)
Lemma calculatePayments_leaves_the_entries_witness :
  let env := {| existingGames := Some []; setItemSucceeds := true;
                nowString := "1"; dateISO := "d" |} in
  let h := map Heap.PlayerObj twoAndTwo ++ [Heap.ArrayObj [0; 1; 2; 3]%nat] in
  (exists r tl h',
     Heap.calculatePayments 4%nat h = (r, h')
     /\ (forall l, (l < List.length h)%nat -> nth_error h' l = nth_error h l)
     /\ (forall l o, nth_error h l = Some o -> Heap.isObject o -> nth_error h' l = Some o)
     /\ Heap.isArray h' 4%nat [0; 1; 2; 3]%nat
     /\ Heap.holdsPlayers h' [0; 1; 2; 3]%nat twoAndTwo
     /\ (List.length h <= r)%nat
     /\ Heap.isArray h' r tl
     /\ Heap.holdsPayments h' tl (calculatePayments twoAndTwo))
  /\ (forall key games,
        In (SetItem key games) (saveGame env twoAndTwo) ->
        exists existing,
          existingGames env = Some existing
          /\ games = existing ++ [ {| id := nowString env; date := dateISO env;
                                     players := twoAndTwo;
                                     payments := calculatePayments twoAndTwo |} ]).
Proof.
  apply (calculatePayments_leaves_the_entries _ _ 4%nat [0; 1; 2; 3]%nat twoAndTwo).
  - reflexivity.
  - repeat constructor.
Defined.

(** * Further properties of the three screens *)

(** ** Filling in the entries *)

(** Two entries whose names are blank count as duplicates: [saveGame]
    answers with the duplicate-names dialog, not with the alert about
    missing information. *)
Theorem blank_names_are_duplicates (env : Env) (ps : list Player)
    (i j : nat) (p q : Player) :
  i <> j -> nth_error ps i = Some p -> nth_error ps j = Some q ->
  Str.trim (name p) = "" -> Str.trim (name q) = "" ->
  saveGame env ps = [SetShowDuplicateModal true].
Proof.
  intros Hij Hi Hj Hp Hq.
  assert (Hd : hasDuplicateNames ps = true).
  { apply hasDuplicateNames_true_repeats, repeats_sameNameTwice.
    exists i, j, p, q. repeat split; try assumption. now rewrite Hp, Hq. }
  unfold saveGame. now rewrite Hd.
Qed.

(** The screen as it starts, with its two empty entries. *)
Lemma blank_names_are_duplicates_witness :
  saveGame {| existingGames := Some []; setItemSucceeds := true;
              nowString := "1"; dateISO := "d" |} initialPlayers
  = [SetShowDuplicateModal true].
Proof.
  apply (blank_names_are_duplicates _ initialPlayers 0 1 emptyPlayer emptyPlayer);
    try reflexivity.
  discriminate.
Defined.

Lemma isValid_addPlayer (ps : list Player) : isValid (addPlayer ps) = false.
Proof.
  unfold isValid, addPlayer. rewrite forallb_app. simpl.
  now rewrite andb_false_r.
Qed.

(** After [addPlayer], and until the new entry is filled in, [saveGame]
    stops at one of its first two checks. *)
Theorem saveGame_after_addPlayer (env : Env) (ps : list Player) :
  saveGame env (addPlayer ps) = [SetShowDuplicateModal true]
  \/ saveGame env (addPlayer ps) = incompleteFields.
Proof.
  unfold saveGame. destruct (hasDuplicateNames (addPlayer ps)); [now left|].
  rewrite isValid_addPlayer. now right.
Qed.

Lemma fieldOf_withField_same (p : Player) (f : Field) (v : string) :
  fieldOf (withField p f v) f = v.
Proof. destruct f; reflexivity. Qed.

Lemma fieldOf_withField_other (p : Player) (f g : Field) (v : string) :
  f <> g -> fieldOf (withField p f v) g = fieldOf p g.
Proof. destruct f, g; intros H; try reflexivity; contradiction. Qed.

(** [updatePlayer] at the index of an entry: the array keeps its length,
    the entry gets the new value in the field and keeps its other fields,
    and the other entries are as they were.  Editing an amount leaves the
    names, and with them the duplicate-name check, as they were. *)
Theorem updatePlayer_laws (index : nat) (field : Field) (value : string)
    (ps : list Player) (p : Player) :
  nth_error ps index = Some p ->
  exists ps' p',
    updatePlayer index field value ps = Some ps'
    /\ List.length ps' = List.length ps
    /\ nth_error ps' index = Some p'
    /\ fieldOf p' field = value
    /\ (forall g, g <> field -> fieldOf p' g = fieldOf p g)
    /\ (forall j, j <> index -> nth_error ps' j = nth_error ps j)
    /\ (field <> FName -> hasDuplicateNames ps' = hasDuplicateNames ps).
Proof.
  intros Hp. unfold updatePlayer. rewrite Hp.
  exists (Arr.set ps index (withField p field value)), (withField p field value).
  assert (Hlt : (index < List.length ps)%nat) by (apply nth_error_Some; congruence).
  split; [reflexivity|]. split; [apply set_length|].
  split; [now apply nth_error_set_same|].
  split; [apply fieldOf_withField_same|].
  split; [intros g Hg; apply fieldOf_withField_other; congruence|].
  split; [intros j Hj; apply nth_error_set_other; congruence|].
  intros Hf. unfold hasDuplicateNames, normalizedNames.
  rewrite (map_set (fun player => Str.trim (Str.toLowerCase (name player)))
             ps index (withField p field value) p Hp); [reflexivity|].
  destruct field; [contradiction | reflexivity | reflexivity].
Qed.

(** Typing a buy-in into the second entry of the screen as it starts. *)
Lemma updatePlayer_laws_witness :
  exists ps' p',
    updatePlayer 1 FBuyIn "20" initialPlayers = Some ps'
    /\ List.length ps' = List.length initialPlayers
    /\ nth_error ps' 1 = Some p'
    /\ fieldOf p' FBuyIn = "20"
    /\ (forall g, g <> FBuyIn -> fieldOf p' g = fieldOf emptyPlayer g)
    /\ (forall j, j <> 1%nat -> nth_error ps' j = nth_error initialPlayers j)
    /\ (FBuyIn <> FName -> hasDuplicateNames ps' = hasDuplicateNames initialPlayers).
Proof.
  apply (updatePlayer_laws 1 FBuyIn "20" initialPlayers emptyPlayer). reflexivity.
Defined.

(** ** How saveGame ends *)

Lemma validated_true (ps : list Player) :
  validated ps = true <->
  hasDuplicateNames ps = false /\ isValid ps = true /\ checkTotalBalance ps = true.
Proof.
  unfold validated. rewrite !andb_true_iff, negb_true_iff. tauto.
Qed.

(** Effects of [saveGame] in one of its branches: what is in the list and
    what is not. *)
Ltac in_effects :=
  repeat match goal with
         | H : _ \/ _ |- _ => destruct H
         | H : _ /\ _ |- _ => destruct H
         | H : exists _, _ |- _ => destruct H
         | H : False |- _ => destruct H
         end;
  try discriminate; try congruence.

Ltac cases_of_saveGame :=
  simpl; repeat split; intros; in_effects;
  try reflexivity;
  try (do 2 eexists); repeat (first [reflexivity | left; reflexivity | right]).

(** [saveGame] goes back to the home screen exactly when the three checks
    passed and storage could be read and written, and it stores a session
    exactly then; when the checks passed and storage fails, reading or
    writing, it alerts that saving failed, and it gives this alert in no
    other case. *)
Theorem saveGame_navigates_iff_stored (env : Env) (ps : list Player) :
  (In (RouterPush "/") (saveGame env ps) <->
     validated ps = true /\ existingGames env <> None /\ setItemSucceeds env = true)
  /\ ((exists key games, In (SetItem key games) (saveGame env ps)) <->
      In (RouterPush "/") (saveGame env ps))
  /\ (In failedToSave (saveGame env ps) <->
      validated ps = true
      /\ (existingGames env = None \/ setItemSucceeds env = false)).
Proof.
  rewrite validated_true. unfold saveGame, failedToSave.
  destruct (hasDuplicateNames ps); [cases_of_saveGame|].
  destruct (isValid ps); [|cases_of_saveGame].
  destruct (checkTotalBalance ps); [|cases_of_saveGame].
  destruct (existingGames env) as [existing|]; [|cases_of_saveGame].
  destruct (setItemSucceeds env); cases_of_saveGame.
Qed.

(** ** More on the settlement *)

Lemma forEach_no_winners (ls : list Balance) (st : Settlement) :
  winners st = [] -> fold_left forEachStep ls st = st.
Proof.
  intros Hw. induction ls as [|l ls IH]; simpl; [reflexivity|].
  assert (E : forEachStep st l = st).
  { unfold forEachStep, settleLoser. rewrite Hw. reflexivity. }
  now rewrite E.
Qed.

(** With no creditor (no balance above 0) or no debtor (no balance below
    0) there is no transfer; balances that are NaN count on neither side. *)
Theorem no_counterparty_no_transfer (ps : list Player) :
  (forall p, In p ps -> JS.gt (balanceOf p) JS.zero = false)
  \/ (forall p, In p ps -> JS.lt (balanceOf p) JS.zero = false) ->
  calculatePayments ps = [].
Proof.
  intros [H|H]; unfold calculatePayments, settle.
  - rewrite forEach_no_winners; [reflexivity|]. simpl.
    unfold initialWinners. rewrite filter_none; [reflexivity|].
    unfold playerBalances. intros b Hb. apply in_map_iff in Hb.
    destruct Hb as (p & <- & Hp). simpl. now apply H.
  - now rewrite losers_none.
Qed.

(** A session in which no balance is above 0: one is NaN, one is 0. *)
Lemma no_counterparty_no_transfer_witness :
  calculatePayments [ {| name := "A"; buyIn := "0"; cashOut := "ten" |};
                      {| name := "B"; buyIn := "0"; cashOut := "0" |} ] = [].
Proof.
  apply no_counterparty_no_transfer. left.
  intros p [<-|[<-|[]]]; vm_compute; reflexivity.
Defined.

Lemma loopRun_paid_length (loser : Balance) (f f' : Frame) :
  loopRun loser f f' ->
  (List.length (paid (shared f')) + winnerIndex f
   <= List.length (paid (shared f)) + winnerIndex f')%nat.
Proof.
  induction 1 as [f Hc | f winner f' Hc Hn Hrun IH]; [lia|].
  rewrite loopBody_winnerIndex in IH.
  assert (List.length (paid (shared (loopBody loser winner f)))
          <= S (List.length (paid (shared f))))%nat; [|lia].
  unfold loopBody. destruct (JS.gt _ JS.zero); simpl; [|lia].
  rewrite length_app. simpl. lia.
Qed.

Lemma forEachStep_lengths (st : Settlement) (loser : Balance) :
  (List.length (paid (forEachStep st loser))
   <= List.length (paid st) + List.length (winners st))%nat
  /\ List.length (winners (forEachStep st loser)) = List.length (winners st).
Proof.
  split.
  - unfold forEachStep, settleLoser.
    set (f0 := {| remainingDebt := JS.Math_abs (balance loser);
                  winnerIndex := 0; shared := st |}).
    assert (Hrun : loopRun loser f0 (whileLoop (List.length (winners st)) loser f0))
      by (apply whileLoop_runs; simpl; lia).
    pose proof (loopRun_paid_length _ _ _ Hrun) as H1.
    pose proof (loopRun_index_le _ _ _ Hrun (Nat.le_0_l _)) as H2.
    simpl in H1, H2. lia.
  - destruct (settleLoser_spec st loser) as (xs & k & _ & _ & Hw & _).
    rewrite <- (length_map b_name), Hw. apply length_map.
Qed.

Lemma forEach_paid_length (ls : list Balance) (st : Settlement) :
  (List.length (paid (fold_left forEachStep ls st))
   <= List.length (paid st) + List.length ls * List.length (winners st))%nat.
Proof.
  revert st. induction ls as [|l ls IH]; intros st; simpl; [lia|].
  destruct (forEachStep_lengths st l) as [Hp Hw].
  specialize (IH (forEachStep st l)). rewrite Hw in IH. lia.
Qed.

(** There are never more transfers than pairs of a debtor and a creditor,
    and there are at most as many debtors and creditors as entries. *)
Theorem transfers_bounded_by_pairs (ps : list Player) :
  (List.length (calculatePayments ps)
   <= List.length (losers ps) * List.length (initialWinners ps))%nat
  /\ (List.length (losers ps) + List.length (initialWinners ps) <= List.length ps)%nat.
Proof.
  split.
  - unfold calculatePayments, settle.
    pose proof (forEach_paid_length (losers ps)
      {| winners := initialWinners ps; paid := []; consulted := [] |}) as H.
    simpl in H. exact H.
  - unfold losers, initialWinners. rewrite !sort_length.
    unfold playerBalances. rewrite <- (length_map
      (fun player => {| b_name := name player; balance := balanceOf player |}) ps).
    generalize (map (fun player => {| b_name := name player;
                                      balance := balanceOf player |}) ps).
    intros l. induction l as [|b l IH]; simpl; [lia|].
    destruct (JS.lt (balance b) JS.zero) eqn:El, (JS.gt (balance b) JS.zero) eqn:Eg;
      simpl; try lia.
    exfalso. exact (lt_gt_zero_exclusive _ El Eg).
Qed.

(** ** Sorting *)

Section SortOrder.
Context {A : Type}.
Variable comparefn : A -> A -> JS.number.

Lemma insert_Permutation (x : A) (l : list A) :
  Permutation (x :: l) (Arr.insert comparefn x l).
Proof.
  induction l as [|y l IH]; simpl; [reflexivity|].
  destruct (JS.gt (comparefn x y) JS.zero); [|reflexivity].
  rewrite perm_swap. now apply perm_skip.
Qed.

Lemma sort_Permutation (l : list A) : Permutation l (Arr.sort comparefn l).
Proof.
  unfold Arr.sort. induction l as [|y l IH]; simpl; [reflexivity|].
  rewrite <- insert_Permutation. now apply perm_skip.
Qed.

(** The comparator does not put [x] behind [y]. *)
Definition notBehind (x y : A) : Prop := JS.gt (comparefn x y) JS.zero = false.

(** The comparator never says both that [x] goes behind [y] and that [y]
    goes behind [x]. *)
Hypothesis one_way :
  forall x y, JS.gt (comparefn x y) JS.zero = true ->
              JS.gt (comparefn y x) JS.zero = false.

Lemma insert_Sorted (x : A) (l : list A) :
  Sorted notBehind l -> Sorted notBehind (Arr.insert comparefn x l).
Proof.
  induction l as [|y l IH]; simpl; intros Hs.
  - constructor; constructor.
  - destruct (JS.gt (comparefn x y) JS.zero) eqn:E.
    + apply Sorted_inv in Hs. destruct Hs as [Hs Hhd].
      constructor; [now apply IH|].
      destruct l as [|z l]; simpl.
      * constructor. now apply one_way.
      * destruct (JS.gt (comparefn x z) JS.zero).
        -- constructor. now apply HdRel_inv in Hhd.
        -- constructor. now apply one_way.
    + constructor; [exact Hs|]. constructor. exact E.
Qed.

Lemma sort_Sorted (l : list A) : Sorted notBehind (Arr.sort comparefn l).
Proof.
  unfold Arr.sort. induction l as [|y l IH]; simpl; [constructor|].
  now apply insert_Sorted.
Qed.

End SortOrder.

Lemma binary_round_aux_negative (mx ex : Z) (lx : location) :
  JS.gt (binary_round_aux JS.prec JS.emax true mx ex lx) JS.zero = false.
Proof.
  unfold binary_round_aux.
  destruct (shr_fexp JS.prec JS.emax mx ex lx) as [mrs e'].
  destruct (shr_fexp JS.prec JS.emax _ e' loc_Exact) as [mrs' e''].
  destruct (shr_m mrs'); [reflexivity | | reflexivity].
  destruct (Z.leb e'' (JS.emax - JS.prec)); reflexivity.
Qed.

Lemma binary_normalize_positive (m e : Z) :
  JS.gt (binary_normalize JS.prec JS.emax m e false) JS.zero = true -> 0 < m.
Proof.
  destruct m as [|p|p]; simpl; intros H; [discriminate | lia |].
  unfold binary_round in H. destruct (shl_align _ _ _) in H.
  rewrite binary_round_aux_negative in H. discriminate.
Qed.

(** If [x - y] is above 0 then [y - x] is not. *)
Lemma sub_one_way (x y : JS.number) :
  JS.gt (JS.sub x y) JS.zero = true -> JS.gt (JS.sub y x) JS.zero = false.
Proof.
  destruct x as [sx|sx| |sx mx ex], y as [sy|sy| |sy my ey];
    try (destruct sx); try (destruct sy); try (cbv; congruence).
  all: unfold JS.sub, SFsub; rewrite (Z.min_comm ey ex); intros H;
    apply binary_normalize_positive in H;
    change (IntDef.Z.min ex ey) with (Z.min ex ey) in H;
    set (X := fst (shl_align mx ex (Z.min ex ey))) in *;
    set (Y := fst (shl_align my ey (Z.min ex ey))) in *;
    clearbody X Y; unfold cond_Zopp in *;
    match goal with
    | |- JS.gt (binary_normalize _ _ ?d _ _) _ = false =>
        destruct d as [|p|p] eqn:Ed; [reflexivity | exfalso; lia |]
    end;
    simpl; unfold binary_round; destruct (shl_align _ _ _);
    apply binary_round_aux_negative.
Qed.

(** The array of creditors and the array of debtors are in the order of
    their comparators: in [winners] no creditor's successor has a balance
    that, less the creditor's own, is above 0; in [losers] no debtor's
    balance, less its successor's, is above 0.  The players of the details
    screen are in the order of the creditors, by profit, when no profit is
    NaN (with a NaN profit the comparator is not consistent and the order
    is the engine's own). *)
Theorem arrays_in_comparator_order (ps : list Player) (g : GameWithPayments) :
  Sorted (fun x y => JS.gt (JS.sub (balance y) (balance x)) JS.zero = false)
         (initialWinners ps)
  /\ Sorted (fun x y => JS.gt (JS.sub (balance x) (balance y)) JS.zero = false)
            (losers ps)
  /\ ((forall p, In p (players g) -> Details.calculateProfit p <> JS.NaN) ->
      Sorted (fun a b => JS.gt (JS.sub (Details.calculateProfit b)
                                       (Details.calculateProfit a)) JS.zero = false)
             (Details.sortedPlayers (Some g))).
Proof.
  split; [|split].
  - apply (sort_Sorted (fun a b => JS.sub (balance b) (balance a))).
    intros x y. apply sub_one_way.
  - apply (sort_Sorted (fun a b => JS.sub (balance a) (balance b))).
    intros x y. apply sub_one_way.
  - intros _.
    apply (sort_Sorted (fun a b => JS.sub (Details.calculateProfit b)
                                          (Details.calculateProfit a))).
    intros x y. apply sub_one_way.
Qed.

Lemma partition_Permutation {A : Type} (t1 t2 : A -> bool) (l : list A) :
  (forall x, t1 x = true -> t2 x = true -> False) ->
  Permutation l (filter t1 l ++ filter t2 l
                 ++ filter (fun x => negb (t1 x) && negb (t2 x)) l).
Proof.
  intros Hex. induction l as [|x l IH]; simpl; [reflexivity|].
  destruct (t1 x) eqn:E1, (t2 x) eqn:E2; simpl.
  - exfalso. eauto.
  - now apply perm_skip.
  - now apply Permutation_cons_app.
  - rewrite app_assoc. apply Permutation_cons_app. now rewrite <- app_assoc.
Qed.

(** Every entry is a creditor, a debtor or neither, and only one of the
    three: the creditors, the debtors and the entries whose balance is
    neither above nor below 0 (0 or NaN) make up the entries, each entry
    counted once. *)
Theorem entries_partition (ps : list Player) :
  Permutation (playerBalances ps)
    (initialWinners ps ++ losers ps
     ++ filter (fun p => negb (JS.gt (balance p) JS.zero)
                         && negb (JS.lt (balance p) JS.zero))
               (playerBalances ps)).
Proof.
  unfold initialWinners, losers.
  rewrite <- !sort_Permutation.
  apply partition_Permutation.
  intros x Hg Hl. exact (lt_gt_zero_exclusive _ Hl Hg).
Qed.

(** The details screen shows the players of the game, each one once, and
    shows none while no game is loaded. *)
Theorem sortedPlayers_Permutation (g : GameWithPayments) :
  Permutation (players g) (Details.sortedPlayers (Some g))
  /\ Details.sortedPlayers None = [].
Proof.
  split; [apply sort_Permutation | reflexivity].
Qed.

(** ** One transfer at most between two players *)

Lemma skipn_nth_error {A : Type} (l : list A) (i : nat) (x : A) :
  nth_error l i = Some x -> skipn i l = x :: skipn (S i) l.
Proof.
  revert i. induction l as [|y l IH]; intros [|i]; simpl; try discriminate.
  - now intros [= ->].
  - apply IH.
Qed.

Lemma loopBody_names (loser winner : Balance) (f : Frame) :
  nth_error (winners (shared f)) (winnerIndex f) = Some winner ->
  map b_name (winners (shared (loopBody loser winner f)))
  = map b_name (winners (shared f)).
Proof.
  intros Hn. unfold loopBody. destruct (JS.gt _ JS.zero); simpl; [|reflexivity].
  now apply (map_set b_name _ _ _ winner).
Qed.

(** In one run of the loop the creditors paid are all different, as long
    as the creditors from the pointer on have different names. *)
Lemma loopRun_payees (loser : Balance) (f f' : Frame) :
  loopRun loser f f' ->
  NoDup (skipn (winnerIndex f) (map b_name (winners (shared f)))) ->
  exists xs,
    paid (shared f') = paid (shared f) ++ map (transfer loser) xs
    /\ Forall (fun wx => In (fst wx)
                 (skipn (winnerIndex f) (map b_name (winners (shared f))))) xs
    /\ NoDup (map fst xs).
Proof.
  induction 1 as [f Hc | f winner f' Hc Hn Hrun IH]; intros Hnd.
  - exists []. simpl. rewrite app_nil_r. repeat split; constructor.
  - rewrite (loopBody_names loser winner f Hn), loopBody_winnerIndex in IH.
    assert (Hsk : skipn (winnerIndex f) (map b_name (winners (shared f)))
                  = b_name winner :: skipn (S (winnerIndex f))
                                           (map b_name (winners (shared f)))).
    { apply skipn_nth_error. rewrite nth_error_map, Hn. reflexivity. }
    rewrite Hsk in Hnd |- *. inversion Hnd as [|? ? Hnotin Hnd']; subst.
    destruct (IH Hnd') as (xs & Hp & Hin & Hxs).
    assert (Hin' : Forall (fun wx => In (fst wx)
                     (b_name winner :: skipn (S (winnerIndex f))
                                             (map b_name (winners (shared f))))) xs).
    { eapply Forall_impl; [|exact Hin]. intros wx H. now right. }
    unfold loopBody in Hp.
    destruct (JS.gt (JS.Math_min (remainingDebt f) (balance winner)) JS.zero);
      simpl in Hp.
    + exists ((b_name winner, JS.Math_min (remainingDebt f) (balance winner)) :: xs).
      split; [rewrite Hp, <- app_assoc; reflexivity|].
      split; [constructor; [now left | exact Hin']|].
      simpl. constructor; [|exact Hxs].
      intros Hmem. apply Hnotin. apply in_map_iff in Hmem.
      destruct Hmem as (wx & <- & Hwx). rewrite Forall_forall in Hin. now apply Hin.
    + exists xs. auto.
Qed.

Lemma forEachStep_payees (st : Settlement) (loser : Balance) :
  NoDup (map b_name (winners st)) ->
  exists xs,
    paid (forEachStep st loser) = paid st ++ map (transfer loser) xs
    /\ NoDup (map fst xs)
    /\ map b_name (winners (forEachStep st loser)) = map b_name (winners st).
Proof.
  intros Hnd.
  destruct (settleLoser_spec st loser) as (_ & _ & _ & _ & Hw & _).
  unfold forEachStep, settleLoser in *.
  set (f0 := {| remainingDebt := JS.Math_abs (balance loser);
                winnerIndex := 0; shared := st |}) in *.
  assert (Hrun : loopRun loser f0 (whileLoop (List.length (winners st)) loser f0))
    by (apply whileLoop_runs; simpl; lia).
  destruct (loopRun_payees loser f0 _ Hrun Hnd) as (xs & Hp & _ & Hxs).
  exists xs. auto.
Qed.

(** The debtor and the creditor of a transfer. *)
Definition parties (t : Payment) : string * string := (from t, to t).

Lemma forEach_parties (ls : list Balance) (st : Settlement) :
  NoDup (map b_name ls) -> NoDup (map b_name (winners st)) ->
  exists ts,
    paid (fold_left forEachStep ls st) = paid st ++ ts
    /\ NoDup (map parties ts)
    /\ Forall (fun t => In (from t) (map b_name ls)) ts.
Proof.
  revert st. induction ls as [|l ls IH]; intros st Hls Hws; simpl.
  - exists []. rewrite app_nil_r. repeat split; constructor.
  - inversion Hls as [|? ? Hnotin Hls']; subst.
    destruct (forEachStep_payees st l Hws) as (xs & Hp & Hxs & Hw).
    destruct (IH (forEachStep st l) Hls' ltac:(now rewrite Hw)) as (ts & Hp' & Hts & Hfrom).
    exists (map (transfer l) xs ++ ts).
    split; [rewrite Hp', Hp, <- app_assoc; reflexivity|]. split.
    + rewrite map_app. apply NoDup_app.
      * rewrite map_map. unfold parties, transfer. simpl.
        clear -Hxs. induction xs as [|wx xs IHxs]; simpl; [constructor|].
        inversion Hxs as [|? ? Hn Hxs']; subst. constructor; [|now apply IHxs].
        intros Hin. apply Hn. apply in_map_iff in Hin.
        destruct Hin as (wx' & [= E] & Hwx'). rewrite <- E. now apply in_map.
      * exact Hts.
      * intros [a b] H1 H2. apply in_map_iff in H1, H2.
        destruct H1 as (t1 & E1 & H1), H2 as (t2 & E2 & H2).
        apply in_map_iff in H1. destruct H1 as (wx & <- & _).
        rewrite Forall_forall in Hfrom. specialize (Hfrom t2 H2).
        unfold parties in E1, E2. simpl in E1. apply Hnotin. congruence.
    + apply Forall_app. split.
      * apply Forall_forall. intros t Ht. apply in_map_iff in Ht.
        destruct Ht as (wx & <- & _). now left.
      * eapply Forall_impl; [|exact Hfrom]. intros t Ht. now right.
Qed.

Lemma NoDup_map_filter {A B : Type} (g : A -> B) (test : A -> bool) (l : list A) :
  NoDup (map g l) -> NoDup (map g (filter test l)).
Proof.
  induction l as [|x l IH]; simpl; intros H; [constructor|].
  inversion H as [|? ? Hn H']; subst.
  destruct (test x); simpl; [|now apply IH].
  constructor; [|now apply IH].
  intros Hin. apply Hn. apply in_map_iff in Hin. destruct Hin as (y & E & Hy).
  apply filter_In in Hy. rewrite <- E. apply in_map. tauto.
Qed.

Lemma sorted_filtered_names (ps : list Player) (test : Balance -> bool)
    (cmp : Balance -> Balance -> JS.number) :
  NoDup (normalizedNames ps) ->
  NoDup (map b_name (Arr.sort cmp (filter test (playerBalances ps)))).
Proof.
  intros Hnd.
  apply (Permutation_NoDup (l := map b_name (filter test (playerBalances ps)))).
  { apply Permutation_map, sort_Permutation. }
  apply NoDup_map_filter. unfold playerBalances. rewrite map_map. simpl.
  unfold normalizedNames in Hnd.
  rewrite <- (map_map name (fun n => Str.trim (Str.toLowerCase n))) in Hnd.
  exact (NoDup_map_inv _ _ Hnd).
Qed.

(** When the names are unique no two transfers of the result have the
    same debtor and the same creditor: a debtor pays a creditor once at
    most. *)
Theorem one_transfer_per_pair (ps : list Player) :
  hasDuplicateNames ps = false ->
  NoDup (map parties (calculatePayments ps)).
Proof.
  intros Hd. apply hasDuplicateNames_false_NoDup in Hd.
  unfold calculatePayments, settle.
  destruct (forEach_parties (losers ps)
              {| winners := initialWinners ps; paid := []; consulted := [] |})
    as (ts & Hp & Hts & _).
  - now apply sorted_filtered_names.
  - now apply sorted_filtered_names.
  - rewrite Hp. exact Hts.
Qed.

Lemma one_transfer_per_pair_witness :
  NoDup (map parties (calculatePayments twoAndTwo)).
Proof.
  apply one_transfer_per_pair. vm_compute. reflexivity.
Defined.

(** ** The stored games, from one screen to the other *)

Lemma find_last {A : Type} (f : A -> bool) (l : list A) (x : A) :
  find f (l ++ [x])
  = match find f l with
    | Some y => Some y
    | None => if f x then Some x else None
    end.
Proof.
  induction l as [|y l IH]; simpl; [reflexivity|].
  destruct (f y); [reflexivity | exact IH].
Qed.

Lemma find_absent {A : Type} (f : A -> bool) (l : list A) :
  (forall x, In x l -> f x = false) -> find f l = None.
Proof.
  induction l as [|y l IH]; simpl; intros H; [reflexivity|].
  rewrite (H y (or_introl eq_refl)). apply IH. intros x Hx. apply H. now right.
Qed.

Lemma filter_all {A : Type} (f : A -> bool) (l : list A) :
  (forall x, In x l -> f x = true) -> filter f l = l.
Proof.
  induction l as [|y l IH]; simpl; intros H; [reflexivity|].
  rewrite (H y (or_introl eq_refl)). f_equal. apply IH. intros x Hx. apply H. now right.
Qed.

(** What a successful [saveGame] leaves in storage. *)
Lemma saveGame_writes (env : Env) (ps : list Player)
    (existing : list GameWithPayments) (before : Details.Stored) :
  validated ps = true -> existingGames env = Some existing ->
  setItemSucceeds env = true ->
  storedAfter before (saveGame env ps)
  = Details.Games (existing ++ [newGame env ps]).
Proof.
  rewrite validated_true. intros (Hd & Hv & Hb) He Hs.
  unfold saveGame. rewrite Hd, Hv, Hb, He, Hs. reflexivity.
Qed.

(** After a game is saved, what is read back from storage is the list
    written when JSON keeps every amount (an amount Infinity is read back as
    null).  Then the details screen opened with the new id finds a game with
    this id: the new game when no older game has the same id, and otherwise
    the first of the older games that have it. *)
Theorem details_after_save (env : Env) (ps : list Player)
    (existing : list GameWithPayments) (before : Details.Stored) :
  validated ps = true -> existingGames env = Some existing ->
  setItemSucceeds env = true ->
  readBackAfter before (saveGame env ps)
  = (if forallb jsonKeeps (existing ++ [newGame env ps])
     then Some (Details.Games (existing ++ [newGame env ps])) else None)
  /\ (forall stored,
        readBackAfter before (saveGame env ps) = Some stored ->
        (exists g,
           Details.loadGameDetails stored (nowString env) = [Details.SetGame g]
           /\ id g = nowString env)
        /\ ((forall g, In g existing -> id g <> nowString env) ->
            Details.loadGameDetails stored (nowString env)
            = [Details.SetGame (newGame env ps)])
        /\ (forall old,
              find (fun g => id g =? nowString env) existing = Some old ->
              Details.loadGameDetails stored (nowString env)
              = [Details.SetGame old])).
Proof.
  intros Hv He Hs.
  assert (E : readBackAfter before (saveGame env ps)
              = (if forallb jsonKeeps (existing ++ [newGame env ps])
                 then Some (Details.Games (existing ++ [newGame env ps])) else None)).
  { apply validated_true in Hv. destruct Hv as (Hd & Hval & Hb).
    unfold saveGame. rewrite Hd, Hval, Hb, He, Hs. reflexivity. }
  split; [exact E|]. intros stored Hst. rewrite E in Hst.
  destruct (forallb jsonKeeps (existing ++ [newGame env ps])); [|discriminate].
  injection Hst as <-.
  unfold Details.loadGameDetails. rewrite find_last. simpl id.
  rewrite String.eqb_refl. split; [|split].
  - destruct (find (fun g => id g =? nowString env) existing) as [old|] eqn:Ef.
    + exists old. split; [reflexivity|].
      apply find_some in Ef. now apply String.eqb_eq.
    + exists (newGame env ps). split; reflexivity.
  - intros Hnew. rewrite find_absent; [reflexivity|].
    intros g Hg. apply String.eqb_neq. now apply Hnew.
  - intros old ->. reflexivity.
Qed.

Lemma details_after_save_witness :
  let env := {| existingGames := Some []; setItemSucceeds := true;
                nowString := "1700000000000"; dateISO := "d" |} in
  readBackAfter Details.NoItem (saveGame env twoAndTwo)
  = Some (Details.Games [newGame env twoAndTwo])
  /\ Details.loadGameDetails (Details.Games [newGame env twoAndTwo]) (nowString env)
     = [Details.SetGame (newGame env twoAndTwo)].
Proof.
  intros env.
  destruct (details_after_save env twoAndTwo [] Details.NoItem) as [E H];
    [vm_compute; reflexivity | reflexivity | reflexivity |].
  assert (K : forallb jsonKeeps ([] ++ [newGame env twoAndTwo]) = true)
    by (vm_compute; reflexivity).
  rewrite K in E. split; [exact E|].
  destruct (H _ E) as (_ & Hnew & _). apply Hnew. intros g [].
Defined.

(** Deleting the game that was just saved writes back the games that were
    there before, less those that had the same id. *)
Theorem delete_after_save (env : Env) (ps : list Player)
    (existing : list GameWithPayments) (before : Details.Stored) :
  validated ps = true -> existingGames env = Some existing ->
  setItemSucceeds env = true ->
  Details.deleteGame (storedAfter before (saveGame env ps)) true (nowString env)
                     Details.Delete
  = [Details.SetItem "pokerGames"
       (filter (fun g => negb (id g =? nowString env)) existing);
     Details.RouterPush "/"]
  /\ ((forall g, In g existing -> id g <> nowString env) ->
      Details.deleteGame (storedAfter before (saveGame env ps)) true (nowString env)
                         Details.Delete
      = [Details.SetItem "pokerGames" existing; Details.RouterPush "/"]).
Proof.
  intros Hv He Hs. rewrite (saveGame_writes env ps existing before Hv He Hs).
  unfold Details.deleteGame. rewrite filter_app. simpl.
  rewrite String.eqb_refl. simpl. rewrite app_nil_r.
  split; [reflexivity|]. intros Hnew. rewrite filter_all; [reflexivity|].
  intros g Hg. apply negb_true_iff, String.eqb_neq. now apply Hnew.
Qed.

Lemma delete_after_save_witness :
  let env := {| existingGames := Some []; setItemSucceeds := true;
                nowString := "1700000000000"; dateISO := "d" |} in
  Details.deleteGame (storedAfter Details.NoItem (saveGame env twoAndTwo)) true
                     (nowString env) Details.Delete
  = [Details.SetItem "pokerGames"
       (filter (fun g => negb (id g =? nowString env)) []);
     Details.RouterPush "/"]
  /\ ((forall g, In g [] -> id g <> nowString env) ->
      Details.deleteGame (storedAfter Details.NoItem (saveGame env twoAndTwo)) true
                         (nowString env) Details.Delete
      = [Details.SetItem "pokerGames" []; Details.RouterPush "/"]).
Proof.
  intros env. apply (delete_after_save env twoAndTwo [] Details.NoItem).
  - vm_compute. reflexivity.
  - reflexivity.
  - reflexivity.
Defined.

Lemma find_filter_other (wanted other : string) (games : list GameWithPayments) :
  other <> wanted ->
  find (fun g => id g =? other) (filter (fun g => negb (id g =? wanted)) games)
  = find (fun g => id g =? other) games.
Proof.
  intros Hne. induction games as [|g games IH]; simpl; [reflexivity|].
  destruct (id g =? wanted) eqn:Ew; simpl.
  - apply String.eqb_eq in Ew.
    assert ((id g =? other) = false) by (apply String.eqb_neq; congruence).
    now rewrite H.
  - destruct (id g =? other); [reflexivity | exact IH].
Qed.

(** A confirmed deletion writes the games whose id is not the one of the
    route, in their order.  In what it writes, no game has this id, the
    details screen finds nothing for it, and finds for any other id what it
    found before; deleting again writes the same games. *)
Theorem deleteGame_removes_the_id (games : list GameWithPayments) (wanted : string) :
  exists updatedGames,
    Details.deleteGame (Details.Games games) true wanted Details.Delete
    = [Details.SetItem "pokerGames" updatedGames; Details.RouterPush "/"]
    /\ (forall g, In g updatedGames <-> In g games /\ id g <> wanted)
    /\ Details.loadGameDetails (Details.Games updatedGames) wanted = []
    /\ (forall other, other <> wanted ->
          Details.loadGameDetails (Details.Games updatedGames) other
          = Details.loadGameDetails (Details.Games games) other)
    /\ Details.deleteGame (Details.Games updatedGames) true wanted Details.Delete
       = [Details.SetItem "pokerGames" updatedGames; Details.RouterPush "/"].
Proof.
  exists (filter (fun g => negb (id g =? wanted)) games).
  assert (Hin : forall g, In g (filter (fun g => negb (id g =? wanted)) games)
                          <-> In g games /\ id g <> wanted).
  { intros g. rewrite filter_In, negb_true_iff, String.eqb_neq. tauto. }
  split; [reflexivity|]. split; [exact Hin|]. split; [|split].
  - unfold Details.loadGameDetails. rewrite find_absent; [reflexivity|].
    intros g Hg. apply String.eqb_neq. now apply Hin.
  - intros other Hne. unfold Details.loadGameDetails.
    now rewrite find_filter_other.
  - unfold Details.deleteGame. rewrite filter_all; [reflexivity|].
    intros g Hg. apply negb_true_iff, String.eqb_neq. now apply Hin.
Qed.

(** [deleteGame] writes to storage only when the deletion was confirmed,
    the stored games could be read and the write succeeds; it goes back to
    the home screen exactly then.  Cancelling, or finding nothing stored,
    has no effect at all. *)
Theorem deleteGame_writes_iff (stored : Details.Stored) (ok : bool)
    (wanted : string) (choice : Details.Choice) :
  ((exists key games',
      In (Details.SetItem key games') (Details.deleteGame stored ok wanted choice))
   <-> choice = Details.Delete /\ ok = true
       /\ exists games, stored = Details.Games games)
  /\ (In (Details.RouterPush "/") (Details.deleteGame stored ok wanted choice)
      <-> exists key games',
            In (Details.SetItem key games') (Details.deleteGame stored ok wanted choice))
  /\ (choice = Details.Cancel \/ stored = Details.NoItem ->
      Details.deleteGame stored ok wanted choice = []).
Proof.
  unfold Details.deleteGame, Details.failedToDelete.
  destruct choice, stored as [| |games], ok; cases_of_saveGame.
Qed.

(** ** Totals *)

Lemma strict_eq_NaN_r (x : JS.number) : JS.strict_eq x JS.NaN = false.
Proof. destruct x; reflexivity. Qed.

(** A session whose buy-ins or cash-outs add up to NaN, as Infinity and
    -Infinity do, never passes the balance check. *)
Theorem nan_total_is_unbalanced (ps : list Player) :
  buyInTotal ps = JS.NaN \/ cashOutTotal ps = JS.NaN ->
  checkTotalBalance ps = false.
Proof.
  unfold checkTotalBalance. intros [H|H]; rewrite H.
  - reflexivity.
  - apply strict_eq_NaN_r.
Qed.

Lemma nan_total_is_unbalanced_witness :
  checkTotalBalance [ {| name := "A"; buyIn := "Infinity"; cashOut := "0" |};
                      {| name := "B"; buyIn := "-Infinity"; cashOut := "0" |} ]
  = false.
Proof.
  apply nan_total_is_unbalanced. left. vm_compute. reflexivity.
Defined.

(** The total the home screen shows for a game is never NaN, and for a
    game whose entries passed the balance check it is, at 2 fractional
    digits, the total of the cash-outs. *)
Theorem home_total_of_a_saved_game (item : GameWithPayments) :
  Home.totalMoney item <> JS.NaN
  /\ (checkTotalBalance (players item) = true ->
      JS.strict_eq (round2 (Home.totalMoney item))
                   (round2 (cashOutTotal (players item))) = true).
Proof.
  unfold Home.totalMoney. fold (buyInTotal (players item)).
  unfold checkTotalBalance, round2.
  destruct (buyInTotal (players item)) as [s|s| |s m e]; simpl JS.or_zero.
  - split; [discriminate|]. destruct s; exact (fun H => H).
  - split; [discriminate | exact (fun H => H)].
  - split; [discriminate|]. simpl. discriminate.
  - split; [discriminate | exact (fun H => H)].
Qed.

(** ** The balances computed at the start are kept *)

(** [winners] is filtered from [playerBalances] and holds the same
    objects, and the loop writes into [winners]; yet when the function
    returns, the array [playerBalances] still holds every entry's balance
    as first computed, while the array [winners] holds the residual
    balances: the loop puts new objects into [winners] and changes none. *)
Theorem playerBalances_kept (h : Heap.store) (players : Heap.loc)
    (ls : list Heap.loc) (ps : list Player) :
  Heap.isArray h players ls -> Heap.holdsPlayers h ls ps ->
  exists pb hA r h' bl wl,
    Heap.mapToBalances players h = (pb, hA)
    /\ Heap.calculatePayments players h = (r, h')
    /\ Heap.isArray h' pb bl
    /\ Heap.holdsBalances h' bl (playerBalances ps)
    /\ Heap.isArray h' (List.length hA) wl
    /\ Heap.holdsBalances h' wl (winners (settle ps)).
Proof.
  intros Ha Hp.
  destruct (mapToBalances_spec h players ls ps Ha Hp) as (pb & bl & hA & EA & XA & HpbA & HblA).
  set (n := List.length hA).
  destruct (filter_sort_spec n (fun p => JS.gt (balance p) JS.zero)
              (fun a b => JS.sub (balance b) (balance a)) hA pb bl _
              (le_n _) HpbA HblA) as (wl0 & hW & EW & LW & XW & HWW & HwlW).
  assert (HpbW : Heap.isArray hW pb bl) by (eapply isArray_extends; eassumption).
  assert (HblW : Heap.holdsBalances hW bl (playerBalances ps))
    by (eapply holdsBalances_extends; eassumption).
  destruct (filter_sort_spec (List.length hW) (fun p => JS.lt (balance p) JS.zero)
              (fun a b => JS.sub (balance a) (balance b)) hW pb bl _
              (le_n _) HpbW HblW) as (ll & hL & EL & LL & XL & HLL & HllL).
  assert (HWL : Heap.isArray hL n wl0) by (eapply isArray_extends; eassumption).
  assert (HwlL : Heap.holdsBalances hL wl0 (initialWinners ps))
    by (eapply holdsBalances_extends; eassumption).
  set (hP := hL ++ [Heap.ArrayObj []]).
  assert (XP : Heap.extends n hL hP) by (apply extends_app; unfold n; lia).
  assert (Hrep : represents n (List.length hL) hP
                   {| winners := initialWinners ps; paid := []; consulted := [] |}).
  { exists wl0, []. simpl.
    split; [now apply isArray_app|].
    split; [eapply holdsBalances_extends; eassumption|].
    split; [apply isArray_new | constructor]. }
  destruct (forEach_represents n n (List.length hL)
              ltac:(unfold n; lia) (le_n _) ltac:(unfold n; lia) ll (losers ps) hP _
              ltac:(unfold hP, n; rewrite length_app; lia) Hrep
              ltac:(eapply holdsBalances_extends; eassumption))
    as (h' & EF & XF & (wl & pl' & HW' & Hws' & _ & _)).
  assert (X : Heap.extends n hA h').
  { eapply extends_trans; [exact XW|].
    eapply extends_trans; [eapply extends_weaken; [|exact XL]; unfold n; lia|].
    eapply extends_trans; [exact XP | exact XF]. }
  exists pb, hA, (List.length hL), h', bl, wl.
  split; [exact EA|]. split.
  { unfold Heap.calculatePayments.
    rewrite (bind_eq _ _ _ _ _ EA), (bind_eq _ _ _ _ _ EW), (bind_eq _ _ _ _ _ EL).
    rewrite (bind_eq _ _ hL hP (List.length hL)) by reflexivity.
    assert (HLP : Heap.isArray hP (List.length hW) ll) by now apply isArray_app.
    rewrite (bind_eq _ _ hP hP ll)
      by (unfold Heap.readArray; now rewrite (elemsAt_isArray _ _ _ HLP)).
    rewrite (bind_eq _ _ _ _ _ EF). reflexivity. }
  split; [eapply isArray_extends; eassumption|].
  split; [eapply holdsBalances_extends; eassumption|].
  split; [exact HW' | exact Hws'].
Qed.

Lemma playerBalances_kept_witness :
  let h := map Heap.PlayerObj twoAndTwo ++ [Heap.ArrayObj [0; 1; 2; 3]%nat] in
  exists pb hA r h' bl wl,
    Heap.mapToBalances 4%nat h = (pb, hA)
    /\ Heap.calculatePayments 4%nat h = (r, h')
    /\ Heap.isArray h' pb bl
    /\ Heap.holdsBalances h' bl (playerBalances twoAndTwo)
    /\ Heap.isArray h' (List.length hA) wl
    /\ Heap.holdsBalances h' wl (winners (settle twoAndTwo)).
Proof.
  apply (playerBalances_kept _ 4%nat [0; 1; 2; 3]%nat twoAndTwo).
  - reflexivity.
  - repeat constructor.
Defined.

(** * Conservation on sessions in whole numbers *)

Section WholeNumbers.
Local Open Scope Z_scope.

(** ** Whole numbers as floating-point numbers *)

(** The number of binary digits of a positive integer. *)
Definition bitLength (n : positive) : Z := Zpos (digits2_pos n).

Lemma pow2_succ (d : Z) : 0 <= d -> 2 ^ (d + 1) = 2 * 2 ^ d.
Proof. intros H. rewrite Z.pow_add_r by lia. simpl (2 ^ 1). lia. Qed.

Lemma pow2_xO (p : positive) : 2 ^ Zpos p~0 = 2 ^ Zpos p * 2 ^ Zpos p.
Proof.
  replace (Zpos p~0) with (Zpos p + Zpos p) by lia. now rewrite Z.pow_add_r by lia.
Qed.

Lemma pow2_xI (p : positive) : 2 ^ Zpos p~1 = 2 ^ Zpos p * 2 ^ Zpos p * 2.
Proof.
  replace (Zpos p~1) with (Zpos p + Zpos p + 1) by lia.
  rewrite !Z.pow_add_r by lia. reflexivity.
Qed.

Lemma bitLength_spec (n : positive) : 2 ^ (bitLength n - 1) <= Zpos n < 2 ^ bitLength n.
Proof.
  unfold bitLength. induction n as [n IH|n IH|]; cbn [digits2_pos].
  - rewrite Pos2Z.inj_succ. unfold Z.succ.
    replace (Zpos (digits2_pos n) + 1 - 1) with (Zpos (digits2_pos n) - 1 + 1) by lia.
    rewrite !pow2_succ by lia.
    replace (2 ^ Zpos (digits2_pos n)) with (2 * 2 ^ (Zpos (digits2_pos n) - 1)) in *
      by (rewrite <- pow2_succ by lia; f_equal; lia).
    lia.
  - rewrite Pos2Z.inj_succ. unfold Z.succ.
    replace (Zpos (digits2_pos n) + 1 - 1) with (Zpos (digits2_pos n) - 1 + 1) by lia.
    rewrite !pow2_succ by lia.
    replace (2 ^ Zpos (digits2_pos n)) with (2 * 2 ^ (Zpos (digits2_pos n) - 1)) in *
      by (rewrite <- pow2_succ by lia; f_equal; lia).
    lia.
  - simpl. lia.
Qed.

Lemma bitLength_pos (n : positive) : 1 <= bitLength n.
Proof. unfold bitLength. lia. Qed.

Lemma bitLength_unique (n : positive) (d : Z) :
  2 ^ (d - 1) <= Zpos n < 2 ^ d -> bitLength n = d.
Proof.
  intros H. pose proof (bitLength_spec n) as Hn. pose proof (bitLength_pos n).
  assert (Hd : 1 <= d).
  { destruct (Z_lt_le_dec d 1) as [Hlt|]; [|assumption].
    assert (2 ^ d <= 2 ^ 0) by (destruct (Z_lt_le_dec d 0);
      [rewrite Z.pow_neg_r by lia; simpl; lia | apply Z.pow_le_mono_r; lia]).
    simpl in *. lia. }
  destruct (Z.lt_trichotomy (bitLength n) d) as [Hlt|[Heq|Hgt]]; [|exact Heq|].
  - assert (2 ^ bitLength n <= 2 ^ (d - 1)) by (apply Z.pow_le_mono_r; lia). lia.
  - assert (2 ^ d <= 2 ^ (bitLength n - 1)) by (apply Z.pow_le_mono_r; lia). lia.
Qed.

Lemma bitLength_shift (n m : positive) (k : Z) :
  0 <= k -> Zpos m = Zpos n * 2 ^ k -> bitLength m = bitLength n + k.
Proof.
  intros Hk E. apply bitLength_unique. rewrite E.
  pose proof (bitLength_spec n) as [H1 H2]. pose proof (bitLength_pos n).
  replace (bitLength n + k - 1) with (bitLength n - 1 + k) by lia.
  rewrite !Z.pow_add_r by lia.
  assert (0 < 2 ^ k) by (apply Z.pow_pos_nonneg; lia).
  split; nia.
Qed.

Lemma bitLength_mono (n m : positive) : (n <= m)%positive -> bitLength n <= bitLength m.
Proof.
  intros H. pose proof (bitLength_spec n) as [H1 _]. pose proof (bitLength_spec m) as [_ H2].
  destruct (Z_lt_le_dec (bitLength m) (bitLength n)) as [Hlt|]; [|assumption].
  assert (2 ^ bitLength m <= 2 ^ (bitLength n - 1)) by (apply Z.pow_le_mono_r; unfold bitLength in *; lia).
  lia.
Qed.

Lemma bitLength_le_53 (n : positive) : Zpos n < 2 ^ 53 -> bitLength n <= 53.
Proof.
  intros H. pose proof (bitLength_spec n) as [H1 _].
  destruct (Z_lt_le_dec 53 (bitLength n)) as [Hlt|]; [|assumption].
  assert (2 ^ 53 <= 2 ^ (bitLength n - 1)) by (apply Z.pow_le_mono_r; lia). lia.
Qed.

(** *** Shifts that lose nothing *)

Lemma shr_1_even (a : Z) :
  0 < a ->
  shr_1 {| shr_m := a * 2; shr_r := false; shr_s := false |}
  = {| shr_m := a; shr_r := false; shr_s := false |}.
Proof.
  intros Ha. destruct a as [|p|p]; try lia.
  replace (Zpos p * 2) with (Zpos p~0) by lia. reflexivity.
Qed.

Lemma iter_shr_1_exact (p : positive) :
  forall a, 0 < a ->
  iter_pos shr_1 p {| shr_m := a * 2 ^ Zpos p; shr_r := false; shr_s := false |}
  = {| shr_m := a; shr_r := false; shr_s := false |}.
Proof.
  induction p as [p IH|p IH|]; intros a Ha; cbn [iter_pos].
  - assert (HP : 0 < 2 ^ Zpos p) by (apply Z.pow_pos_nonneg; lia).
    rewrite pow2_xI.
    replace (a * (2 ^ Zpos p * 2 ^ Zpos p * 2)) with ((a * 2 ^ Zpos p * 2 ^ Zpos p) * 2)
      by ring.
    rewrite shr_1_even by nia. rewrite (IH (a * 2 ^ Zpos p)) by nia. now apply IH.
  - assert (HP : 0 < 2 ^ Zpos p) by (apply Z.pow_pos_nonneg; lia).
    rewrite pow2_xO.
    replace (a * (2 ^ Zpos p * 2 ^ Zpos p)) with ((a * 2 ^ Zpos p) * 2 ^ Zpos p) by ring.
    rewrite (IH (a * 2 ^ Zpos p)) by nia. now apply IH.
  - simpl (2 ^ 1). now apply shr_1_even.
Qed.

Lemma shr_exact (a sh E : Z) :
  0 < a -> 0 <= sh ->
  shr {| shr_m := a * 2 ^ sh; shr_r := false; shr_s := false |} E sh
  = ({| shr_m := a; shr_r := false; shr_s := false |}, E + sh).
Proof.
  intros Ha Hsh. destruct sh as [|p|p]; [| |lia].
  - simpl. now rewrite Z.mul_1_r, Z.add_0_r.
  - unfold shr. now rewrite iter_shr_1_exact.
Qed.

Lemma Zdigits2_shift (n : positive) (k : Z) :
  0 <= k -> Zdigits2 (Zpos n * 2 ^ k) = bitLength n + k.
Proof.
  intros Hk. assert (HP : 0 < 2 ^ k) by (apply Z.pow_pos_nonneg; lia).
  destruct (Zpos n * 2 ^ k) as [|m|m] eqn:E; try nia.
  simpl. fold (bitLength m). now apply bitLength_shift.
Qed.

(** The canonical form of the whole number [n] below 2^53, with sign [s]. *)
Definition canon (s : bool) (n : positive) : JS.number :=
  S754_finite s (Z.to_pos (Zpos n * 2 ^ (53 - bitLength n))) (bitLength n - 53).

Lemma shr_fexp_canon (n : positive) (E : Z) :
  Zpos n < 2 ^ 53 -> E <= bitLength n - 53 ->
  shr_fexp JS.prec JS.emax (Zpos n * 2 ^ (- E)) E loc_Exact
  = ({| shr_m := Zpos n * 2 ^ (53 - bitLength n); shr_r := false; shr_s := false |}, bitLength n - 53).
Proof.
  intros Hn HE. pose proof (bitLength_le_53 n Hn) as Hd. pose proof (bitLength_pos n) as Hd1.
  unfold shr_fexp. rewrite Zdigits2_shift by lia.
  unfold fexp, emin, JS.prec, JS.emax.
  replace (bitLength n + - E + E) with (bitLength n) by lia.
  replace (Z.max (bitLength n - 53) (3 - 1024 - 53)) with (bitLength n - 53) by lia.
  cbn [shr_record_of_loc].
  replace (Zpos n * 2 ^ (- E)) with ((Zpos n * 2 ^ (53 - bitLength n)) * 2 ^ (bitLength n - 53 - E))
    by (rewrite <- Z.mul_assoc, <- Z.pow_add_r by lia; do 2 f_equal; lia).
  assert (HP : 0 < 2 ^ (53 - bitLength n)) by (apply Z.pow_pos_nonneg; lia).
  rewrite shr_exact by nia. f_equal. lia.
Qed.

(** Rounding a whole number below 2^53 gives its canonical form, however
    it is written. *)
Lemma binary_round_aux_exact (s : bool) (n : positive) (E : Z) :
  Zpos n < 2 ^ 53 -> E <= bitLength n - 53 ->
  binary_round_aux JS.prec JS.emax s (Zpos n * 2 ^ (- E)) E loc_Exact = canon s n.
Proof.
  intros Hn HE. pose proof (bitLength_le_53 n Hn) as Hd. pose proof (bitLength_pos n) as Hd1.
  unfold binary_round_aux. rewrite shr_fexp_canon by assumption.
  cbn [shr_m loc_of_shr_record round_nearest_even].
  replace (Zpos n * 2 ^ (53 - bitLength n)) with (Zpos n * 2 ^ (- (bitLength n - 53)))
    by (f_equal; f_equal; lia).
  rewrite shr_fexp_canon by lia. cbn [shr_m].
  assert (HP : 0 < 2 ^ (53 - bitLength n)) by (apply Z.pow_pos_nonneg; lia).
  destruct (Zpos n * 2 ^ (53 - bitLength n)) as [|m|m] eqn:Em; try nia.
  unfold JS.prec, JS.emax.
  destruct (Z.leb_spec (bitLength n - 53) (1024 - 53)); [|lia].
  unfold canon. rewrite Em. reflexivity.
Qed.

Lemma Pos_iter_xO (m d : positive) : Zpos (Pos.iter xO m d) = Zpos m * 2 ^ Zpos d.
Proof.
  revert m. induction d as [|d IH] using Pos.peano_ind; intros m.
  - simpl. lia.
  - rewrite Pos.iter_succ, Pos2Z.inj_xO, IH, Pos2Z.inj_succ, Z.pow_succ_r by lia. ring.
Qed.

Lemma binary_round_exact (s : bool) (n m : positive) (E : Z) :
  Zpos n < 2 ^ 53 -> E <= 0 -> Zpos m = Zpos n * 2 ^ (- E) ->
  binary_round JS.prec JS.emax s m E = canon s n.
Proof.
  intros Hn HE Em. pose proof (bitLength_le_53 n Hn) as Hd. pose proof (bitLength_pos n) as Hd1.
  unfold binary_round.
  assert (Hdm : Zpos (digits2_pos m) = bitLength n + - E) by (apply (bitLength_shift n m); lia).
  rewrite Hdm. unfold fexp, emin, JS.prec, JS.emax.
  replace (bitLength n + - E + E) with (bitLength n) by lia.
  replace (Z.max (bitLength n - 53) (3 - 1024 - 53)) with (bitLength n - 53) by lia.
  unfold shl_align.
  destruct (bitLength n - 53 - E) as [|p|p] eqn:Ep.
  - rewrite Em. apply (binary_round_aux_exact s n E Hn). lia.
  - rewrite Em. apply (binary_round_aux_exact s n E Hn). lia.
  - rewrite Pos_iter_xO, Em.
    replace (Zpos n * 2 ^ (- E) * 2 ^ Zpos p) with (Zpos n * 2 ^ (- (bitLength n - 53)))
      by (rewrite <- Z.mul_assoc, <- Z.pow_add_r by lia; do 2 f_equal; lia).
    apply (binary_round_aux_exact s n (bitLength n - 53) Hn). lia.
Qed.

Lemma of_Z_pos (n : positive) : Zpos n < 2 ^ 53 -> JS.of_Z (Zpos n) = canon false n.
Proof.
  intros Hn. unfold JS.of_Z, JS.of_decimal. cbn [Z.ltb Z.compare Z.abs].
  change (Z.to_pos (10 ^ 0)) with 1%positive. rewrite Pos.mul_1_r.
  apply binary_round_exact; [exact Hn | lia | simpl; lia].
Qed.

Lemma of_Z_neg (n : positive) : Zpos n < 2 ^ 53 -> JS.of_Z (Zneg n) = canon true n.
Proof.
  intros Hn. unfold JS.of_Z, JS.of_decimal. cbn [Z.ltb Z.compare Z.abs].
  change (Z.to_pos (10 ^ 0)) with 1%positive. rewrite Pos.mul_1_r.
  apply binary_round_exact; [exact Hn | lia | simpl; lia].
Qed.

(** *** Arithmetic on whole numbers *)

Lemma canon_mantissa (n : positive) :
  Zpos n < 2 ^ 53 ->
  Zpos (Z.to_pos (Zpos n * 2 ^ (53 - bitLength n))) = Zpos n * 2 ^ (53 - bitLength n).
Proof.
  intros Hn. pose proof (bitLength_le_53 n Hn).
  assert (0 < 2 ^ (53 - bitLength n)) by (apply Z.pow_pos_nonneg; lia).
  rewrite Z2Pos.id by nia. reflexivity.
Qed.

Lemma of_Z_0 : JS.of_Z 0 = JS.zero.
Proof. reflexivity. Qed.

(** The mantissa of a canonical form aligned at a lower exponent. *)
Lemma aligned (n : positive) (ez : Z) :
  Zpos n < 2 ^ 53 -> ez <= bitLength n - 53 ->
  Zpos (fst (shl_align (Z.to_pos (Zpos n * 2 ^ (53 - bitLength n))) (bitLength n - 53) ez))
  = Zpos n * 2 ^ (- ez).
Proof.
  intros Hn He. pose proof (bitLength_le_53 n Hn). pose proof (bitLength_pos n).
  unfold shl_align. destruct (ez - (bitLength n - 53)) as [|p|p] eqn:Ep; try lia.
  - cbn [fst]. rewrite canon_mantissa by assumption. do 2 f_equal. lia.
  - cbn [fst]. rewrite Pos_iter_xO, canon_mantissa by assumption.
    rewrite <- Z.mul_assoc, <- Z.pow_add_r by lia. do 2 f_equal. lia.
Qed.

Lemma binary_normalize_exact (z : Z) (m ez : Z) :
  Z.abs z < 2 ^ 53 -> ez <= 0 -> m = z * 2 ^ (- ez) ->
  binary_normalize JS.prec JS.emax m ez false = JS.of_Z z.
Proof.
  intros Hz He Em. assert (HP : 0 < 2 ^ (- ez)) by (apply Z.pow_pos_nonneg; lia).
  destruct z as [|n|n].
  - simpl in Em. subst m. reflexivity.
  - rewrite of_Z_pos by exact Hz.
    destruct m as [|m|m]; try nia. cbn [binary_normalize].
    apply binary_round_exact; [exact Hz | exact He | exact Em].
  - rewrite of_Z_neg by exact Hz.
    destruct m as [|m|m]; try nia. cbn [binary_normalize].
    apply binary_round_exact; [exact Hz | exact He | nia].
Qed.

(** Subtraction and addition of whole numbers are exact. *)
Lemma sub_whole (a b : Z) :
  0 <= a < 2 ^ 53 -> 0 <= b < 2 ^ 53 ->
  JS.sub (JS.of_Z a) (JS.of_Z b) = JS.of_Z (a - b).
Proof.
  intros Ha Hb. destruct a as [|x|x], b as [|y|y]; try lia.
  - reflexivity.
  - rewrite of_Z_0, (of_Z_pos y) by lia. cbn [Z.sub Z.opp Z.add].
    rewrite (of_Z_neg y) by lia. reflexivity.
  - rewrite Z.sub_0_r, of_Z_0, (of_Z_pos x) by lia. reflexivity.
  - rewrite (of_Z_pos x), (of_Z_pos y) by lia.
    unfold JS.sub, canon, SFsub.
    change (IntDef.Z.min (bitLength x - 53) (bitLength y - 53)) with (Z.min (bitLength x - 53) (bitLength y - 53)).
    cbv zeta. set (ez := Z.min (bitLength x - 53) (bitLength y - 53)).
    pose proof (bitLength_le_53 x ltac:(lia)). pose proof (bitLength_le_53 y ltac:(lia)).
    rewrite (aligned x ez), (aligned y ez) by lia.
    cbn [cond_Zopp].
    apply binary_normalize_exact; [lia | lia | ring].
Qed.

Lemma add_whole (a b : Z) :
  0 <= a -> 0 <= b -> a + b < 2 ^ 53 ->
  JS.add (JS.of_Z a) (JS.of_Z b) = JS.of_Z (a + b).
Proof.
  intros Ha Hb Hab. destruct a as [|x|x], b as [|y|y]; try lia.
  - reflexivity.
  - rewrite Z.add_0_l, of_Z_0, (of_Z_pos y) by lia. reflexivity.
  - rewrite Z.add_0_r, of_Z_0, (of_Z_pos x) by lia. reflexivity.
  - rewrite (of_Z_pos x), (of_Z_pos y) by lia.
    unfold JS.add, canon, SFadd.
    change (IntDef.Z.min (bitLength x - 53) (bitLength y - 53)) with (Z.min (bitLength x - 53) (bitLength y - 53)).
    cbv zeta. set (ez := Z.min (bitLength x - 53) (bitLength y - 53)).
    pose proof (bitLength_le_53 x ltac:(lia)). pose proof (bitLength_le_53 y ltac:(lia)).
    rewrite (aligned x ez), (aligned y ez) by lia.
    cbn [cond_Zopp].
    apply binary_normalize_exact; [lia | lia | ring].
Qed.

(** Comparison of whole numbers. *)
Lemma compare_canon (x y : positive) :
  Zpos x < 2 ^ 53 -> Zpos y < 2 ^ 53 ->
  SFcompare (canon false x) (canon false y) = Some (Pos.compare x y).
Proof.
  intros Hx Hy. unfold canon, SFcompare.
  pose proof (bitLength_le_53 x Hx). pose proof (bitLength_le_53 y Hy).
  pose proof (bitLength_spec x) as [Hx1 Hx2]. pose proof (bitLength_spec y) as [Hy1 Hy2].
  f_equal. destruct (Z.compare_spec (bitLength x - 53) (bitLength y - 53)) as [E|E|E].
  - change (PosDef.Pos.compare_cont Eq ?a ?b) with (Pos.compare a b).
    assert (Ed : bitLength x = bitLength y) by lia.
    assert (HP : 0 < 2 ^ (53 - bitLength y)) by (apply Z.pow_pos_nonneg; lia).
    rewrite !Pos2Z.inj_compare, !canon_mantissa by assumption.
    rewrite Ed. destruct (Z.compare_spec (Zpos x) (Zpos y)) as [F|F|F].
    + rewrite F. apply Z.compare_refl.
    + apply Z.compare_lt_iff. nia.
    + apply Z.compare_gt_iff. nia.
  - symmetry. apply Pos.compare_lt_iff.
    assert (2 ^ bitLength x <= 2 ^ (bitLength y - 1)) by (apply Z.pow_le_mono_r; lia). lia.
  - symmetry. apply Pos.compare_gt_iff.
    assert (2 ^ bitLength y <= 2 ^ (bitLength x - 1)) by (apply Z.pow_le_mono_r; lia). lia.
Qed.

Lemma compare_whole (a b : Z) :
  0 <= a < 2 ^ 53 -> 0 <= b < 2 ^ 53 ->
  SFcompare (JS.of_Z a) (JS.of_Z b) = Some (Z.compare a b).
Proof.
  intros Ha Hb. destruct a as [|x|x], b as [|y|y]; try lia.
  - reflexivity.
  - rewrite of_Z_0, (of_Z_pos y) by lia. reflexivity.
  - rewrite of_Z_0, (of_Z_pos x) by lia. reflexivity.
  - rewrite (of_Z_pos x), (of_Z_pos y) by lia. now rewrite compare_canon by lia.
Qed.

Lemma ltb_whole (a b : Z) :
  0 <= a < 2 ^ 53 -> 0 <= b < 2 ^ 53 -> SFltb (JS.of_Z a) (JS.of_Z b) = (a <? b).
Proof.
  intros Ha Hb. unfold SFltb. rewrite compare_whole by assumption.
  unfold Z.ltb. now destruct (a ?= b).
Qed.

Lemma strict_eq_whole (a b : Z) :
  0 <= a < 2 ^ 53 -> 0 <= b < 2 ^ 53 ->
  JS.strict_eq (JS.of_Z a) (JS.of_Z b) = (a =? b).
Proof.
  intros Ha Hb. unfold JS.strict_eq, SFeqb. rewrite compare_whole by assumption.
  destruct (Z.compare_spec a b), (Z.eqb_spec a b); try reflexivity; lia.
Qed.

Lemma gt_zero_whole (z : Z) : Z.abs z < 2 ^ 53 -> JS.gt (JS.of_Z z) JS.zero = (0 <? z).
Proof.
  intros Hz. destruct z as [|n|n]; [reflexivity| |].
  - rewrite of_Z_pos by exact Hz. reflexivity.
  - rewrite of_Z_neg by exact Hz. reflexivity.
Qed.

Lemma lt_zero_whole (z : Z) : Z.abs z < 2 ^ 53 -> JS.lt (JS.of_Z z) JS.zero = (z <? 0).
Proof.
  intros Hz. destruct z as [|n|n]; [reflexivity| |].
  - rewrite of_Z_pos by exact Hz. reflexivity.
  - rewrite of_Z_neg by exact Hz. reflexivity.
Qed.

Lemma abs_whole (z : Z) : Z.abs z < 2 ^ 53 -> JS.Math_abs (JS.of_Z z) = JS.of_Z (Z.abs z).
Proof.
  intros Hz. destruct z as [|n|n]; [reflexivity| |]; cbn [Z.abs] in *.
  - rewrite of_Z_pos by exact Hz. reflexivity.
  - rewrite of_Z_neg, of_Z_pos by exact Hz. reflexivity.
Qed.

(** A whole number is above 0.01 exactly when it is above 0. *)
Lemma gt_cent_whole (a : Z) : 0 <= a < 2 ^ 53 -> JS.gt (JS.of_Z a) JS.cent = (0 <? a).
Proof.
  intros Ha. destruct a as [|n|n]; [reflexivity| |lia].
  rewrite of_Z_pos by lia. unfold JS.gt, SFltb, JS.cent, canon, SFcompare.
  pose proof (bitLength_pos n). destruct (Z.compare_spec (-59) (bitLength n - 53)); try lia; reflexivity.
Qed.

Lemma min_whole (a b : Z) :
  0 <= a < 2 ^ 53 -> 0 <= b < 2 ^ 53 ->
  JS.Math_min (JS.of_Z a) (JS.of_Z b) = JS.of_Z (Z.min a b).
Proof.
  intros Ha Hb.
  assert (H : (if SFltb (JS.of_Z b) (JS.of_Z a) then JS.of_Z b else JS.of_Z a)
              = JS.of_Z (Z.min a b)).
  { rewrite ltb_whole by assumption. destruct (Z.ltb_spec b a); f_equal; lia. }
  destruct a as [|x|x], b as [|y|y]; try lia.
  - reflexivity.
  - rewrite of_Z_0 in *. rewrite (of_Z_pos y) in * by lia. exact H.
  - rewrite of_Z_0 in *. rewrite (of_Z_pos x) in * by lia. exact H.
  - rewrite (of_Z_pos x), (of_Z_pos y) in * by lia. exact H.
Qed.

(** *** Rounding a whole number to 2 fractional digits *)

Lemma bitLength_upper (m : positive) (k : Z) : 0 <= k -> Zpos m < 2 ^ k -> bitLength m <= k.
Proof.
  intros Hk H. pose proof (bitLength_spec m) as [H1 _]. pose proof (bitLength_pos m).
  destruct (Z_lt_le_dec k (bitLength m)) as [Hlt|]; [|assumption].
  assert (2 ^ k <= 2 ^ (bitLength m - 1)) by (apply Z.pow_le_mono_r; lia). lia.
Qed.

Lemma bitLength_lower (m : positive) (k : Z) : 0 <= k -> 2 ^ k <= Zpos m -> k < bitLength m.
Proof.
  intros Hk H. pose proof (bitLength_spec m) as [_ H2]. pose proof (bitLength_pos m).
  destruct (Z_lt_le_dec k (bitLength m)) as [|Hle]; [assumption|].
  assert (2 ^ bitLength m <= 2 ^ k) by (apply Z.pow_le_mono_r; lia). lia.
Qed.

Lemma div_eucl_exact (q : Z) : Z.div_eucl (q * 100) 100 = (q, 0).
Proof.
  pose proof (Z.div_mul q 100 ltac:(lia)) as Hd.
  pose proof (Z.mod_mul q 100 ltac:(lia)) as Hm.
  unfold Z.div, Z.modulo in Hd, Hm.
  destruct (Z.div_eucl (q * 100) 100) as [q' r']. now subst.
Qed.

Lemma div_100 (n : positive) :
  Zpos n < 2 ^ 53 ->
  SFdiv JS.prec JS.emax (S754_finite false (100 * n) 0) (S754_finite false 100 0)
  = canon false n.
Proof.
  intros Hn. pose proof (bitLength_le_53 n Hn) as Hd. pose proof (bitLength_pos n) as Hd1.
  pose proof (bitLength_spec n) as [Hn1 Hn2].
  assert (H1 : bitLength n + 6 <= bitLength (100 * n)).
  { assert (bitLength n + 5 < bitLength (100 * n)); [|lia]. apply bitLength_lower; [lia|].
    replace (bitLength n + 5) with (bitLength n - 1 + 6) by lia. rewrite Z.pow_add_r by lia.
    change (2 ^ 6) with 64. rewrite Pos2Z.inj_mul. lia. }
  assert (H2 : bitLength (100 * n) <= bitLength n + 7).
  { apply bitLength_upper; [lia|]. rewrite Z.pow_add_r by lia.
    change (2 ^ 7) with 128. rewrite Pos2Z.inj_mul. lia. }
  unfold SFdiv, SFdiv_core_binary.
  change (Zdigits2 (Zpos (100 * n))) with (bitLength (100 * n)).
  change (Zdigits2 100) with 7.
  unfold fexp, emin, JS.prec, JS.emax.
  change (IntDef.Z.min ?a ?b) with (Z.min a b).
  change (IntDef.Z.max ?a ?b) with (Z.max a b).
  replace (Z.min (Z.max (bitLength (100 * n) + 0 - (7 + 0) - 53) (3 - 1024 - 53)) (0 - 0))
    with (bitLength (100 * n) - 60) by (clear - H1 H2 Hd Hd1; lia).
  replace (0 - 0 - (bitLength (100 * n) - 60)) with (60 - bitLength (100 * n)) by lia.
  cbv zeta.
  assert (Hm : match 60 - bitLength (100 * n) with
               | 0 => Zpos (100 * n)
               | Zpos _ => IntDef.Z.shiftl (Zpos (100 * n)) (60 - bitLength (100 * n))
               | Zneg _ => 0
               end = (Zpos n * 2 ^ (60 - bitLength (100 * n))) * 100).
  { destruct (60 - bitLength (100 * n)) as [|p|p] eqn:E;
      [simpl (2 ^ 0); lia | | lia].
    change (IntDef.Z.shiftl ?a ?b) with (Z.shiftl a b).
    rewrite Z.shiftl_mul_pow2 by lia. rewrite Pos2Z.inj_mul. ring. }
  rewrite Hm. change (IntDef.Z.div_eucl ?a ?b) with (Z.div_eucl a b).
  rewrite div_eucl_exact. cbn [xorb].
  change (new_location 100 0) with loc_Exact.
  replace (60 - bitLength (100 * n)) with (- (bitLength (100 * n) - 60)) by lia.
  apply binary_round_aux_exact; [exact Hn | lia].
Qed.

Lemma round2_whole (a : Z) : 0 <= a < 2 ^ 53 -> round2 (JS.of_Z a) = JS.of_Z a.
Proof.
  intros Ha. destruct a as [|n|n]; [reflexivity| |lia].
  assert (Hn : Zpos n < 2 ^ 53) by lia.
  rewrite of_Z_pos by exact Hn.
  pose proof (bitLength_le_53 n Hn) as Hd. pose proof (bitLength_pos n) as Hd1.
  pose proof (canon_mantissa n Hn) as Hm.
  assert (E : Fixed.toFixed2 (canon false n) = Fixed.Hundredths false (Zpos (100 * n))).
  { unfold canon, Fixed.toFixed2, Fixed.at_least_1e21, Fixed.hundredths.
    destruct (bitLength n - 53) as [|k|k] eqn:Ek; try lia.
    - replace (53 - bitLength n) with 0 in * by lia. rewrite Hm.
      change (2 ^ 0) with 1. rewrite !Z.mul_1_r.
      destruct (Z.leb_spec (10 ^ 21) (Zpos n)) as [H|H];
        [change (2 ^ 53) with 9007199254740992 in Hn;
         change (10 ^ 21) with 1000000000000000000000 in H; lia|].
      f_equal; lia.
    - replace (53 - bitLength n) with (Zpos k) in * by lia. rewrite Hm.
      assert (HP : 0 < 2 ^ Zpos k) by (apply Z.pow_pos_nonneg; lia).
      destruct (Z.leb_spec (10 ^ 21 * 2 ^ Zpos k) (Zpos n * 2 ^ Zpos k)) as [H|H].
      + change (2 ^ 53) with 9007199254740992 in Hn.
        change (10 ^ 21) with 1000000000000000000000 in H. nia.
      + f_equal. rewrite pow2_succ by lia.
        replace (200 * (Zpos n * 2 ^ Zpos k) + 2 ^ Zpos k)
          with (2 ^ Zpos k * (200 * Zpos n + 1)) by ring.
        replace (2 * 2 ^ Zpos k) with (2 ^ Zpos k * 2) by ring.
        rewrite Z.div_mul_cancel_l by lia.
        rewrite Pos2Z.inj_mul. symmetry.
        apply (Z.div_unique _ 2 _ 1); lia. }
  unfold round2. rewrite E. unfold Fixed.Number, JS.of_decimal.
  change (Pos.pow 10 2) with 100%positive. now apply div_100.
Qed.

End WholeNumbers.

(** ** The settlement on whole numbers *)

(** A name with a whole number: a debt or a credit. *)
Definition ofEntry (e : string * Z) : Balance :=
  {| b_name := fst e; balance := JS.of_Z (snd e) |}.

(** One debtor's turn on whole numbers: what it pays to each creditor
    (nothing is written as no payment), and the creditors it leaves. *)
Fixpoint payZ (debt : Z) (cs : list (string * Z))
    : list (string * Z) * list (string * Z) :=
  match cs with
  | [] => ([], [])
  | (w, r) :: rest =>
      let x := Z.min debt r in
      let '(made, rest') := payZ (debt - x) rest in
      ((if (0 <? x)%Z then [(w, x)] else []) ++ made, (w, r - x) :: rest')
  end.

(** The transfers of all turns, each with its debtor, its creditor and its
    amount. *)
Fixpoint settleZ (ds cs : list (string * Z)) : list (string * (string * Z)) :=
  match ds with
  | [] => []
  | (n, d) :: rest =>
      map (fun wx => (n, wx)) (fst (payZ d cs)) ++ settleZ rest (snd (payZ d cs))
  end.

(** A transfer in whole numbers, as the record the result holds. *)
Definition toPayment (m : string * (string * Z)) : Payment :=
  {| from := fst m; to := fst (snd m); amount := JS.of_Z (snd (snd m)) |}.

(** A credit that is a whole number below 2^53. *)
Definition small (e : string * Z) : Prop := (0 <= snd e < 2 ^ 53)%Z.

(** *** The whole numbers *)

Lemma payZ_spec (cs : list (string * Z)) :
  forall d, (0 <= d)%Z -> Forall (fun e => 0 <= snd e)%Z cs ->
  sumZ (map snd (fst (payZ d cs))) = Z.min d (sumZ (map snd cs))
  /\ sumZ (map snd (snd (payZ d cs))) = (sumZ (map snd cs) - Z.min d (sumZ (map snd cs)))%Z
  /\ Forall (fun e => 0 <= snd e)%Z (snd (payZ d cs))
  /\ map fst (snd (payZ d cs)) = map fst cs
  /\ Forall (fun wx => (0 < snd wx <= d)%Z /\ In (fst wx) (map fst cs)) (fst (payZ d cs))
  /\ Forall2 (fun e e' => snd e' <= snd e)%Z cs (snd (payZ d cs)).
Proof.
  induction cs as [|[w r] rest IH]; intros d Hd Hcs.
  - simpl. repeat split; try constructor; lia.
  - inversion Hcs as [|? ? Hr Hrest]; subst. simpl in Hr.
    cbn [payZ]. specialize (IH (d - Z.min d r)%Z ltac:(lia) Hrest).
    destruct (payZ (d - Z.min d r) rest) as [made rest'].
    cbn [fst snd] in *. destruct IH as (I1 & I2 & I3 & I4 & I5 & I6).
    assert (Hs : (0 <= sumZ (map snd rest))%Z).
    { clear - Hrest. induction Hrest; simpl; lia. }
    split; [|split; [|split; [|split; [|split]]]].
    + rewrite map_app. unfold sumZ in *. rewrite fold_right_app. fold (sumZ (map snd made)).
      cbn [map fold_right snd].
      destruct (Z.ltb_spec 0 (Z.min d r)); simpl.
      * fold (sumZ (map snd made)). unfold sumZ. lia.
      * fold (sumZ (map snd made)). unfold sumZ. lia.
    + cbn [map sumZ fold_right snd]. unfold sumZ in *. lia.
    + constructor; [simpl; lia | exact I3].
    + simpl. now rewrite I4.
    + apply Forall_app. split.
      * destruct (Z.ltb_spec 0 (Z.min d r)); constructor; [|constructor].
        simpl. split; [lia | now left].
      * eapply Forall_impl; [|exact I5]. simpl. intros wx [H1 H2]. split; [lia | now right].
    + constructor; [simpl; lia | exact I6].
Qed.

(** *** The code on whole numbers *)

Lemma turn_whole (n : string) (cs : list (string * Z)) :
  forall d, (0 <= d < 2 ^ 53)%Z -> Forall small cs ->
  paidTo (map ofEntry cs) (fst (turn (JS.of_Z d) (map ofEntry cs)))
  = map (fun wx => (fst wx, JS.of_Z (snd wx))) (fst (payZ d cs))
  /\ residuals (map ofEntry cs) (fst (turn (JS.of_Z d) (map ofEntry cs)))
     = map ofEntry (snd (payZ d cs)).
Proof.
  induction cs as [|[w r] rest IH]; intros d Hd Hcs; [split; reflexivity|].
  inversion Hcs as [|? ? Hr Hrest]; subst. unfold small in Hr. simpl in Hr.
  cbn [payZ map turn]. rewrite gt_cent_whole by lia.
  destruct (Z.ltb_spec 0 d) as [Hpos|Hzero].
  - unfold paymentTo. cbn [ofEntry balance snd].
    rewrite min_whole by lia. rewrite gt_zero_whole by lia.
    destruct (Z.ltb_spec 0 (Z.min d r)) as [Hx|Hx].
    + rewrite sub_whole by lia.
      specialize (IH (d - Z.min d r)%Z ltac:(lia) Hrest).
      destruct (turn (JS.of_Z (d - Z.min d r)) (map ofEntry rest)) as [made left_].
      destruct (payZ (d - Z.min d r) rest) as [madeZ rest']. cbn [fst snd] in *.
      destruct IH as [I1 I2]. cbn [paidTo residuals receive map app b_name ofEntry fst snd balance].
      rewrite I1, I2, sub_whole by lia. split; reflexivity.
    + assert (E : Z.min d r = 0%Z) by lia. rewrite E, !Z.sub_0_r in *.
      specialize (IH d Hd Hrest).
      destruct (turn (JS.of_Z d) (map ofEntry rest)) as [made left_].
      destruct (payZ d rest) as [madeZ rest']. cbn [fst snd] in *.
      destruct IH as [I1 I2]. cbn [paidTo residuals receive map app].
      rewrite I1, I2. split; reflexivity.
  - assert (E : d = 0%Z) by lia. subst d.
    assert (Hm : Z.min 0 r = 0%Z) by lia. rewrite Hm, !Z.sub_0_r.
    cbn [fst snd paidTo residuals].
    assert (H0 : forall cs', Forall small cs' ->
               fst (payZ 0 cs') = [] /\ snd (payZ 0 cs') = cs').
    { clear. induction cs' as [|[w' r'] cs' IH']; intros H; [split; reflexivity|].
      inversion H as [|? ? Hr' Hrest']; subst. unfold small in Hr'. simpl in Hr'.
      cbn [payZ]. assert (Hm : Z.min 0 r' = 0%Z) by lia. rewrite Hm, !Z.sub_0_r.
      destruct (IH' Hrest') as [E1 E2]. destruct (payZ 0 cs') as [a b]. simpl in *.
      subst. split; reflexivity. }
    destruct (H0 rest Hrest) as [E1 E2]. destruct (payZ 0 rest) as [a b].
    simpl in *. subst. split; reflexivity.
Qed.

Lemma small_after (d : Z) (cs : list (string * Z)) :
  (0 <= d)%Z -> Forall small cs -> Forall small (snd (payZ d cs)).
Proof.
  intros Hd Hcs.
  assert (Hn : Forall (fun e => 0 <= snd e)%Z cs)
    by (eapply Forall_impl; [|exact Hcs]; unfold small; intros; lia).
  destruct (payZ_spec cs d Hd Hn) as (_ & _ & H3 & _ & _ & H6).
  revert H3 H6 Hcs. generalize (snd (payZ d cs)). clear.
  induction cs as [|e cs IH]; intros l H3 H6 Hcs; inversion H6; subst; constructor.
  - inversion H3; subst. inversion Hcs; subst. unfold small in *. lia.
  - inversion H3; subst. inversion Hcs; subst. now apply IH.
Qed.

(** The turns of debtors who owe whole numbers to creditors who are owed
    whole numbers are those of [settleZ]. *)
Lemma turns_whole (ls : list (string * Z)) :
  forall cs, Forall small cs ->
  Forall (fun e => - 2 ^ 53 < snd e <= 0)%Z ls ->
  flat_map recordedIn (turns (map ofEntry ls) (map ofEntry cs))
  = map toPayment (settleZ (map (fun e => (fst e, - snd e)%Z) ls) cs).
Proof.
  induction ls as [|[n z] ls IH]; intros cs Hcs Hls; [reflexivity|].
  inversion Hls as [|? ? Hz Hrest]; subst. simpl in Hz.
  cbn [map turns flat_map settleZ fst snd].
  assert (Hd : (0 <= - z < 2 ^ 53)%Z) by lia.
  assert (Ha : JS.Math_abs (balance (ofEntry (n, z))) = JS.of_Z (- z)).
  { cbn [ofEntry balance snd]. rewrite abs_whole by lia. f_equal. lia. }
  destruct (turn_whole n cs (- z)%Z Hd Hcs) as [E1 E2].
  assert (Hn : Forall (fun e => 0 <= snd e)%Z cs)
    by (eapply Forall_impl; [|exact Hcs]; unfold small; intros; lia).
  destruct (payZ_spec cs (- z)%Z ltac:(lia) Hn) as (_ & _ & _ & _ & H5 & _).
  rewrite map_app. f_equal.
  - unfold recordedIn, paidIn, turnOf. cbn [debtor creditorsBefore pays].
    rewrite Ha, E1, !map_map. apply map_ext_in. intros [w x] Hin.
    rewrite Forall_forall in H5. destruct (H5 _ Hin) as [Hx _]. simpl in Hx.
    unfold transfer, toPayment. cbn [fst snd ofEntry b_name].
    rewrite round2_whole by lia. reflexivity.
  - unfold creditorsAfter, turnOf. cbn [creditorsBefore pays].
    rewrite Ha, E2. apply IH; [|exact Hrest].
    apply small_after; [lia | exact Hcs].
Qed.

(** *** Sums of whole numbers *)

Lemma sumZ_app (a b : list Z) : sumZ (a ++ b) = (sumZ a + sumZ b)%Z.
Proof. unfold sumZ. induction a as [|x a IH]; simpl; lia. Qed.

Lemma sumZ_nonneg (l : list Z) : Forall (fun x => 0 <= x)%Z l -> (0 <= sumZ l)%Z.
Proof. induction 1; simpl; lia. Qed.

Lemma sumZ_Permutation (a b : list Z) : Permutation a b -> sumZ a = sumZ b.
Proof. induction 1; simpl; lia. Qed.

Lemma fold_add_whole (xs : list Z) :
  forall acc, (0 <= acc)%Z -> Forall (fun x => 0 <= x)%Z xs ->
  (acc + sumZ xs < 2 ^ 53)%Z ->
  fold_left JS.add (map JS.of_Z xs) (JS.of_Z acc) = JS.of_Z (acc + sumZ xs).
Proof.
  induction xs as [|x xs IH]; intros acc Ha Hx Hs; simpl in *.
  - now rewrite Z.add_0_r.
  - inversion Hx; subst. pose proof (sumZ_nonneg xs ltac:(assumption)).
    rewrite add_whole by lia. rewrite IH by (try assumption; lia). f_equal. lia.
Qed.

Lemma sumOf_whole (xs : list Z) :
  Forall (fun x => 0 <= x)%Z xs -> (sumZ xs < 2 ^ 53)%Z ->
  sumOf (map JS.of_Z xs) = JS.of_Z (sumZ xs).
Proof.
  intros Hx Hs. unfold sumOf. change JS.zero with (JS.of_Z 0).
  now rewrite fold_add_whole by (try assumption; lia).
Qed.

Lemma filter_map_comm {A B : Type} (f : B -> bool) (g : A -> B) (l : list A) :
  filter f (map g l) = map g (filter (fun x => f (g x)) l).
Proof.
  induction l as [|x l IH]; simpl; [reflexivity|].
  destruct (f (g x)); simpl; now rewrite IH.
Qed.

(** What [n] pays and what [w] receives, in whole numbers. *)
Definition paidBy (n : string) (ms : list (string * (string * Z))) : Z :=
  sumZ (map (fun m => snd (snd m)) (filter (fun m => fst m =? n) ms)).

Definition receivedBy (w : string) (ms : list (string * (string * Z))) : Z :=
  sumZ (map (fun m => snd (snd m)) (filter (fun m => fst (snd m) =? w) ms)).

Lemma sumFrom_whole (n : string) (ms : list (string * (string * Z))) :
  Forall (fun m => 0 <= snd (snd m))%Z ms -> (paidBy n ms < 2 ^ 53)%Z ->
  sumFrom n (map toPayment ms) = JS.of_Z (paidBy n ms).
Proof.
  intros Hm Hs. unfold sumFrom, paidBy in *. rewrite filter_map_comm, map_map.
  cbn [toPayment from amount].
  rewrite <- (map_map (fun m => snd (snd m)) JS.of_Z).
  apply sumOf_whole; [|exact Hs].
  apply Forall_map. rewrite Forall_forall in *. intros m Hin.
  apply filter_In in Hin. now apply Hm.
Qed.

Lemma sumTo_whole (w : string) (ms : list (string * (string * Z))) :
  Forall (fun m => 0 <= snd (snd m))%Z ms -> (receivedBy w ms < 2 ^ 53)%Z ->
  sumTo w (map toPayment ms) = JS.of_Z (receivedBy w ms).
Proof.
  intros Hm Hs. unfold sumTo, receivedBy in *. rewrite filter_map_comm, map_map.
  cbn [toPayment to amount].
  rewrite <- (map_map (fun m => snd (snd m)) JS.of_Z).
  apply sumOf_whole; [|exact Hs].
  apply Forall_map. rewrite Forall_forall in *. intros m Hin.
  apply filter_In in Hin. now apply Hm.
Qed.

(** *** Conservation on whole numbers *)

Definition nonneg (cs : list (string * Z)) : Prop := Forall (fun e => 0 <= snd e)%Z cs.

Definition total (cs : list (string * Z)) : Z := sumZ (map snd cs).

(** The credit under the name [w]. *)
Definition creditOf (w : string) (cs : list (string * Z)) : Z :=
  total (filter (fun e => fst e =? w) cs).

(** The creditors after the turns of all debtors. *)
Definition finalZ (ds cs : list (string * Z)) : list (string * Z) :=
  fold_left (fun cs' d => snd (payZ (snd d) cs')) ds cs.

Lemma total_cons (e : string * Z) (cs : list (string * Z)) :
  total (e :: cs) = (snd e + total cs)%Z.
Proof. reflexivity. Qed.

Lemma total_nonneg (cs : list (string * Z)) : nonneg cs -> (0 <= total cs)%Z.
Proof. intros H. apply sumZ_nonneg. now apply Forall_map. Qed.

Lemma paidBy_app (n : string) (a b : list (string * (string * Z))) :
  paidBy n (a ++ b) = (paidBy n a + paidBy n b)%Z.
Proof. unfold paidBy. now rewrite filter_app, map_app, sumZ_app. Qed.

Lemma receivedBy_app (w : string) (a b : list (string * (string * Z))) :
  receivedBy w (a ++ b) = (receivedBy w a + receivedBy w b)%Z.
Proof. unfold receivedBy. now rewrite filter_app, map_app, sumZ_app. Qed.

Lemma paidBy_same (n : string) (made : list (string * Z)) :
  paidBy n (map (fun wx => (n, wx)) made) = total made.
Proof.
  unfold paidBy, total. induction made as [|wx made IH]; [reflexivity|].
  simpl. rewrite String.eqb_refl. simpl. now rewrite IH.
Qed.

Lemma paidBy_other (n n' : string) (made : list (string * Z)) :
  n' <> n -> paidBy n (map (fun wx => (n', wx)) made) = 0%Z.
Proof.
  intros Hn. unfold paidBy. induction made as [|wx made IH]; [reflexivity|].
  simpl. apply String.eqb_neq in Hn. now rewrite Hn.
Qed.

Lemma paidBy_absent (n : string) (ds : list (string * Z)) :
  forall cs, ~ In n (map fst ds) -> paidBy n (settleZ ds cs) = 0%Z.
Proof.
  induction ds as [|[n' d] ds IH]; intros cs Hn; [reflexivity|].
  cbn [settleZ]. rewrite paidBy_app, paidBy_other, IH; [reflexivity| |].
  - intros H. apply Hn. now right.
  - intros ->. apply Hn. now left.
Qed.

(** When the creditors are owed at least what the debtors owe, every
    debtor pays what it owes. *)
Lemma settleZ_paidBy (ds : list (string * Z)) :
  forall cs, NoDup (map fst ds) -> nonneg ds -> nonneg cs ->
  (total ds <= total cs)%Z ->
  forall n d, In (n, d) ds -> paidBy n (settleZ ds cs) = d.
Proof.
  induction ds as [|[n0 d0] ds IH]; intros cs Hnd Hds Hcs Hle n d Hin; [destruct Hin|].
  inversion Hnd as [|? ? Hnotin Hnd']; subst.
  inversion Hds as [|? ? Hd0 Hds']; subst. simpl in Hd0.
  pose proof (total_nonneg ds Hds') as Ht.
  rewrite total_cons in Hle. cbn [snd] in Hle.
  destruct (payZ_spec cs d0 Hd0 Hcs) as (P1 & P2 & P3 & _ & _ & _).
  fold (total (fst (payZ d0 cs))) in P1. fold (total (snd (payZ d0 cs))) in P2.
  fold (total cs) in P1, P2.
  cbn [settleZ]. rewrite paidBy_app.
  destruct Hin as [[= -> ->]|Hin].
  - rewrite paidBy_same, paidBy_absent by exact Hnotin. rewrite P1. lia.
  - assert (Hne : n0 <> n).
    { intros ->. apply Hnotin. change n with (fst (n, d)). now apply in_map. }
    rewrite paidBy_other by exact Hne.
    rewrite (IH (snd (payZ d0 cs)) Hnd' Hds' P3 ltac:(lia) n d Hin). reflexivity.
Qed.

Lemma payZ_receivedBy (n w : string) (cs : list (string * Z)) :
  forall d, (0 <= d)%Z -> nonneg cs ->
  receivedBy w (map (fun wx => (n, wx)) (fst (payZ d cs)))
  = (creditOf w cs - creditOf w (snd (payZ d cs)))%Z.
Proof.
  induction cs as [|[w0 r] rest IH]; intros d Hd Hcs; [reflexivity|].
  inversion Hcs as [|? ? Hr Hrest]; subst. simpl in Hr.
  cbn [payZ]. specialize (IH (d - Z.min d r)%Z ltac:(lia) Hrest).
  destruct (payZ (d - Z.min d r) rest) as [made rest']. cbn [fst snd] in *.
  rewrite map_app, receivedBy_app, IH.
  unfold creditOf, total. cbn [filter fst].
  destruct (w0 =? w) eqn:Ew.
  - cbn [map sumZ fold_right snd].
    destruct (Z.ltb_spec 0 (Z.min d r)).
    + unfold receivedBy. cbn [map filter fst snd]. rewrite Ew. simpl. unfold sumZ. lia.
    + unfold receivedBy. simpl. unfold sumZ. lia.
  - destruct (Z.ltb_spec 0 (Z.min d r)).
    + unfold receivedBy. cbn [map filter fst snd]. rewrite Ew. simpl. unfold sumZ. lia.
    + unfold receivedBy. simpl. unfold sumZ. lia.
Qed.

Lemma settleZ_receivedBy (w : string) (ds : list (string * Z)) :
  forall cs, nonneg ds -> nonneg cs ->
  receivedBy w (settleZ ds cs) = (creditOf w cs - creditOf w (finalZ ds cs))%Z.
Proof.
  induction ds as [|[n d] ds IH]; intros cs Hds Hcs.
  - unfold finalZ, receivedBy. simpl. lia.
  - inversion Hds as [|? ? Hd Hds']; subst. simpl in Hd.
    destruct (payZ_spec cs d Hd Hcs) as (_ & _ & P3 & _ & _ & _).
    unfold finalZ. cbn [settleZ fold_left snd]. rewrite receivedBy_app, payZ_receivedBy by assumption.
    fold (finalZ ds (snd (payZ d cs))). rewrite (IH _ Hds' P3). lia.
Qed.

Lemma finalZ_spec (ds : list (string * Z)) :
  forall cs, nonneg ds -> nonneg cs ->
  nonneg (finalZ ds cs) /\ total (finalZ ds cs) = Z.max 0 (total cs - total ds)
  /\ map fst (finalZ ds cs) = map fst cs.
Proof.
  induction ds as [|[n d] ds IH]; intros cs Hds Hcs.
  - unfold finalZ. simpl. pose proof (total_nonneg cs Hcs). unfold total at 3. simpl.
    repeat split; [assumption | lia].
  - inversion Hds as [|? ? Hd Hds']; subst. simpl in Hd.
    destruct (payZ_spec cs d Hd Hcs) as (_ & P2 & P3 & P4 & _ & _).
    fold (total (snd (payZ d cs))) in P2. fold (total cs) in P2.
    unfold finalZ. cbn [fold_left snd]. fold (finalZ ds (snd (payZ d cs))).
    destruct (IH _ Hds' P3) as (I1 & I2 & I3).
    pose proof (total_nonneg ds Hds'). pose proof (total_nonneg cs Hcs).
    split; [exact I1|]. split; [|now rewrite I3, P4].
    rewrite I2, P2, total_cons. cbn [snd]. lia.
Qed.

Lemma creditOf_zero (w : string) (cs : list (string * Z)) :
  nonneg cs -> total cs = 0%Z -> creditOf w cs = 0%Z.
Proof.
  unfold creditOf, total. induction 1 as [|[w0 r] cs Hr Hcs IH]; intros Ht; [reflexivity|].
  simpl in *. pose proof (sumZ_nonneg (map snd cs)) as Hs.
  assert (Hn : (0 <= sumZ (map snd cs))%Z).
  { apply Hs. apply Forall_map. exact Hcs. }
  unfold sumZ in *. destruct (w0 =? w); simpl; rewrite ?IH; lia.
Qed.

Lemma creditOf_NoDup (w : string) (r : Z) (cs : list (string * Z)) :
  NoDup (map fst cs) -> In (w, r) cs -> creditOf w cs = r.
Proof.
  unfold creditOf, total. induction cs as [|[w0 r0] cs IH]; intros Hnd Hin; [destruct Hin|].
  inversion Hnd as [|? ? Hnotin Hnd']; subst. simpl.
  destruct Hin as [[= -> ->]|Hin].
  - rewrite String.eqb_refl. simpl.
    assert (E : filter (fun e => fst e =? w) cs = []).
    { clear - Hnotin. induction cs as [|[w1 r1] cs IH]; [reflexivity|]. simpl in *.
      destruct (w1 =? w) eqn:E1; [apply String.eqb_eq in E1; tauto|].
      apply IH. tauto. }
    rewrite E. simpl. lia.
  - destruct (w0 =? w) eqn:E0.
    + apply String.eqb_eq in E0. subst. exfalso. apply Hnotin.
      change w with (fst (w, r)). now apply in_map.
    + now apply IH.
Qed.

(** When the debtors owe at least what the creditors are owed, every
    creditor receives what it is owed. *)
Lemma settleZ_receivedBy_all (ds cs : list (string * Z)) :
  NoDup (map fst cs) -> nonneg ds -> nonneg cs -> (total cs <= total ds)%Z ->
  forall w r, In (w, r) cs -> receivedBy w (settleZ ds cs) = r.
Proof.
  intros Hnd Hds Hcs Hle w r Hin.
  rewrite settleZ_receivedBy by assumption.
  destruct (finalZ_spec ds cs Hds Hcs) as (F1 & F2 & _).
  rewrite (creditOf_zero w (finalZ ds cs) F1) by lia.
  rewrite (creditOf_NoDup w r cs Hnd Hin). lia.
Qed.

Lemma settleZ_amounts (ds : list (string * Z)) :
  forall cs, nonneg ds -> nonneg cs ->
  Forall (fun m => 0 <= snd (snd m))%Z (settleZ ds cs).
Proof.
  induction ds as [|[n d] ds IH]; intros cs Hds Hcs; [constructor|].
  inversion Hds as [|? ? Hd Hds']; subst. simpl in Hd.
  destruct (payZ_spec cs d Hd Hcs) as (_ & _ & P3 & _ & P5 & _).
  cbn [settleZ]. apply Forall_app. split; [|now apply IH].
  apply Forall_map. eapply Forall_impl; [|exact P5]. simpl. intros wx [H _]. lia.
Qed.

(** *** Sessions in whole numbers *)

(** The names with the net balances, in whole numbers. *)
Definition entriesZ (ps : list Player) (amounts : list (Z * Z)) : list (string * Z) :=
  map (fun pbc => (name (fst pbc), (snd (snd pbc) - fst (snd pbc))%Z)) (combine ps amounts).

Definition owed (e : string * Z) : bool := (0 <? snd e)%Z.
Definition owing (e : string * Z) : bool := (snd e <? 0)%Z.
Definition debtOf (e : string * Z) : string * Z := (fst e, (- snd e)%Z).

Lemma sort_map {A B : Type} (cmp : B -> B -> JS.number) (g : A -> B) (l : list A) :
  Arr.sort cmp (map g l) = map g (Arr.sort (fun a b => cmp (g a) (g b)) l).
Proof.
  unfold Arr.sort. induction l as [|x l IH]; [reflexivity|]. simpl. rewrite IH.
  generalize (fold_right (Arr.insert (fun a b => cmp (g a) (g b))) [] l).
  intros s. induction s as [|y s IHs]; [reflexivity|]. simpl.
  destruct (JS.gt (cmp (g x) (g y)) JS.zero); simpl; [now rewrite IHs | reflexivity].
Qed.

(** An entry whose amounts are the whole numbers [bc], both below 2^53. *)
Definition wholeEntry (p : Player) (bc : Z * Z) : Prop :=
  Str.parseFloat (buyIn p) = JS.of_Z (fst bc)
  /\ Str.parseFloat (cashOut p) = JS.of_Z (snd bc)
  /\ (0 <= fst bc < 2 ^ 53)%Z /\ (0 <= snd bc < 2 ^ 53)%Z.

Lemma wholeNumbers_entries (ps : list Player) (amounts : list (Z * Z)) :
  wholeNumbers ps amounts -> Forall2 wholeEntry ps amounts.
Proof.
  intros [H2 Hs]. revert Hs. unfold wholeEntry. generalize (2 ^ 53)%Z as bound.
  induction H2 as [|p bc ps' am (Eb & Ec & Hb & Hc) H2 IH]; intros bound Hs; [constructor|].
  assert (N : forall (l : list (Z * Z)) (ps0 : list Player),
            Forall2 (fun p bc => Str.parseFloat (buyIn p) = JS.of_Z (fst bc)
                                 /\ Str.parseFloat (cashOut p) = JS.of_Z (snd bc)
                                 /\ (0 <= fst bc)%Z /\ (0 <= snd bc)%Z) ps0 l ->
            (0 <= sumZ (map fst l))%Z /\ (0 <= sumZ (map snd l))%Z).
  { clear. intros l ps0 H. induction H as [|p bc ps0 l (_ & _ & Hb & Hc) _ [I1 I2]];
      simpl; [lia|]. unfold sumZ in *. simpl. lia. }
  destruct (N am ps' H2) as [N1 N2].
  simpl in Hs. unfold sumZ in *. simpl in Hs.
  constructor.
  - repeat split; try assumption; lia.
  - apply IH. lia.
Qed.

Lemma playerBalances_whole (ps : list Player) (amounts : list (Z * Z)) :
  Forall2 wholeEntry ps amounts ->
  playerBalances ps = map ofEntry (entriesZ ps amounts).
Proof.
  unfold playerBalances, entriesZ.
  induction 1 as [|p bc ps' am (Eb & Ec & Hb & Hc) _ IH]; [reflexivity|].
  simpl. rewrite IH. f_equal.
  unfold ofEntry, balanceOf. cbn [fst snd]. rewrite Eb, Ec, sub_whole by lia. reflexivity.
Qed.

Lemma entriesZ_bounds (ps : list Player) (amounts : list (Z * Z)) :
  Forall2 wholeEntry ps amounts ->
  Forall (fun e => - 2 ^ 53 < snd e < 2 ^ 53)%Z (entriesZ ps amounts).
Proof.
  unfold entriesZ.
  induction 1 as [|p bc ps' am (_ & _ & Hb & Hc) _ IH]; [constructor|].
  simpl. constructor; [simpl; lia | exact IH].
Qed.

Lemma filter_owed (es : list (string * Z)) :
  Forall (fun e => - 2 ^ 53 < snd e < 2 ^ 53)%Z es ->
  filter (fun b => JS.gt (balance b) JS.zero) (map ofEntry es) = map ofEntry (filter owed es)
  /\ filter (fun b => JS.lt (balance b) JS.zero) (map ofEntry es)
     = map ofEntry (filter owing es).
Proof.
  induction 1 as [|e es He _ [IH1 IH2]]; [split; reflexivity|].
  simpl. unfold owed, owing. rewrite gt_zero_whole, lt_zero_whole by lia.
  rewrite IH1, IH2. split.
  - destruct (0 <? snd e)%Z; reflexivity.
  - destruct (snd e <? 0)%Z; reflexivity.
Qed.

(** The sorted creditors and debtors, in whole numbers. *)
Definition winnersZ (es : list (string * Z)) : list (string * Z) :=
  Arr.sort (fun a b => JS.sub (balance (ofEntry b)) (balance (ofEntry a)))
           (filter owed es).

Definition losersZ (es : list (string * Z)) : list (string * Z) :=
  Arr.sort (fun a b => JS.sub (balance (ofEntry a)) (balance (ofEntry b)))
           (filter owing es).

Section Whole.
Variable ps : list Player.
Variable amounts : list (Z * Z).
Hypothesis Hwhole : Forall2 wholeEntry ps amounts.

Let es := entriesZ ps amounts.

Lemma initialWinners_whole : initialWinners ps = map ofEntry (winnersZ es).
Proof.
  unfold initialWinners, winnersZ. rewrite (playerBalances_whole ps amounts Hwhole).
  destruct (filter_owed _ (entriesZ_bounds ps amounts Hwhole)) as [-> _].
  now rewrite (sort_map (fun a b => JS.sub (balance b) (balance a))).
Qed.

Lemma losers_whole : losers ps = map ofEntry (losersZ es).
Proof.
  unfold losers, losersZ. rewrite (playerBalances_whole ps amounts Hwhole).
  destruct (filter_owed _ (entriesZ_bounds ps amounts Hwhole)) as [_ ->].
  now rewrite (sort_map (fun a b => JS.sub (balance a) (balance b))).
Qed.

Lemma winnersZ_In (e : string * Z) :
  In e (winnersZ es) <-> In e es /\ (0 < snd e)%Z.
Proof.
  unfold winnersZ. rewrite sort_In, filter_In. unfold owed. now rewrite Z.ltb_lt.
Qed.

Lemma losersZ_In (e : string * Z) :
  In e (losersZ es) <-> In e es /\ (snd e < 0)%Z.
Proof.
  unfold losersZ. rewrite sort_In, filter_In. unfold owing. now rewrite Z.ltb_lt.
Qed.

Lemma winnersZ_small : Forall small (winnersZ es).
Proof.
  rewrite Forall_forall. intros e He. apply winnersZ_In in He. destruct He as [He Hp].
  pose proof (entriesZ_bounds ps amounts Hwhole) as Hb.
  rewrite Forall_forall in Hb. specialize (Hb e He). unfold small. lia.
Qed.

Lemma losersZ_bounds : Forall (fun e => - 2 ^ 53 < snd e <= 0)%Z (losersZ es).
Proof.
  rewrite Forall_forall. intros e He. apply losersZ_In in He. destruct He as [He Hp].
  pose proof (entriesZ_bounds ps amounts Hwhole) as Hb.
  rewrite Forall_forall in Hb. specialize (Hb e He). lia.
Qed.

(** The result, in whole numbers. *)
Lemma calculatePayments_whole :
  calculatePayments ps = map toPayment (settleZ (map debtOf (losersZ es)) (winnersZ es)).
Proof.
  unfold calculatePayments. rewrite settle_turns. cbn [paid].
  rewrite initialWinners_whole, losers_whole.
  apply turns_whole; [exact winnersZ_small | exact losersZ_bounds].
Qed.

End Whole.

Lemma total_split (es : list (string * Z)) :
  total es = (total (filter owed es) - total (map debtOf (filter owing es)))%Z.
Proof.
  unfold total, owed, owing. induction es as [|[n z] es IH]; [reflexivity|].
  simpl. unfold sumZ in *. simpl in *.
  destruct (Z.ltb_spec 0 z), (Z.ltb_spec z 0); simpl; lia.
Qed.

Lemma total_Permutation (a b : list (string * Z)) : Permutation a b -> total a = total b.
Proof. intros H. unfold total. apply sumZ_Permutation. now apply Permutation_map. Qed.

Lemma total_entriesZ (ps : list Player) (amounts : list (Z * Z)) :
  Forall2 wholeEntry ps amounts ->
  total (entriesZ ps amounts) = (sumZ (map snd amounts) - sumZ (map fst amounts))%Z.
Proof.
  unfold total, entriesZ. induction 1 as [|p bc ps' am _ _ IH]; [reflexivity|].
  simpl. unfold sumZ in *. simpl in *. lia.
Qed.

Lemma or_zero_whole (z : Z) : (0 <= z < 2 ^ 53)%Z -> JS.or_zero (JS.of_Z z) = JS.of_Z z.
Proof.
  destruct z as [|n|n]; intros Hz; try lia; [reflexivity|]. now rewrite of_Z_pos by lia.
Qed.

Lemma totals_whole (ps : list Player) (amounts : list (Z * Z)) :
  wholeNumbers ps amounts ->
  buyInTotal ps = JS.of_Z (sumZ (map fst amounts))
  /\ cashOutTotal ps = JS.of_Z (sumZ (map snd amounts))
  /\ (0 <= sumZ (map fst amounts) < 2 ^ 53)%Z
  /\ (0 <= sumZ (map snd amounts) < 2 ^ 53)%Z.
Proof.
  intros Hw. pose proof (wholeNumbers_entries ps amounts Hw) as H2. destruct Hw as [_ Hs].
  assert (E : map (fun p => amountOrZero (buyIn p)) ps = map JS.of_Z (map fst amounts)
              /\ map (fun p => amountOrZero (cashOut p)) ps = map JS.of_Z (map snd amounts)
              /\ Forall (fun x => 0 <= x)%Z (map fst amounts)
              /\ Forall (fun x => 0 <= x)%Z (map snd amounts)).
  { clear Hs. induction H2 as [|p bc ps' am (Eb & Ec & Hb & Hc) _ (I1 & I2 & I3 & I4)].
    - repeat split; constructor.
    - simpl. rewrite I1, I2. unfold amountOrZero. rewrite Eb, Ec, !or_zero_whole by lia.
      repeat split; constructor; try assumption; lia. }
  destruct E as (E1 & E2 & N1 & N2).
  pose proof (sumZ_nonneg _ N1). pose proof (sumZ_nonneg _ N2).
  rewrite buyInTotal_sumOf, cashOutTotal_sumOf, E1, E2.
  rewrite !sumOf_whole by (try assumption; lia). repeat split; lia.
Qed.

(** A balanced session in whole numbers: the credits are the debts. *)
Lemma balanced_whole (ps : list Player) (amounts : list (Z * Z)) :
  wholeNumbers ps amounts -> checkTotalBalance ps = true ->
  total (winnersZ (entriesZ ps amounts))
  = total (map debtOf (losersZ (entriesZ ps amounts))).
Proof.
  intros Hw Hb. destruct (totals_whole ps amounts Hw) as (E1 & E2 & B1 & B2).
  unfold checkTotalBalance in Hb. rewrite E1, E2 in Hb.
  fold (round2 (JS.of_Z (sumZ (map fst amounts)))) in Hb.
  fold (round2 (JS.of_Z (sumZ (map snd amounts)))) in Hb.
  rewrite !round2_whole, strict_eq_whole in Hb by lia.
  apply Z.eqb_eq in Hb.
  pose proof (total_split (entriesZ ps amounts)) as Ht.
  rewrite (total_entriesZ ps amounts (wholeNumbers_entries ps amounts Hw)) in Ht.
  assert (P1 : total (winnersZ (entriesZ ps amounts))
               = total (filter owed (entriesZ ps amounts))).
  { symmetry. apply total_Permutation. unfold winnersZ. apply sort_Permutation. }
  assert (P2 : total (map debtOf (losersZ (entriesZ ps amounts)))
               = total (map debtOf (filter owing (entriesZ ps amounts)))).
  { symmetry. apply total_Permutation. apply Permutation_map.
    unfold losersZ. apply sort_Permutation. }
  lia.
Qed.

Lemma Forall2_In_l {A B : Type} (R : A -> B -> Prop) (l1 : list A) (l2 : list B) (x : A) :
  Forall2 R l1 l2 -> In x l1 -> exists y, In (x, y) (combine l1 l2) /\ R x y.
Proof.
  induction 1 as [|a b l1 l2 Hab _ IH]; intros Hin; [destruct Hin|].
  destruct Hin as [->|Hin].
  - exists b. split; [now left | exact Hab].
  - destruct (IH Hin) as (y & Hy & HR). exists y. split; [now right | exact HR].
Qed.

Lemma within_cent_whole (z : Z) :
  (0 <= z < 2 ^ 53)%Z -> within_cent (JS.of_Z z) (JS.of_Z z) = true.
Proof.
  intros Hz. unfold within_cent. rewrite sub_whole, Z.sub_diag by lia. reflexivity.
Qed.

(** On a validated session whose amounts are whole numbers the transfers
    conserve the balances exactly: what a debtor pays in all is what it
    owes, and what a creditor receives in all is what it is owed. *)
Lemma whole_number_sessions_conserve (ps : list Player) (amounts : list (Z * Z)) :
  validated ps = true -> wholeNumbers ps amounts ->
  (forall p, In p ps ->
     (JS.lt (balanceOf p) JS.zero = true ->
      sumFrom (name p) (calculatePayments ps) = JS.Math_abs (balanceOf p))
     /\ (JS.gt (balanceOf p) JS.zero = true ->
         sumTo (name p) (calculatePayments ps) = balanceOf p))
  /\ conserves ps (calculatePayments ps).
Proof.
  intros Hv Hw.
  pose proof (wholeNumbers_entries ps amounts Hw) as H2.
  apply validated_true in Hv. destruct Hv as (Hdup & _ & Hbal).
  apply hasDuplicateNames_false_NoDup in Hdup.
  set (es := entriesZ ps amounts).
  set (ws := winnersZ es). set (ds := map debtOf (losersZ es)).
  pose proof (calculatePayments_whole ps amounts H2) as Ecalc. fold es ws ds in Ecalc.
  pose proof (balanced_whole ps amounts Hw Hbal) as Etot. fold es ws ds in Etot.
  pose proof (winnersZ_small ps amounts H2) as Hws. fold es ws in Hws.
  pose proof (losersZ_bounds ps amounts H2) as Hls. fold es in Hls.
  assert (Nws : nonneg ws)
    by (eapply Forall_impl; [|exact Hws]; unfold small; intros; lia).
  assert (Nds : nonneg ds).
  { unfold ds, nonneg. apply Forall_map. eapply Forall_impl; [|exact Hls].
    simpl. intros; lia. }
  assert (Dws : NoDup (map fst ws)).
  { pose proof (sorted_filtered_names ps (fun p => JS.gt (balance p) JS.zero)
                  (fun a b => JS.sub (balance b) (balance a)) Hdup) as H.
    fold (initialWinners ps) in H.
    rewrite (initialWinners_whole ps amounts H2), map_map in H. exact H. }
  assert (Dds : NoDup (map fst ds)).
  { pose proof (sorted_filtered_names ps (fun p => JS.lt (balance p) JS.zero)
                  (fun a b => JS.sub (balance a) (balance b)) Hdup) as H.
    fold (losers ps) in H.
    rewrite (losers_whole ps amounts H2), map_map in H.
    unfold ds. rewrite map_map. exact H. }
  pose proof (settleZ_amounts ds ws Nds Nws) as Hamt.
  assert (Main : forall p, In p ps ->
            (JS.lt (balanceOf p) JS.zero = true ->
             sumFrom (name p) (calculatePayments ps) = JS.Math_abs (balanceOf p)
             /\ exists z, (0 <= z < 2 ^ 53)%Z /\ JS.Math_abs (balanceOf p) = JS.of_Z z)
            /\ (JS.gt (balanceOf p) JS.zero = true ->
                sumTo (name p) (calculatePayments ps) = balanceOf p
                /\ exists z, (0 <= z < 2 ^ 53)%Z /\ balanceOf p = JS.of_Z z)).
  { intros p Hp.
    destruct (Forall2_In_l _ _ _ p H2 Hp) as ([b c] & Hin & Eb & Ec & Hb & Hc).
    cbn [fst snd] in *.
    assert (Ebal : balanceOf p = JS.of_Z (c - b)).
    { unfold balanceOf. rewrite Eb, Ec, sub_whole by lia. reflexivity. }
    assert (He : In (name p, (c - b)%Z) es).
    { unfold es, entriesZ. apply in_map_iff. exists (p, (b, c)). split; [reflexivity | exact Hin]. }
    rewrite Ebal, Ecalc. split.
    - rewrite lt_zero_whole by lia. intros Hlt. apply Z.ltb_lt in Hlt.
      assert (Hd : In (name p, (b - c)%Z) ds).
      { unfold ds. apply in_map_iff. exists (name p, (c - b)%Z). split.
        - unfold debtOf. cbn [fst snd]. f_equal. lia.
        - apply (losersZ_In ps amounts). split; [exact He | simpl; lia]. }
      pose proof (settleZ_paidBy ds ws Dds Nds Nws ltac:(lia) _ _ Hd) as Epaid.
      rewrite sumFrom_whole, Epaid by (try assumption; rewrite ?Epaid; lia).
      rewrite abs_whole by lia. replace (Z.abs (c - b)) with (b - c)%Z by lia.
      split; [reflexivity|]. exists (b - c)%Z. split; [lia | reflexivity].
    - rewrite gt_zero_whole by lia. intros Hgt. apply Z.ltb_lt in Hgt.
      assert (Hc' : In (name p, (c - b)%Z) ws).
      { apply (winnersZ_In ps amounts). split; [exact He | simpl; lia]. }
      pose proof (settleZ_receivedBy_all ds ws Dws Nds Nws ltac:(lia) _ _ Hc') as Erec.
      rewrite sumTo_whole, Erec by (try assumption; rewrite ?Erec; lia).
      split; [reflexivity|]. exists (c - b)%Z. split; [lia | reflexivity]. }
  split.
  - intros p Hp. destruct (Main p Hp) as [M1 M2]. split.
    + intros H. now destruct (M1 H).
    + intros H. now destruct (M2 H).
  - intros p Hp. destruct (Main p Hp) as [M1 M2]. split.
    + intros H. destruct (M1 H) as (E & z & Hz & Ez). rewrite E, Ez.
      now apply within_cent_whole.
    + intros H. destruct (M2 H) as (E & z & Hz & Ez). rewrite E, Ez.
      now apply within_cent_whole.
Qed.

(** ** The claim about conservation *)

(** A validated session in which a debtor finds no creditor: A's buy-in is
    read as 0 by the balance check and as NaN by the settlement, so B, who
    owes 50, has no one to pay. *)
Definition noCreditor : list Player :=
  [ {| name := "A"; buyIn := "x"; cashOut := "50" |};
    {| name := "B"; buyIn := "50"; cashOut := "0" |} ].

Example debtor_without_creditor :
  validated noCreditor = true
  /\ initialWinners noCreditor = []
  /\ map (fun t => (b_name (debtor t), pays t, debtLeft t))
         (turns (losers noCreditor) (initialWinners noCreditor))
     = [ ("B", [], JS.of_Z 50) ]
  /\ calculatePayments noCreditor = [].
Proof. repeat split; vm_compute; reflexivity. Qed.

(** The ledger of [tenthsOfCents]: L pays 1.004 to each creditor, which
    leaves it no debt and every creditor without credit, and each payment
    is recorded as 1. *)
Example turns_of_tenthsOfCents :
  map (fun t => (b_name (debtor t), pays t, debtLeft t))
      (turns (losers tenthsOfCents) (initialWinners tenthsOfCents))
  = [ ("L", [Some (Str.parseFloat "1.004"); Some (Str.parseFloat "1.004");
             Some (Str.parseFloat "1.004")], JS.zero) ]
  /\ map amount (calculatePayments tenthsOfCents) = [JS.of_Z 1; JS.of_Z 1; JS.of_Z 1].
Proof. split; vm_compute; reflexivity. Qed.

(** C1 (amended): the result is the ledger of the debtors' turns.  The
    debtors take turns in sorted order, each turn starting from the residual
    credits the turn before has left.  In a turn every payment is above 0,
    is the smaller of the debt left at that point and of the creditor's
    residual credit (so it exceeds neither), and is taken off both; and the
    turn ends with a debt left, the debt less the payments, that is not
    above 0.01, or else with no creditor that has a credit above 0.  Every
    creditor ends with its credit less the payments it received; and when
    all turns are over, either every debtor is left with a debt not above
    0.01 or no creditor is left with a credit above 0.  Every payment is
    recorded as one transfer whose amount is the decimal with 2 fractional
    digits nearest to the payment.  And on a validated session whose
    amounts are whole numbers (below 2^53 in all) conservation holds as the
    specification words it, and exactly: what a debtor pays in all is what
    it owes, and what a creditor receives in all is what it is owed. *)
Theorem debtors_pay_down_to_the_threshold (ps : list Player) :
  let ts := turns (losers ps) (initialWinners ps) in
  calculatePayments ps = flat_map recordedIn ts
  /\ map debtor ts = losers ps
  /\ carriedOver (initialWinners ps) ts
  /\ Forall paidDown ts
  /\ (forall i c,
        nth_error (initialWinners ps) i = Some c ->
        nth_error (winners (settle ps)) i
        = Some {| b_name := b_name c;
                  balance := fold_left JS.sub (receivedAt i ts) (balance c) |})
  /\ (Forall (fun t => JS.gt (debtLeft t) JS.cent = false) ts
      \/ Forall exhausted (winners (settle ps)))
  /\ (forall t wx,
        In t ts -> In wx (paidIn t) ->
        In (transfer (debtor t) wx) (calculatePayments ps)
        /\ recordedAs (snd wx) (amount (transfer (debtor t) wx)))
  /\ (forall amounts,
        validated ps = true -> wholeNumbers ps amounts ->
        conserves ps (calculatePayments ps)
        /\ forall p, In p ps ->
             (JS.lt (balanceOf p) JS.zero = true ->
              sumFrom (name p) (calculatePayments ps) = JS.Math_abs (balanceOf p))
             /\ (JS.gt (balanceOf p) JS.zero = true ->
                 sumTo (name p) (calculatePayments ps) = balanceOf p)).
Proof.
  intros ts. split; [|split; [|split; [|split; [|split; [|split; [|split]]]]]].
  - unfold calculatePayments. now rewrite (settle_turns ps).
  - apply turns_debtors.
  - apply turns_carriedOver.
  - apply turns_paidDown.
  - intros i c Hc. rewrite (settle_turns ps). cbn [winners]. now apply creditsAfter_nth.
  - rewrite (settle_turns ps). cbn [winners]. apply turns_settled.
  - intros t wx Ht Hwx. split.
    + unfold calculatePayments. rewrite (settle_turns ps). cbn [paid].
      apply in_flat_map. exists t. split; [exact Ht|].
      unfold recordedIn. now apply in_map.
    + cbn [transfer amount]. apply round2_recordedAs.
      destruct (paidTo_payees _ _ wx Hwx) as (i & c & Hc & Hx & _).
      pose proof (turns_paidDown (losers ps) (initialWinners ps)) as Hall.
      rewrite Forall_forall in Hall. destruct (Hall t Ht) as (_ & Hpay & _).
      now destruct (Hpay i c (snd wx) Hc Hx).
  - intros amounts Hv Hw.
    destruct (whole_number_sessions_conserve ps amounts Hv Hw) as [H1 H2].
    split; assumption.
Qed.

(** The theorem at the two-creditor, two-debtor session, whose amounts are
    whole numbers: L1 pays 40 and L2 pays 10, W1 receives 30 and W2
    receives 20. *)
Lemma debtors_pay_down_to_the_threshold_witness :
  conserves twoAndTwo (calculatePayments twoAndTwo)
  /\ sumFrom "L1" (calculatePayments twoAndTwo) = JS.of_Z 40
  /\ sumTo "W2" (calculatePayments twoAndTwo) = JS.of_Z 20.
Proof.
  destruct (debtors_pay_down_to_the_threshold twoAndTwo) as (_ & _ & _ & _ & _ & _ & _ & H).
  destruct (H [(0, 30); (0, 20); (40, 0); (10, 0)]%Z) as [Hc Hp].
  - vm_compute. reflexivity.
  - split; [|vm_compute; reflexivity].
    repeat constructor; vm_compute; congruence.
  - split; [exact Hc|]. split.
    + destruct (Hp {| name := "L1"; buyIn := "40"; cashOut := "0" |}) as [Hl _];
        [right; right; left; reflexivity|].
      etransitivity; [exact (Hl eq_refl) | vm_compute; reflexivity].
    + destruct (Hp {| name := "W2"; buyIn := "0"; cashOut := "20" |}) as [_ Hg];
        [right; left; reflexivity|].
      etransitivity; [exact (Hg eq_refl) | vm_compute; reflexivity].
Defined.
